(** * Mask-based beamforming front end and permutation-invariant loss

    A shallow embedding of the parts of [espnet2/enh/espnet_model.py],
    [espnet2/asr/frontend/espnet_model.py] and
    [espnet2/asr/frontend/nets/dnn_beamformer.py] that decide the
    permutation search, the mask labels, the beamformer configuration and
    the reference vector.

    Conventions.
    - Floats are idealised as real numbers.  The only float behaviour kept
      is the one the code can trip over: a division whose divisor is zero
      and the mean of an empty tensor do not raise, they produce nan or
      inf; the embedding then stops with [NonFinite].
    - A Python exception is an outcome [Raise e].
    - A tensor whose first axis is the batch is a function of the batch
      index, with the batch size kept beside it; a stacked tensor is a list
      of rows. *)

From Stdlib Require Import Reals Lra Lia ZArith String Ascii Sorted.
From stdpp Require Import base option list sorting gmap strings pretty.

(** ** Outcomes of a Python call *)

Inductive exn : Type :=
| ValueError (msg : string)
| KeyError (key : string)
| IndexError
| AssertionError
| ZeroDivisionError
| TypeError
| RuntimeError.

Inductive result (A : Type) : Type :=
| Ok (a : A)
| Raise (e : exn)
| NonFinite.

Arguments Ok {A} a.
Arguments Raise {A} e.
Arguments NonFinite {A}.

#[global] Instance result_ret : MRet result := @Ok.

#[global] Instance result_bind : MBind result := λ A B f m,
  match m with
  | Ok a => f a
  | Raise e => Raise e
  | NonFinite => NonFinite
  end.

(** [l[i]] for a Python list and a non-negative index. *)
Definition py_getitem {A} (l : list A) (i : nat) : result A :=
  match l !! i with
  | Some x => Ok x
  | None => Raise IndexError
  end.

(** [sum(xs)]: Python's left fold from the integer 0. *)
Definition py_sum (xs : list R) : R := fold_left Rplus xs 0%R.

(** [d[key]] for a dict with string keys. *)
Definition py_getkey {A} (d : gmap string A) (key : string) : result A :=
  match d !! key with
  | Some x => Ok x
  | None => Raise (KeyError key)
  end.

(** [key in d] *)
Definition py_in {A} (key : string) (d : gmap string A) : bool :=
  bool_decide (is_Some (d !! key)).

(** [xs == s] for a list [xs] and a str [s]: neither type's [__eq__]
    accepts the other, Python falls back to identity, and the answer is
    [False] whatever the list holds. *)
Definition list_eq_str {A} (xs : list A) (s : string) : bool := false.

(** [xs.pop(i)] for [0 <= i]: the element and the list without it. *)
Definition py_pop {A} (xs : list A) (i : nat) : result (A * list A) :=
  match xs !! i with
  | Some x => Ok (x, delete i xs)
  | None => Raise IndexError
  end.

(** [xs.insert(i, x)]: past the end it appends. *)
Definition py_insert {A} (xs : list A) (i : nat) (x : A) : list A :=
  take i xs ++ x :: drop i xs.

Definition newline : string := String (ascii_of_nat 10) EmptyString.
Definition dquote : string := String (ascii_of_nat 34) EmptyString.

(** ** [itertools] *)

Module Itertools.

(** Every way of taking one element out of [pool], by position. *)
Fixpoint selections {A} (pool : list A) : list (A * list A) :=
  match pool with
  | [] => []
  | x :: xs => (x, xs) :: ((λ '(y, ys), (y, x :: ys)) <$> selections xs)
  end.

Fixpoint permutations_of_length {A} (n : nat) (pool : list A) : list (list A) :=
  match n with
  | 0 => [[]]
  | S n' =>
      '(x, rest) ← selections pool;
      cons x <$> permutations_of_length n' rest
  end.

(** [itertools.permutations(pool)]: the full-length orderings of [pool],
    emitted in lexicographic order of the positions taken.  On the empty
    pool it yields the one empty tuple. *)
Definition permutations {A} (pool : list A) : list (list A) :=
  permutations_of_length (length pool) pool.

(** [range(n)] *)
Definition range (n : nat) : list nat := seq 0 n.

(** [enumerate(xs)] *)
Definition enumerate {A} (xs : list A) : list (nat * A) := imap pair xs.

End Itertools.

(** ** [torch] reductions and indexing on real tensors *)

Module Torch.

(** [torch.stack(cols, dim=1)] for per-example vectors of batch size
    [B]: row [b] lists the entries of the columns at [b].  Stacking
    nothing is an error. *)
Definition stack_dim1 (B : nat) (cols : list (nat → R)) : result (list (list R)) :=
  match cols with
  | [] => Raise RuntimeError
  | _ => Ok ((λ b, (λ col : nat → R, col b) <$> cols) <$> seq 0 B)
  end.

(** Scan of one row for its minimum: a later entry replaces the current
    best only when strictly smaller, so the first minimum keeps its index. *)
Fixpoint argmin_from (best : R) (besti i : nat) (row : list R) : R * nat :=
  match row with
  | [] => (best, besti)
  | x :: row' =>
      if Rlt_dec x best then argmin_from x i (S i) row'
      else argmin_from best besti (S i) row'
  end.

Definition row_min (row : list R) : result (R * Z) :=
  match row with
  | [] => Raise IndexError
  | x :: row' => let '(m, i) := argmin_from x 0 1 row' in Ok (m, Z.of_nat i)
  end.

(** [torch.min(losses, dim=1)]: values and indices, one per row. *)
Definition min_dim1 (losses : list (list R)) : result (list R * list Z) :=
  picks ← mapM row_min losses;
  Ok (picks.*1, picks.*2).

(** An integer index into an axis of size [n]; negative indices count
    from the end. *)
Definition wrap_index (n : nat) (j : Z) : result nat :=
  if bool_decide (0 ≤ j < Z.of_nat n)%Z then Ok (Z.to_nat j)
  else if bool_decide (- Z.of_nat n ≤ j < 0)%Z then Ok (Z.to_nat (Z.of_nat n + j))
  else Raise IndexError.

Definition getitem2 (losses : list (list R)) (b : nat) (j : Z) : result R :=
  row ← py_getitem losses b;
  k ← wrap_index (length row) j;
  py_getitem row k.

(** [losses[torch.arange(B), perm]]: the two index vectors are broadcast
    against each other. *)
Definition index_rows (losses : list (list R)) (perm : list Z) : result (list R) :=
  let B := length losses in
  if bool_decide (length perm = B) then
    mapM (λ '(b, j), getitem2 losses b j) (zip (seq 0 B) perm)
  else if bool_decide (length perm = 1) then
    mapM (λ b, j ← py_getitem perm 0; getitem2 losses b j) (seq 0 B)
  else if bool_decide (B = 1) then
    mapM (getitem2 losses 0) perm
  else Raise IndexError.

(** [t.mean()] of a vector; the mean of no element is nan. *)
Definition mean (t : list R) : result R :=
  match t with
  | [] => NonFinite
  | _ => Ok (fold_left Rplus t 0 / INR (length t))%R
  end.

End Torch.

(** ** [torch_complex]: complex values as pairs of reals *)

Module TorchComplex.

Definition complex : Type := R * R.

(** [abs(z)] is [(z.real ** 2 + z.imag ** 2).sqrt()]. *)
Definition cabs (z : complex) : R := sqrt (z.1 ^ 2 + z.2 ^ 2).

(** [z / d] for a real [d] divides both parts. *)
Definition cdiv_real (z : complex) (d : R) : complex := ((z.1 / d)%R, (z.2 / d)%R).

(** [z + d] for a real [d] shifts the real part. *)
Definition cadd_real (z : complex) (d : R) : complex := ((z.1 + d)%R, z.2).

Definition cadd (z w : complex) : complex := ((z.1 + w.1)%R, (z.2 + w.2)%R).

(** [z / w] for complex [w]: both parts over [w.real ** 2 + w.imag ** 2];
    nan where that is zero. *)
Definition cdiv (z w : complex) : option complex :=
  let den := (w.1 ^ 2 + w.2 ^ 2)%R in
  if Req_EM_T den 0 then None
  else Some (((z.1 * w.1 + z.2 * w.2) / den)%R, ((- z.1 * w.2 + z.2 * w.1) / den)%R).

End TorchComplex.

(** ** Mask labels

    A spectrum is a complex value per bin; [I] is the type of bin
    positions (batch, frame, channel, frequency), the same for every
    operand of one call. *)

Module MaskLabel.
Import TorchComplex.

(** [eps = 10e-8] *)
Definition eps : R := (10 / 10 ^ 8)%R.

(** [x.clamp(min=lo, max=hi)] *)
Definition clamp (lo hi x : R) : R := Rmin (Rmax x lo) hi.

Inductive mask (I : Type) : Type :=
| RealMask (m : I → R)
| ComplexMask (m : I → option complex).

Arguments RealMask {I} m.
Arguments ComplexMask {I} m.

Section Labels.
Context {I : Type}.

(** [cos(a - b) = cos(a)*cos(b) + sin(a)*sin(b)] from the two unit
    phasors. *)
Definition cos_theta (mix_spec r : I → complex) (i : I) : R :=
  let phase_r := cdiv_real (r i) (cabs (r i) + eps) in
  let phase_mix := cdiv_real (mix_spec i) (cabs (mix_spec i) + eps) in
  (phase_r.1 * phase_mix.1 + phase_r.2 * phase_mix.2)%R.

(** The branches of the loop body shared by both models. *)
Definition common_label (mix_spec : I → complex) (ref_spec : list (I → complex))
    (mask_type : string) (mask_label : list (mask I)) (r : I → complex)
    : option (mask I) :=
  if (mask_type =? "IBM")%string then
    Some (RealMask (λ i,
      if forallb (λ n : I → complex, if Rge_dec (cabs (r i)) (cabs (n i)) then true else false)
                 ref_spec
      then 1%R else 0%R))
  else if (mask_type =? "IRM")%string then
    Some (RealMask (λ i,
      cabs (r i) / (py_sum ((λ n : I → complex, cabs (n i)) <$> ref_spec) + eps))%R)
  else if (mask_type =? "IAM")%string then
    Some (RealMask (λ i, clamp 0 1 (cabs (r i) / (cabs (mix_spec i) + eps))%R))
  else if (mask_type =? "PSM")%string || (mask_type =? "NPSM")%string then
    let mask i := (cabs (r i) / (cabs (mix_spec i) + eps) * cos_theta mix_spec r i)%R in
    Some (RealMask (if list_eq_str mask_label "NPSM"
                    then λ i, clamp 0 1 (mask i)
                    else λ i, clamp (-1) 1 (mask i)))
  else None.

(** The [for r in ref_spec] loop with its accumulator [mask_label]. *)
Fixpoint label_loop (body : list (mask I) → (I → complex) → result (mask I))
    (rs : list (I → complex)) (mask_label : list (mask I)) : result (list (mask I)) :=
  match rs with
  | [] => Ok mask_label
  | r :: rs' =>
      mask ← body mask_label r;
      label_loop body rs' (mask_label ++ [mask])
  end.

End Labels.
End MaskLabel.

(** ** The enhancement model *)

Module ESPnetEnhancementModel.

Section MaskLabels.
Import TorchComplex MaskLabel.
Context {I : Type}.

Definition mask_types : list string := ["IBM"; "IRM"; "IAM"; "PSM"; "NPSM"; "PSM^2"].

Definition _create_mask_label (mix_spec : I → complex) (ref_spec : list (I → complex))
    (mask_type : string) : result (list (mask I)) :=
  if negb (bool_decide (mask_type ∈ mask_types)) then Raise AssertionError
  else
    label_loop (λ mask_label r,
      match common_label mix_spec ref_spec mask_type mask_label r with
      | Some mask => Ok mask
      | None =>
          if (mask_type =? "PSM^2")%string then
            Ok (RealMask (λ i,
              clamp (-1) 1 (cabs (r i) ^ 2 / (cabs (mix_spec i) ^ 2 + eps)
                            * cos_theta mix_spec r i)%R))
          else Raise AssertionError
      end) ref_spec [].

End MaskLabels.

Section Loss.

Context {T : Type}.
(** Batch size of every tensor handed to the loss. *)
Variable B : nat.
(** [criterion ref inf] is a vector with one loss per batch element. *)
Variable criterion : T → T → nat → R.

Definition pair_loss (ref inf : list T) (permutation : list nat) : result (nat → R) :=
  terms ← mapM (λ '(s, t),
                  r ← py_getitem ref s;
                  h ← py_getitem inf t;
                  Ok (criterion r h))
               (Itertools.enumerate permutation);
  match length permutation with
  | 0 => Raise ZeroDivisionError
  | S _ => Ok (λ b, py_sum ((λ term : nat → R, term b) <$> terms)
                    / INR (length permutation))%R
  end.

Definition _permutation_loss (ref inf : list T) (perm : option (list Z))
    (use_pit : bool) : result (R * list Z) :=
  let num_spk := length ref in
  if use_pit then
    cols ← mapM (pair_loss ref inf) (Itertools.permutations (Itertools.range num_spk));
    losses ← Torch.stack_dim1 B cols;
    match perm with
    | None =>
        '(loss, perm) ← Torch.min_dim1 losses;
        m ← Torch.mean loss;
        Ok (m, perm)
    | Some perm =>
        loss ← Torch.index_rows losses perm;
        m ← Torch.mean loss;
        Ok (m, perm)
    end
  else
    loss ← pair_loss ref inf (Itertools.range num_spk);
    m ← Torch.mean (loss <$> seq 0 B);
    Ok (m, Z.of_nat <$> Itertools.range num_spk).

End Loss.

(** *** [forward]

    The steps of [forward] that only move tensors around or call other
    modules (the transform, the separation network, the loss terms) are
    collaborators, left abstract; each may raise.  What is kept is the
    order of the steps, the lookups in [kwargs] and in the predicted
    masks, and the checks. *)

Definition no_noise_reference : string :=
  "No noise reference for training!" +:+ newline +:+
  "Please specify " +:+ dquote +:+ "--use_noise_ref true" +:+ dquote +:+ " in run.sh".

Record t : Type := Build {
  num_spk : nat;
  num_noise_type : nat;
  mask_type : option string;
  loss_type : string;
  training : bool
}.

Section Forward.

Context {Tensor Spectrum MaskT Ctx Perm Stats : Type}.

(** [torch.stack(_, dim=1)] and [torch.unbind(_, dim=1)] *)
Variable stack : list Tensor → result Tensor.
Variable unbind : Tensor → list Tensor.
(** Lines 165-204: the optional references and contexts, the default
    lengths, the two shape assertions, the trimming to the longest
    utterance and the context prediction with its loss. *)
Variable batch_and_context :
  t → Tensor → option Tensor → Tensor → gmap string Tensor →
  result (Tensor * Tensor * Tensor * Ctx * R * option Perm).
Variable stft : Tensor → Spectrum.
(** Lines 219-226: the separation network, with its predicted masks. *)
Variable enh_model :
  Tensor → Ctx → Tensor → result (list Spectrum * Tensor * option (gmap string MaskT)).
(** Lines 229-266: the loss on the speech estimates. *)
Variable tf_masking_loss :
  t → Spectrum → list Spectrum → list Spectrum → option (gmap string MaskT) →
  option Perm → result (R * Perm).
(** Lines 275-293: the loss on the noise masks. *)
Variable noise_masking_loss :
  t → Spectrum → Tensor → gmap string MaskT → result R.
(** Lines 298-309: the SI-SNR of the evaluation mode. *)
Variable evaluate :
  t → list Spectrum → Tensor → list Tensor → Perm → result R.
Variable tf_stats : option R → R → Stats.
(** Lines 315-349: the waveform-domain branch. *)
Variable rawwav_loss :
  t → Tensor → Tensor → Ctx → Tensor → option Tensor → option Perm → result (R * Stats).
(** Lines 351-358: mixing in the context loss and gathering. *)
Variable finish : t → R → Stats → R → Tensor → result (R * Stats * nat).

Definition forward (self : t) (speech_mix : Tensor) (speech_mix_lengths : option Tensor)
    (kwargs : gmap string Tensor) : result (R * Stats * nat) :=
  (* clean speech signal of each speaker *)
  speech_ref ← mapM (λ spk, py_getkey kwargs ("speech_ref" +:+ pretty (spk + 1)))
                    (Itertools.range (num_spk self));
  speech_ref ← stack speech_ref;
  noise_ref ←
    (if py_in "noise_ref1" kwargs then
       noise_ref ← mapM (λ n, py_getkey kwargs ("noise_ref" +:+ pretty (n + 1)))
                        (Itertools.range (num_noise_type self));
       noise_ref ← stack noise_ref;
       Ok (Some noise_ref)
     else Ok None);
  '(speech_lengths, speech_ref, speech_mix, ctx_feed, ctx_loss, ctx_perm) ←
    batch_and_context self speech_mix speech_mix_lengths speech_ref kwargs;
  '(loss, stats) ←
    (if negb (loss_type self =? "si_snr")%string then
       let speech_ref := unbind speech_ref in
       let spectrum_ref := stft <$> speech_ref in
       let spectrum_mix := stft speech_mix in
       '(spectrum_pre, tf_length, mask_pre) ← enh_model speech_mix ctx_feed speech_lengths;
       '(tf_loss, perm) ←
         tf_masking_loss self spectrum_mix spectrum_ref spectrum_pre mask_pre ctx_perm;
       masks ←
         match mask_pre with
         | Some masks => Ok masks
         | None => Raise TypeError
         end;
       tf_loss ←
         (if py_in "noise1" masks then
            match noise_ref with
            | None => Raise (ValueError no_noise_reference)
            | Some noise_ref =>
                tf_noise_loss ← noise_masking_loss self spectrum_mix noise_ref masks;
                Ok (tf_loss + tf_noise_loss)%R
            end
          else Ok tf_loss);
       si_snr ←
         (if training self then Ok None
          else si_snr ← evaluate self spectrum_pre speech_lengths speech_ref perm;
               Ok (Some si_snr));
       Ok (tf_loss, tf_stats si_snr tf_loss)
     else
       rawwav_loss self speech_ref speech_mix ctx_feed speech_lengths noise_ref ctx_perm);
  finish self loss stats ctx_loss speech_mix.

End Forward.

End ESPnetEnhancementModel.

(** ** The front-end model: the same loss without the [use_pit] switch *)

Module ESPnetFrontendModel.

Section MaskLabels.
Import TorchComplex MaskLabel.
Context {I : Type}.

Definition mask_types : list string := ["IBM"; "IRM"; "IAM"; "PSM"; "NPSM"; "ICM"].

Definition _create_mask_label (mix_spec : I → complex) (ref_spec : list (I → complex))
    (mask_type : string) : result (list (mask I)) :=
  if negb (bool_decide (mask_type ∈ mask_types)) then Raise AssertionError
  else
    label_loop (λ mask_label r,
      match common_label mix_spec ref_spec mask_type mask_label r with
      | Some mask => Ok mask
      | None =>
          if (mask_type =? "ICM")%string then
            Ok (ComplexMask (λ i,
              z ← cdiv (r i) (cadd_real (mix_spec i) eps);
              Some (clamp (-1) 1 z.1, clamp (-1) 1 z.2)))
          else Raise AssertionError
      end) ref_spec [].

End MaskLabels.

Section Loss.

Context {T : Type}.
Variable B : nat.
Variable criterion : T → T → nat → R.

Definition pair_loss (ref inf : list T) (permutation : list nat) : result (nat → R) :=
  terms ← mapM (λ '(s, t),
                  r ← py_getitem ref s;
                  h ← py_getitem inf t;
                  Ok (criterion r h))
               (Itertools.enumerate permutation);
  match length permutation with
  | 0 => Raise ZeroDivisionError
  | S _ => Ok (λ b, py_sum ((λ term : nat → R, term b) <$> terms)
                    / INR (length permutation))%R
  end.

Definition _permutation_loss (ref inf : list T) (perm : option (list Z))
    : result (R * list Z) :=
  let num_spk := length ref in
  cols ← mapM (pair_loss ref inf) (Itertools.permutations (Itertools.range num_spk));
  losses ← Torch.stack_dim1 B cols;
  match perm with
  | None =>
      '(loss, perm) ← Torch.min_dim1 losses;
      m ← Torch.mean loss;
      Ok (m, perm)
  | Some perm =>
      loss ← Torch.index_rows losses perm;
      m ← Torch.mean loss;
      Ok (m, perm)
  end.

End Loss.

(** *** [forward], with the same conventions as for the enhancement
    model. *)

Definition no_noise_reference : string :=
  "No noise reference for training!" +:+ newline +:+
  "Please specify " +:+ dquote +:+ "--use_noise_ref true" +:+ dquote +:+ " in run.sh".

Definition no_dereverb_reference : string :=
  "No dereverberated reference for training!" +:+ newline +:+
  "Please specify " +:+ dquote +:+ "--use_dereverb_ref true" +:+ dquote +:+ " in run.sh".

Record t : Type := Build {
  num_spk : nat;
  num_noise_type : nat;
  mask_type : string;
  tf_factor : R
}.

Section Forward.

Context {Tensor Spectrum MaskT Label Perm Stats : Type}.

Variable stack : list Tensor → result Tensor.
Variable unbind : Tensor → list Tensor.
(** Lines 116-134: the shape assertions and the trimming. *)
Variable check_batch : Tensor → Tensor → Tensor → result (Tensor * Tensor).
Variable stft : Tensor → Spectrum.
(** [self._create_mask_label] on the spectra of one call. *)
Variable create_mask_label : Spectrum → list Spectrum → string → result (list Label).
(** Lines 174-176: the front end, with its predicted masks. *)
Variable frontend :
  Tensor → Tensor → result (list Spectrum * Tensor * option (gmap string MaskT)).
(** Lines 183-187 and 195-197: the two losses on the speech estimates. *)
Variable magnitude_loss : list Spectrum → list Spectrum → result (R * Perm).
Variable mask_loss : list Label → list MaskT → result (R * Perm).
(** Lines 205-210 and 218-225: the dereverberation and noise terms. *)
Variable dereverb_loss : Label → MaskT → result R.
Variable noise_loss : list Label → list MaskT → result R.
(** Lines 227-251 and 254-269: the waveform losses and the statistics. *)
Variable time_domain :
  t → R → Perm → list Spectrum → Tensor → list Tensor → result (R * Stats).
Variable rawwav_loss : t → Tensor → Tensor → Tensor → result (R * Stats).
Variable gather : R → Stats → Tensor → result (R * Stats * nat).

Definition forward (self : t) (speech_mix speech_mix_lengths : Tensor)
    (kwargs : gmap string Tensor) : result (R * Stats * nat) :=
  speech_ref ← mapM (λ spk, py_getkey kwargs ("speech_ref" +:+ pretty (spk + 1)))
                    (Itertools.range (num_spk self));
  speech_ref ← stack speech_ref;
  noise_ref ←
    (if py_in "noise_ref1" kwargs then
       noise_ref ← mapM (λ n, py_getkey kwargs ("noise_ref" +:+ pretty (n + 1)))
                        (Itertools.range (num_noise_type self));
       noise_ref ← stack noise_ref;
       Ok (Some noise_ref)
     else Ok None);
  let dereverb_speech_ref := kwargs !! "dereverb_ref" in
  let speech_lengths := speech_mix_lengths in
  '(speech_ref, speech_mix) ← check_batch speech_mix speech_ref speech_lengths;
  '(loss, stats) ←
    (if Rlt_dec 0 (tf_factor self) then
       let speech_ref := unbind speech_ref in
       let spectrum_ref := stft <$> speech_ref in
       let spectrum_mix := stft speech_mix in
       mask_ref ← create_mask_label spectrum_mix spectrum_ref (mask_type self);
       dereverb_mask_ref ←
         match dereverb_speech_ref with
         | Some d =>
             labels ← create_mask_label spectrum_mix [stft d] (mask_type self);
             label ← py_getitem labels 0;
             Ok (Some label)
         | None => Ok None
         end;
       noise_mask_ref ←
         match noise_ref with
         | Some n =>
             labels ← create_mask_label spectrum_mix (stft <$> unbind n) (mask_type self);
             Ok (Some labels)
         | None => Ok None
         end;
       '(spectrum_pre, tf_length, mask_pre) ← frontend speech_mix speech_lengths;
       '(tf_loss, perm) ←
         match mask_pre with
         | None => magnitude_loss spectrum_ref spectrum_pre
         | Some masks =>
             mask_pre_ ← mapM (λ spk, py_getkey masks ("spk" +:+ pretty (spk + 1)))
                              (Itertools.range (num_spk self));
             '(tf_loss, perm) ← mask_loss mask_ref mask_pre_;
             tf_loss ←
               (if py_in "dereverb" masks then
                  match dereverb_mask_ref with
                  | None => Raise (ValueError no_dereverb_reference)
                  | Some label =>
                      m ← py_getkey masks "dereverb";
                      l ← dereverb_loss label m;
                      Ok (tf_loss + l)%R
                  end
                else Ok tf_loss);
             tf_loss ←
               (if py_in "noise1" masks then
                  match noise_mask_ref with
                  | None => Raise (ValueError no_noise_reference)
                  | Some labels =>
                      mask_noise_pre ←
                        mapM (λ n, py_getkey masks ("noise" +:+ pretty (n + 1)))
                             (Itertools.range (num_noise_type self));
                      l ← noise_loss labels mask_noise_pre;
                      Ok (tf_loss + l)%R
                  end
                else Ok tf_loss);
             Ok (tf_loss, perm)
         end;
       time_domain self tf_loss perm spectrum_pre speech_lengths speech_ref
     else rawwav_loss self speech_ref speech_mix speech_lengths);
  gather loss stats speech_mix.

End Forward.

End ESPnetFrontendModel.

(** ** The mask-based beamformer *)

Module AttentionReference.
Import TorchComplex.

(** A complex tensor with four axes: its [size()] and its entries. *)
Record tensor4 : Type := Tensor4 {
  shape : nat * nat * nat * nat;
  entry : nat → nat → nat → nat → complex
}.

(** [z.sum(dim=-1)] of complex entries sums both parts. *)
Definition csum (zs : list complex) : complex :=
  (py_sum zs.*1, py_sum zs.*2).

(** [z / n] for a Python int [n].  The tensor division does not raise
    on [n = 0]; it yields nan or inf.  In [forward] the divisor is zero
    only for one channel, where the masked row sum is exactly zero, so
    the quotient is nan and every later value is nan too. *)
Definition div_count (z : complex) (n : Z) : result complex :=
  if bool_decide (n = 0%Z) then NonFinite else Ok (cdiv_real z (IZR n)).

(** [F.softmax(xs, dim=-1)] on one row. *)
Definition softmax (xs : list R) : list R :=
  let total := foldr Rplus 0%R (exp <$> xs) in
  (λ x, exp x / total)%R <$> xs.

Section Forward.

(** The two learned layers: [mlp_psd] maps the [F] features of one
    channel to [att_dim] values, [gvec] maps those to one score. *)
Variable mlp_psd : list R → list R.
Variable gvec : list R → R.

Definition forward (psd_in : tensor4) (scaling : R) : result (list (list R)) :=
  let '(B, F, C, C') := shape psd_in in
  if negb (bool_decide (C = C')) then Raise AssertionError
  else
    (* masked_fill with the identity: the diagonal becomes 0 *)
    let psd b f c e : complex :=
      if bool_decide (c = e) then (0%R, 0%R) else entry psd_in b f c e in
    mapM (λ b,
      e ← mapM (λ c,
        psd_feat ← mapM (λ f,
          q ← div_count (csum (psd b f c <$> seq 0 C)) (Z.of_nat C - 1);
          Ok (sqrt (q.1 ^ 2 + q.2 ^ 2))) (seq 0 F);
        Ok (gvec (tanh <$> mlp_psd psd_feat))) (seq 0 C);
      Ok (softmax ((λ x, scaling * x)%R <$> e))) (seq 0 B).

End Forward.
End AttentionReference.

Module DNN_Beamformer.
Import TorchComplex AttentionReference.

Record t : Type := Build {
  nmask : Z;
  ref_channel : Z;
  beamformer_type : string;
  eps : R;
  btaps : Z;
  bdelay : Z
}.

Definition supported : list string := ["mvdr"; "mpdr"; "wpd"].

Definition not_supporting (beamformer_type : string) : exn :=
  ValueError ("Not supporting beamformer_type=" +:+ beamformer_type).

(** [__init__]: the mask estimator and the attention module are built
    first from the layer sizes (not modelled: learned collaborators),
    then the beamformer type is checked. *)
Definition __init__ (bnmask ref_channel : Z) (beamformer_type : string)
    (eps : R) (btaps bdelay : Z) : result t :=
  if negb (bool_decide (beamformer_type ∈ supported)) then
    Raise (not_supporting beamformer_type)
  else
    Ok {| nmask := bnmask; ref_channel := ref_channel;
          beamformer_type := beamformer_type; eps := eps;
          btaps := btaps; bdelay := bdelay |}.

Definition tadd (p q : tensor4) : tensor4 :=
  {| shape := shape p;
     entry := λ b f c e, cadd (entry p b f c e) (entry q b f c e) |}.

(** [sum(xs) + psd_n]: Python's [sum] starts from the int 0, and
    [0 + x] is [x]. *)
Definition sum_plus (xs : list tensor4) (psd_n : tensor4) : tensor4 :=
  match xs with
  | [] => psd_n
  | x :: xs' => tadd (fold_left tadd xs' x) psd_n
  end.

(** The interference statistic of the multi-speaker branch: one tensor
    for mvdr and mpdr, a list with one covariance per speaker for wpd. *)
Inductive noise_stat : Type :=
| OneTensor (p : tensor4)
| PerSpeaker (ps : list tensor4).

Inductive enhanced_out (Enhanced : Type) : Type :=
| One (e : Enhanced)
| Many (es : list Enhanced).

Arguments One {Enhanced} e.
Arguments Many {Enhanced} es.

Section Forward.

Context {Data Ilens Mask Power Filter Enhanced : Type}.

(** The learned layers of [self.ref] and the mask estimator [self.mask]. *)
Variable mlp_psd : list R → list R.
Variable gvec : list R → R.
Variable mask_estimator : Data → Ilens → list Mask.

(** Tensor operations of the collaborating modules, left abstract. *)
Variable size : Data → nat * nat * nat * nat.
Variable permute_0321 : Data → Data.
Variable get_power_spectral_density_matrix : Data → Mask → tensor4.
Variable einsum_ct_et : Data → tensor4.
Variable power : Data → Power.
Variable pmul : Power → Mask → Power.
Variable channel_mean : Power → Power.
Variable reciprocal_clamp_min : Power → R → Power.
Variable get_covariances : Data → Power → Z → Z → tensor4.
Variable get_mvdr_vector : tensor4 → tensor4 → list (list R) → Filter.
Variable apply_beamforming_vector : Filter → Data → Enhanced.
Variable get_WPD_filter_v2 : tensor4 → tensor4 → list (list R) → Filter.
Variable perform_WPD_filtering : Filter → Data → Z → Z → Enhanced.
Variable transpose : Enhanced → Enhanced.

(** The reference vector [u] of [apply_beamforming], of shape (B, C). *)
Definition reference_vector (self : t) (data : Data) (psd_speech : tensor4)
    : result (list (list R)) :=
  if bool_decide (ref_channel self < 0)%Z then
    AttentionReference.forward mlp_psd gvec psd_speech 2
  else
    let '(B, _, C, _) := size data in
    k ← Torch.wrap_index C (ref_channel self);
    Ok (replicate B (<[k := 1%R]> (replicate C 0%R))).

Definition apply_beamforming (self : t) (data : Data) (psd_speech psd_n : tensor4)
    (beamformer_type : string) : result (Enhanced * Filter) :=
  u ← reference_vector self data psd_speech;
  if (beamformer_type =? "mpdr")%string || (beamformer_type =? "mvdr")%string then
    let ws := get_mvdr_vector psd_speech psd_n u in
    Ok (apply_beamforming_vector ws data, ws)
  else if (beamformer_type =? "wpd")%string then
    let ws := get_WPD_filter_v2 psd_speech psd_n u in
    Ok (perform_WPD_filtering ws data (bdelay self) (btaps self), ws)
  else Raise (not_supporting beamformer_type).

(** [1 / torch.clamp((power * mask).mean(dim=-2), min=self.eps)] *)
Definition inverse_power (self : t) (data : Data) (mask : Mask) : Power :=
  reciprocal_clamp_min (channel_mean (pmul (power data) mask)) (eps self).

Definition wpd_covariance (self : t) (data : Data) (mask : Mask) : tensor4 :=
  get_covariances data (inverse_power self data mask) (bdelay self) (btaps self).

(** The body of [for i in range(self.nmask - 1)]: [psd_speeches] is
    popped before the call and restored after it.  The result carries
    the restored list. *)
Definition speaker_step (self : t) (data : Data) (psd_n : noise_stat)
    (psd_speeches : list tensor4) (i : nat)
    : result (Enhanced * Filter * list tensor4) :=
  '(psd_speech, others) ← py_pop psd_speeches i;
  (* treat all other speakers' psd_speech as noises *)
  '(enh, w) ←
    (if (beamformer_type self =? "mvdr")%string then
       match psd_n with
       | OneTensor n =>
           apply_beamforming self data psd_speech (sum_plus others n)
                             (beamformer_type self)
       | PerSpeaker _ => Raise TypeError
       end
     else if (beamformer_type self =? "mpdr")%string then
       match psd_n with
       | OneTensor n =>
           apply_beamforming self data psd_speech n (beamformer_type self)
       | PerSpeaker _ => Raise TypeError
       end
     else if (beamformer_type self =? "wpd")%string then
       match psd_n with
       | PerSpeaker ns =>
           n ← py_getitem ns i;
           apply_beamforming self data psd_speech n (beamformer_type self)
       | OneTensor _ => Raise TypeError
       end
     else Raise (not_supporting (beamformer_type self)));
  Ok (enh, w, py_insert others i psd_speech).

Fixpoint speaker_loop (self : t) (data : Data) (psd_n : noise_stat) (todo : list nat)
    (psd_speeches : list tensor4) (enhanced : list Enhanced) (ws : list Filter)
    : result (list Enhanced * list Filter) :=
  match todo with
  | [] => Ok (enhanced, ws)
  | i :: todo' =>
      '(enh, w, psd_speeches) ← speaker_step self data psd_n psd_speeches i;
      (* (..., F, T) -> (..., T, F) *)
      speaker_loop self data psd_n todo' psd_speeches
                   (enhanced ++ [transpose enh]) (ws ++ [w])
  end.

Definition forward (self : t) (data : Data) (ilens : Ilens)
    : result (enhanced_out Enhanced * Ilens * list Mask) :=
  let data := permute_0321 data in
  let masks := mask_estimator data ilens in
  if negb (bool_decide (nmask self = Z.of_nat (length masks))) then Raise AssertionError
  else if bool_decide (nmask self = 2)%Z then
    match masks with
    | [mask_speech; mask_noise] =>
        let psd_speech := get_power_spectral_density_matrix data mask_speech in
        psd_n ←
          (if (beamformer_type self =? "mvdr")%string then
             Ok (get_power_spectral_density_matrix data mask_noise)
           else if (beamformer_type self =? "mpdr")%string then
             Ok (einsum_ct_et data)
           else if (beamformer_type self =? "wpd")%string then
             Ok (wpd_covariance self data mask_speech)
           else Raise (not_supporting (beamformer_type self)));
        '(enhanced, ws) ←
          apply_beamforming self data psd_speech psd_n (beamformer_type self);
        Ok (One (transpose enhanced), ilens, masks)
    | _ => Raise (ValueError "not enough values to unpack")
    end
  else
    let mask_speech := take (length masks - 1) masks in
    match last masks with
    | None => Raise IndexError
    | Some mask_noise =>
        let psd_speeches := get_power_spectral_density_matrix data <$> mask_speech in
        psd_n ←
          (if (beamformer_type self =? "mvdr")%string then
             Ok (OneTensor (get_power_spectral_density_matrix data mask_noise))
           else if (beamformer_type self =? "mpdr")%string then
             Ok (OneTensor (einsum_ct_et data))
           else if (beamformer_type self =? "wpd")%string then
             Ok (PerSpeaker (wpd_covariance self data <$> mask_speech))
           else Raise (not_supporting (beamformer_type self)));
        '(enhanced, ws) ←
          speaker_loop self data psd_n (Itertools.range (Z.to_nat (nmask self - 1)))
                       psd_speeches [] [];
        Ok (Many enhanced, ilens, masks)
    end.

End Forward.
End DNN_Beamformer.

(** ** What the specification says about the permutation search

    These definitions follow the words of the specification, not the
    code: an assignment is a permutation of the speaker indices, its
    aggregate distortion is the mean of the pairwise criterion, and the
    search returns the minimum over all assignments. *)

Module Spec.

(** Lexicographic order on index tuples. *)
Inductive lex_lt : list nat → list nat → Prop :=
| lex_lt_nil y ys : lex_lt [] (y :: ys)
| lex_lt_head x y xs ys : x < y → lex_lt (x :: xs) (y :: ys)
| lex_lt_tail x xs ys : lex_lt xs ys → lex_lt (x :: xs) (x :: ys).

(** [π] is a permutation of [{0..K-1}], written as the tuple
    [π(0), ..., π(K-1)]. *)
Definition is_permutation (K : nat) (π : list nat) : Prop := π ≡ₚ seq 0 K.

(** [enum] lists every permutation of [{0..K-1}] in increasing
    lexicographic order. *)
Definition lexicographic_enumeration (K : nat) (enum : list (list nat)) : Prop :=
  StronglySorted lex_lt enum ∧ ∀ π, π ∈ enum ↔ is_permutation K π.

(** The mean of a vector of per-example values. *)
Definition batch_mean (v : list R) : R := (foldr Rplus 0 v / INR (length v))%R.

(** [[l[s] for s in σ]]: the list [l] taken in the order [σ]. *)
Definition reorder {A} (σ : list nat) (l : list A) : list A := omap (l !!.) σ.

Section Distortion.

Context {T : Type}.
Variable criterion : T → T → nat → R.

(** [criterion(r, hyp_t)] at batch element [b]. *)
Definition pair_cost (inf : list T) (b : nat) (r : T) (t : nat) : R :=
  match inf !! t with
  | Some h => criterion r h b
  | None => 0%R
  end.

(** [(1/K) * sum_i criterion(ref_i, hyp_π(i))] at batch element [b]. *)
Definition aggregate_distortion (ref inf : list T) (π : list nat) (b : nat) : R :=
  (1 / INR (length ref) * foldr Rplus 0 (zip_with (pair_cost inf b) ref π))%R.

(** [m] is the minimum of the aggregate distortion over all
    permutations, at batch element [b]. *)
Definition minimum_distortion (ref inf : list T) (b : nat) (m : R) : Prop :=
  (∃ π, is_permutation (length ref) π ∧ aggregate_distortion ref inf π b = m)
  ∧ ∀ π, is_permutation (length ref) π → (m <= aggregate_distortion ref inf π b)%R.

(** The batch mean of the aggregate distortion of the identity
    assignment. *)
Definition identity_loss (B : nat) (ref inf : list T) : R :=
  batch_mean ((λ b, aggregate_distortion ref inf (seq 0 (length ref)) b) <$> seq 0 B).

(** Row [b] of the stacked losses: one aggregate distortion per
    enumerated permutation. *)
Definition loss_row (ref inf : list T) (b : nat) : list R :=
  (λ π, aggregate_distortion ref inf π b)
    <$> Itertools.permutations (Itertools.range (length ref)).

(** What [torch.min] picks on row [b]: a minimum and the index of a
    permutation that attains it. *)
Definition picked (ref inf : list T) (b : nat) (pick : R * Z) : Prop :=
  ∃ j π, pick = (aggregate_distortion ref inf π b, Z.of_nat j)
         ∧ Itertools.permutations (Itertools.range (length ref)) !! j = Some π
         ∧ minimum_distortion ref inf b (aggregate_distortion ref inf π b).

(** What indexing row [b] of the stacked losses with [j] reads. *)
Definition read (ref inf : list T) (bj : nat * Z) (v : R) : Prop :=
  ∃ π, Itertools.permutations (Itertools.range (length ref))
         !! Z.to_nat (bj.2 `mod` Z.of_nat (fact (length ref))) = Some π
       ∧ v = aggregate_distortion ref inf π bj.1.

End Distortion.
End Spec.

(** ** What the specification says about the phase-sensitive mask *)

Module SpecMask.
Import TorchComplex MaskLabel.

(** The phase-sensitive mask of reference [r] before any clamping:
    [|r| / (|mix| + eps) * cos(theta)]. *)
Definition phase_sensitive_mask {I : Type} (mix_spec r : I → complex) (i : I) : R :=
  (cabs (r i) / (cabs (mix_spec i) + eps) * cos_theta mix_spec r i)%R.

End SpecMask.

(** ** The attention scores in closed form *)

Module SpecAttention.
Import TorchComplex AttentionReference.

Section Scores.
Variable mlp_psd : list R → list R.
Variable gvec : list R → R.

(** The PSD with its diagonal set to zero. *)
Definition off_diagonal (psd_in : tensor4) (b f c e : nat) : complex :=
  if bool_decide (c = e) then (0%R, 0%R) else entry psd_in b f c e.

(** The amplitude of the mean off-diagonal entry of row [c]. *)
Definition row_feature (psd_in : tensor4) (C : nat) (b c f : nat) : R :=
  let q := cdiv_real (csum (off_diagonal psd_in b f c <$> seq 0 C)) (IZR (Z.of_nat C - 1)) in
  sqrt (q.1 ^ 2 + q.2 ^ 2).

(** The score of channel [c] in batch element [b]. *)
Definition score (psd_in : tensor4) (F C : nat) (b c : nat) : R :=
  gvec (tanh <$> mlp_psd (row_feature psd_in C b c <$> seq 0 F)).

(** The softmax over channels of the scaled scores. *)
Definition attention (psd_in : tensor4) (scaling : R) (F C : nat) (b : nat) : list R :=
  softmax ((λ x, scaling * x)%R <$> (score psd_in F C b <$> seq 0 C)).

End Scores.

(** A row of weights: non-negative, summing to 1, one per channel. *)
Definition normalised (C : nat) (row : list R) : Prop :=
  length row = C ∧ Forall (λ x, 0 <= x)%R row ∧ foldr Rplus 0%R row = 1%R.

(** The one-hot row for channel [k]. *)
Definition one_hot (C k : nat) : list R :=
  (λ c, if bool_decide (c = k) then 1%R else 0%R) <$> seq 0 C.

End SpecAttention.

(** ** The covariances the filter of one speaker is designed from *)

Module SpecDesign.
Import TorchComplex AttentionReference DNN_Beamformer.

(** A result other than the unsupported-type error of the beamformer. *)
Definition supported_path {A} (r : result A) : Prop :=
  ∀ s, r ≠ Raise (not_supporting s).

(** The entry the specification gives the interference covariance of speaker
    [i]: the sum over the other speakers' PSDs plus the noise PSD. *)
Definition others_plus_noise (psd_speeches : list tensor4) (noise : tensor4)
    (i : nat) (b f c e : nat) : complex :=
  cadd (foldr cadd (0%R, 0%R) ((λ p, entry p b f c e) <$> delete i psd_speeches))
       (entry noise b f c e).

Section Design.

Context {Data Mask Power Filter Enhanced : Type}.
Variable mlp_psd : list R → list R.
Variable gvec : list R → R.
Variable size : Data → nat * nat * nat * nat.
Variable get_power_spectral_density_matrix : Data → Mask → tensor4.
Variable einsum_ct_et : Data → tensor4.
Variable power : Data → Power.
Variable pmul : Power → Mask → Power.
Variable channel_mean : Power → Power.
Variable reciprocal_clamp_min : Power → R → Power.
Variable get_covariances : Data → Power → Z → Z → tensor4.
Variable get_mvdr_vector : tensor4 → tensor4 → list (list R) → Filter.
Variable apply_beamforming_vector : Filter → Data → Enhanced.
Variable get_WPD_filter_v2 : tensor4 → tensor4 → list (list R) → Filter.
Variable perform_WPD_filtering : Filter → Data → Z → Z → Enhanced.

(** The interference covariance by beamformer type: for mvdr the other
    speakers' PSDs summed with the PSD of the noise mask, for mpdr the
    covariance of the observed signal, for wpd the power-weighted
    covariance of the speaker's own mask. *)
Definition interference (self : t) (data : Data) (mask_speech : list Mask)
    (mask_noise : Mask) (i : nat) (mask_i : Mask) : tensor4 :=
  if (beamformer_type self =? "mvdr")%string then
    sum_plus (delete i (get_power_spectral_density_matrix data <$> mask_speech))
             (get_power_spectral_density_matrix data mask_noise)
  else if (beamformer_type self =? "mpdr")%string then
    einsum_ct_et data
  else
    wpd_covariance power pmul channel_mean reciprocal_clamp_min get_covariances
                   self data mask_i.

(** The statistic [psd_n] of the multi-speaker branch, for a supported
    type. *)
Definition multi_noise_stat (self : t) (data : Data) (mask_speech : list Mask)
    (mask_noise : Mask) : noise_stat :=
  if (beamformer_type self =? "mvdr")%string then
    OneTensor (get_power_spectral_density_matrix data mask_noise)
  else if (beamformer_type self =? "mpdr")%string then OneTensor (einsum_ct_et data)
  else PerSpeaker
         (wpd_covariance power pmul channel_mean reciprocal_clamp_min get_covariances
                         self data <$> mask_speech).

(** The call of [apply_beamforming] made for speaker [i]. *)
Definition design (self : t) (data : Data) (mask_speech : list Mask) (mask_noise : Mask)
    (i : nat) : result (Enhanced * Filter) :=
  mask_i ← py_getitem mask_speech i;
  apply_beamforming mlp_psd gvec size get_mvdr_vector apply_beamforming_vector
    get_WPD_filter_v2 perform_WPD_filtering
    self data (get_power_spectral_density_matrix data mask_i)
    (interference self data mask_speech mask_noise i mask_i) (beamformer_type self).

End Design.

(** *** A toy instance: one bin, one channel.  A mask is the value of
    its PSD entry, the observed covariance has entry 7, every weighted
    covariance entry 11; the designed filter is the interference
    covariance it was given, and applying it returns it. *)

Definition toy_psd (value : R) : tensor4 :=
  Tensor4 (1, 1, 1, 1) (λ _ _ _ _, (value, 0%R)).

Definition toy_forward (self : t) : result (enhanced_out tensor4 * unit * list R) :=
  forward (Data := unit) (Ilens := unit) (Mask := R) (Power := unit)
    (λ x, x) (λ _, 0%R) (λ _ _, [1%R; 2%R; 3%R]) (λ _, (1, 1, 1, 1)) (λ d, d)
    (λ _ m, toy_psd m) (λ _, toy_psd 7) (λ _, ()) (λ _ _, ()) (λ p, p) (λ p _, p)
    (λ _ _ _ _, toy_psd 11) (λ _ psd_n _, psd_n) (λ ws _, ws)
    (λ _ psd_n _, psd_n) (λ ws _ _ _, ws) (λ e, e)
    self () ().

End SpecDesign.

(** ** The tie-break of the permutation search *)

Module SpecTieBreak.

Section Pick.
Context {T : Type}.
Variable criterion : T → T → nat → R.

(** What [torch.min] picks on row [b], with its tie-break: the minimum
    of the row, at the first position that holds it. *)
Definition first_pick (ref inf : list T) (b : nat) (pick : R * Z) : Prop :=
  ∃ j, pick.2 = Z.of_nat j
       ∧ Spec.loss_row criterion ref inf b !! j = Some pick.1
       ∧ (∀ x, x ∈ Spec.loss_row criterion ref inf b → (pick.1 <= x)%R)
       ∧ ∀ j' x, j' < j → Spec.loss_row criterion ref inf b !! j' = Some x → (pick.1 < x)%R.

End Pick.
End SpecTieBreak.

(** ** Substring tests *)

(** [sub in s] for two strings. *)
Fixpoint py_contains (sub s : string) : bool :=
  String.prefix sub s
  || match s with
     | EmptyString => false
     | String _ s' => py_contains sub s'
     end.

(** ** Ranges of the mask labels *)

Module SpecLabels.
Import TorchComplex MaskLabel.

(** Every value of the label lies in [-1, 1]; for a complex label, both
    parts do wherever the label is defined. *)
Definition bounded {I : Type} (label : mask I) : Prop :=
  match label with
  | RealMask m => ∀ i, (-1 <= m i <= 1)%R
  | ComplexMask m => ∀ i z, m i = Some z → (-1 <= z.1 <= 1)%R ∧ (-1 <= z.2 <= 1)%R
  end.

Section Closed.
Context {I : Type}.

(** The labels of each mask type, one per reference. *)
Definition ibm_label (ref_spec : list (I → complex)) (r : I → complex) : mask I :=
  RealMask (λ i,
    if forallb (λ n : I → complex, if Rge_dec (cabs (r i)) (cabs (n i)) then true else false)
               ref_spec
    then 1%R else 0%R).

Definition irm_label (ref_spec : list (I → complex)) (r : I → complex) : mask I :=
  RealMask (λ i,
    cabs (r i) / (py_sum ((λ n : I → complex, cabs (n i)) <$> ref_spec) + MaskLabel.eps))%R.

Definition iam_label (mix_spec r : I → complex) : mask I :=
  RealMask (λ i, clamp 0 1 (cabs (r i) / (cabs (mix_spec i) + MaskLabel.eps))%R).

Definition psm_label (mix_spec r : I → complex) : mask I :=
  RealMask (λ i, clamp (-1) 1 (SpecMask.phase_sensitive_mask mix_spec r i)).

Definition psm2_label (mix_spec r : I → complex) : mask I :=
  RealMask (λ i,
    clamp (-1) 1 (cabs (r i) ^ 2 / (cabs (mix_spec i) ^ 2 + MaskLabel.eps)
                  * cos_theta mix_spec r i)%R).

Definition icm_label (mix_spec r : I → complex) : mask I :=
  ComplexMask (λ i,
    z ← cdiv (r i) (cadd_real (mix_spec i) MaskLabel.eps);
    Some (clamp (-1) 1 z.1, clamp (-1) 1 z.2)).

End Closed.

End SpecLabels.

(** ** Construction of the enhancement model and its choice of loss *)

Module EnhancementSetup.

(** The attributes [__init__] reads off the separation network;
    [None] where [getattr] falls back to its default. *)
Record network : Type := Network {
  net_num_spk : nat;
  net_num_noise_type : option nat;
  net_mask_type : option string;
  net_loss_type : option string;
  net_ref_channel : option Z
}.

Definition loss_types : list string :=
  ["mask_mse"; "magnitude"; "magnitude_l1"; "spectrum"; "spectrum_l1"; "si_snr"].

Record model : Type := Model {
  config : ESPnetEnhancementModel.t;
  ref_channel : Z;
  use_pit : bool;
  ctx_mode : option string;
  ctx_factor : R
}.

(** [__init__]: a module starts in training mode. *)
Definition __init__ (enh_model : network) (use_pit : bool) (ctx_mode : option string)
    (ctx_factor : R) : result model :=
  let num_noise_type := default 1 (net_num_noise_type enh_model) in
  match net_loss_type enh_model with
  | Some loss_type =>
      if negb (bool_decide (loss_type ∈ loss_types)) then Raise AssertionError
      else
        Ok {| config :=
                {| ESPnetEnhancementModel.num_spk := net_num_spk enh_model;
                   ESPnetEnhancementModel.num_noise_type := num_noise_type;
                   ESPnetEnhancementModel.mask_type := net_mask_type enh_model;
                   ESPnetEnhancementModel.loss_type := loss_type;
                   ESPnetEnhancementModel.training := true |};
              ref_channel := default (-1)%Z (net_ref_channel enh_model);
              use_pit := use_pit; ctx_mode := ctx_mode; ctx_factor := ctx_factor |}
  | None => Raise AssertionError
  end.

Inductive loss_func : Type := tf_mse | tf_l1.

(** What the time-frequency loss of [forward] compares, and with which
    criterion. *)
Inductive tf_target : Type :=
| Magnitude (criterion : loss_func) (psm : bool)
| Spectrum (criterion : loss_func)
| MaskLabels.

Definition unsupported_loss_type (loss_type : string) : exn :=
  ValueError ("Unsupported loss type: " +:+ loss_type).

(** [tf_l1_loss if '_l1' in self.mask_type else tf_mse_loss]; the test
    raises TypeError on [None]. *)
Definition choose_loss_func (mask_type : option string) : result loss_func :=
  match mask_type with
  | Some m => Ok (if py_contains "_l1" m then tf_l1 else tf_mse)
  | None => Raise TypeError
  end.

(** The branches on [self.loss_type] of lines 229-266. *)
Definition tf_loss_target (loss_type : string) (mask_type : option string)
    : result tf_target :=
  if (loss_type =? "magnitude")%string || (loss_type =? "magnitude_l1")%string then
    criterion ← choose_loss_func mask_type;
    psm ← match mask_type with
          | Some m => Ok (py_contains "PSM" m)
          | None => Raise TypeError
          end;
    Ok (Magnitude criterion psm)
  else if (loss_type =? "spectrum")%string || (loss_type =? "spectrum_l1")%string then
    criterion ← choose_loss_func mask_type;
    Ok (Spectrum criterion)
  else if String.prefix "mask" loss_type then
    if (loss_type =? "mask_mse")%string then Ok MaskLabels
    else Raise (unsupported_loss_type loss_type)
  else Raise (unsupported_loss_type loss_type).

End EnhancementSetup.

(** ** The toy beamformer with a chosen list of masks *)

Module SpecDesignToy.
Import AttentionReference DNN_Beamformer SpecDesign.

(** The toy instance of [SpecDesign], with the masks the estimator
    returns left open. *)
Definition toy_forward_with (masks : list R) (self : t)
    : result (enhanced_out tensor4 * unit * list R) :=
  forward (Data := unit) (Ilens := unit) (Mask := R) (Power := unit)
    (λ x, x) (λ _, 0%R) (λ _ _, masks) (λ _, (1, 1, 1, 1)) (λ d, d)
    (λ _ m, toy_psd m) (λ _, toy_psd 7) (λ _, ()) (λ _ _, ()) (λ p, p) (λ p _, p)
    (λ _ _ _ _, toy_psd 11) (λ _ psd_n _, psd_n) (λ ws _, ws)
    (λ _ psd_n _, psd_n) (λ ws _ _ _, ws) (λ e, e)
    self () ().

(** One iteration of the speaker loop in the toy instance. *)
Definition toy_speaker_step (self : t) (psd_n : noise_stat) (psd_speeches : list tensor4)
    (i : nat) : result (tensor4 * tensor4 * list tensor4) :=
  speaker_step (Data := unit) (Filter := tensor4) (Enhanced := tensor4)
    (λ x, x) (λ _, 0%R) (λ _, (1, 1, 1, 1))
    (λ _ psd_n _, psd_n) (λ ws _, ws) (λ _ psd_n _, psd_n) (λ ws _ _ _, ws)
    self () psd_n psd_speeches i.

(** [apply_beamforming] in the toy instance, with [C] channels. *)
Definition toy_apply_beamforming (C : nat) (self : t) (psd_speech psd_n : tensor4)
    (beamformer_type : string) : result (tensor4 * tensor4) :=
  apply_beamforming (Data := unit) (Filter := tensor4) (Enhanced := tensor4)
    (λ x, x) (λ _, 0%R) (λ _, (1, 1, C, 1))
    (λ _ psd_n _, psd_n) (λ ws _, ws) (λ _ psd_n _, psd_n) (λ ws _ _ _, ws)
    self () psd_speech psd_n beamformer_type.

End SpecDesignToy.

(** ** Tensors with their sizes

    A tensor is its [size()] and its entries by index tuple.  A
    reduction over no element and a division by zero give nan or inf, an
    outcome [NonFinite] of the entry concerned. *)

Module TorchTensor.
Import TorchComplex.

Record tensor (A : Type) : Type := Tensor {
  size : list nat;
  item : list nat → A
}.

Arguments Tensor {A} size item.
Arguments size {A} t.
Arguments item {A} t idx.

(** [t.dim()] *)
Definition dim {A} (t : tensor A) : nat := length (size t).

(** Broadcasting of two sizes, aligned at the last axis: along each
    axis the sizes agree or one of them is 1. *)
Definition broadcast_axis (m n : nat) : option nat :=
  if bool_decide (m = n) then Some m
  else if bool_decide (m = 1) then Some n
  else if bool_decide (n = 1) then Some m
  else None.

Fixpoint broadcast_rev (s1 s2 : list nat) : option (list nat) :=
  match s1, s2 with
  | [], s => Some s
  | s, [] => Some s
  | m :: s1', n :: s2' =>
      d ← broadcast_axis m n;
      s ← broadcast_rev s1' s2';
      Some (d :: s)
  end.

Definition broadcast (s1 s2 : list nat) : option (list nat) :=
  reverse <$> broadcast_rev (reverse s1) (reverse s2).

(** The index into an operand of size [s] for the index [idx] of the
    broadcast result. *)
Definition expand (s : list nat) (idx : list nat) : list nat :=
  zip_with (λ d i, if bool_decide (d = 1) then 0 else i) s (drop (length idx - length s) idx).

(** An elementwise binary operation. *)
Definition zip_tensors {A B C} (f : A → B → C) (x : tensor A) (y : tensor B)
    : result (tensor C) :=
  match broadcast (size x) (size y) with
  | Some s =>
      Ok {| size := s;
            item := λ idx, f (item x (expand (size x) idx)) (item y (expand (size y) idx)) |}
  | None => Raise RuntimeError
  end.

Definition map_tensor {A B} (f : A → B) (x : tensor A) : tensor B :=
  {| size := size x; item := λ idx, f (item x idx) |}.

(** All index tuples of a size, last axis fastest. *)
Fixpoint indices (s : list nat) : list (list nat) :=
  match s with
  | [] => [[]]
  | d :: s' => i ← seq 0 d; cons i <$> indices s'
  end.

(** [torch.sum] of a list of entries. *)
Definition sum (xs : list R) : R := foldr Rplus 0%R xs.

(** [x.mean(dim=[1, ..., x.dim() - 1])]: the mean over every axis but
    the first; nan where there is nothing to average. *)
Definition mean_tail (x : tensor R) : result (list R) :=
  match size x with
  | [] => Raise IndexError
  | B :: tail =>
      mapM (λ b,
        let entries := (λ idx, item x (b :: idx)) <$> indices tail in
        match entries with
        | [] => NonFinite
        | _ => Ok (sum entries / INR (length entries))%R
        end) (seq 0 B)
  end.

(** A [torch.Tensor] or a [ComplexTensor]. *)
Inductive value : Type :=
| RealTensor (t : tensor R)
| ComplexTensor (t : tensor complex).

Definition value_dim (v : value) : nat :=
  match v with
  | RealTensor t => dim t
  | ComplexTensor t => dim t
  end.

Definition value_size (v : value) : list nat :=
  match v with
  | RealTensor t => size t
  | ComplexTensor t => size t
  end.

Definition isinstance_ComplexTensor (v : value) : bool :=
  match v with
  | RealTensor _ => false
  | ComplexTensor _ => true
  end.

(** [x - y]: real parts subtract; the imaginary part of a real operand
    is zero. *)
Definition sub (x y : value) : result value :=
  match x, y with
  | RealTensor a, RealTensor b =>
      d ← zip_tensors Rminus a b; Ok (RealTensor d)
  | RealTensor a, ComplexTensor b =>
      d ← zip_tensors (λ u w, ((u - w.1)%R, (- w.2)%R)) a b; Ok (ComplexTensor d)
  | ComplexTensor a, RealTensor b =>
      d ← zip_tensors (λ z u, ((z.1 - u)%R, z.2)) a b; Ok (ComplexTensor d)
  | ComplexTensor a, ComplexTensor b =>
      d ← zip_tensors (λ z w, ((z.1 - w.1)%R, (z.2 - w.2)%R)) a b; Ok (ComplexTensor d)
  end.

(** [x + c] for a Python number [c]. *)
Definition add_scalar (x : value) (c : R) : value :=
  match x with
  | RealTensor a => RealTensor (map_tensor (λ u, u + c)%R a)
  | ComplexTensor a => ComplexTensor (map_tensor (λ z, cadd_real z c) a)
  end.

(** [abs(x)] *)
Definition abs (x : value) : tensor R :=
  match x with
  | RealTensor a => map_tensor Rabs a
  | ComplexTensor a => map_tensor cabs a
  end.

(** A division of floats: by zero it gives inf or nan. *)
Definition fdiv (x y : R) : result R :=
  if Req_EM_T y 0 then NonFinite else Ok (x / y)%R.

(** [torch.log10]: minus infinity at 0, nan below. *)
Definition log10 (x : R) : result R :=
  if Rlt_dec 0 x then Ok (ln x / ln 10)%R else NonFinite.

(** The length of [xs[:stop]] for a sequence of length [n]. *)
Definition slice_stop (n : nat) (stop : Z) : nat :=
  if bool_decide (stop < 0)%Z then Z.to_nat (Z.max 0 (Z.of_nat n + stop))
  else Z.to_nat (Z.min stop (Z.of_nat n)).

(** [x[:, :stop]] *)
Definition slice_axis1 {A} (x : tensor A) (stop : Z) : result (tensor A) :=
  match size x with
  | B :: T :: rest => Ok {| size := B :: slice_stop T stop :: rest; item := item x |}
  | _ => Raise IndexError
  end.

(** [lengths.max()] of an integer tensor, given by its entries: an
    error on the empty tensor. *)
Definition max_all (lengths : list Z) : result Z :=
  match lengths with
  | [] => Raise RuntimeError
  | l :: ls => Ok (foldr Z.max l ls)
  end.

End TorchTensor.

(** ** The criteria of the enhancement model *)

Module EnhancementCriteria.
Import TorchComplex TorchTensor.

(** [eps = 1e-8] *)
Definition eps : R := (1 / 10 ^ 8)%R.

Section Criteria.

(** The text of the two operands in the error message. *)
Variable repr : value → string.

Definition invalid_input_shape (ref inf : value) : exn :=
  ValueError ("Invalid input shape: ref=" +:+ repr ref +:+ ", inf=" +:+ repr inf).

Definition tf_mse_loss (ref inf : value) : result (list R) :=
  if negb (bool_decide (value_dim ref = value_dim inf)) then Raise AssertionError
  else if bool_decide (value_dim ref = 3) then
    d ← sub ref inf;
    mean_tail (map_tensor (λ u, u ^ 2)%R (abs d))
  else if bool_decide (value_dim ref = 4) then
    d ← sub ref inf;
    mean_tail (map_tensor (λ u, u ^ 2)%R (abs d))
  else Raise (invalid_input_shape ref inf).

Definition tf_l1_loss (ref inf : value) : result (list R) :=
  if negb (bool_decide (value_dim ref = value_dim inf)) then Raise AssertionError
  else
    let eps := if isinstance_ComplexTensor ref then eps else 0%R in
    if bool_decide (value_dim ref = 3) then
      d ← sub ref inf;
      mean_tail (abs (add_scalar d eps))
    else if bool_decide (value_dim ref = 4) then
      d ← sub ref inf;
      mean_tail (abs (add_scalar d eps))
    else Raise (invalid_input_shape ref inf).

End Criteria.

(** [B, T = ref.size()] on a size of another length. *)
Definition unpack_error (n : nat) : exn :=
  ValueError (if bool_decide (n < 2)
              then "not enough values to unpack (expected 2, got " +:+ pretty n +:+ ")"
              else "too many values to unpack (expected 2)").

(** Row [b] of a tensor of size (B, T). *)
Definition row (x : tensor R) (T b : nat) : list R := (λ t, item x [b; t]) <$> seq 0 T.

(** [si_snr_loss_zeromean] on one batch element; [T] is the number of
    samples.  The row means are divided by [T] unguarded; an entry of the
    zero-mean rows is nan when [T] is zero. *)
Definition si_snr_row (T : nat) (r e : list R) : result R :=
  (* Step 1. Zero-mean norm *)
  let mean_target := fdiv (sum r) (INR T) in
  let mean_estimate := fdiv (sum e) (INR T) in
  zero_mean_target ← mapM (λ x, m ← mean_target; Ok (x - m)%R) r;
  zero_mean_estimate ← mapM (λ x, m ← mean_estimate; Ok (x - m)%R) e;
  (* Step 2. SI-SNR with order *)
  let s_target := zero_mean_target in
  let s_estimate := zero_mean_estimate in
  let pair_wise_dot := sum (zip_with Rmult s_estimate s_target) in
  let s_target_energy := (sum ((λ x, x ^ 2)%R <$> s_target) + eps)%R in
  pair_wise_proj ← mapM (λ x, fdiv (pair_wise_dot * x) s_target_energy) s_target;
  let e_noise := zip_with Rminus s_estimate pair_wise_proj in
  pair_wise_si_snr ←
    fdiv (sum ((λ x, x ^ 2)%R <$> pair_wise_proj)) (sum ((λ x, x ^ 2)%R <$> e_noise) + eps);
  l ← log10 (pair_wise_si_snr + eps);
  Ok (-1 * (10 * l))%R.

Definition si_snr_loss_zeromean (ref inf : tensor R) : result (list R) :=
  if negb (bool_decide (size ref = size inf)) then Raise AssertionError
  else
    match size ref with
    | [B; T] => mapM (λ b, si_snr_row T (row ref T b) (row inf T b)) (seq 0 B)
    | s => Raise (unpack_error (length s))
    end.

(** [collect_feats]: the mixture cut to the longest length of the
    batch, with the lengths as given. *)
Definition collect_feats {A} (speech_mix : tensor A) (speech_mix_lengths : list Z)
    : result (tensor A * list Z) :=
  stop ← max_all speech_mix_lengths;
  speech_mix ← slice_axis1 speech_mix stop;
  let '(feats, feats_lengths) := (speech_mix, speech_mix_lengths) in
  Ok (feats, feats_lengths).

End EnhancementCriteria.

(** ** The zero-mean SI-SNR in closed form *)

Module SpecSiSnr.
Import TorchTensor.

(** A row with its mean subtracted. *)
Definition zero_mean (T : nat) (xs : list R) : list R :=
  (λ x, x - sum xs / INR T)%R <$> xs.

(** The projection of the estimate on the target. *)
Definition projection (s_target s_estimate : list R) : list R :=
  (λ x, sum (zip_with Rmult s_estimate s_target) * x
        / (sum ((λ x, x ^ 2) <$> s_target) + EnhancementCriteria.eps))%R <$> s_target.

(** The energy of the projection over the energy of the rest. *)
Definition ratio (s_target s_estimate : list R) : R :=
  (sum ((λ x, x ^ 2) <$> projection s_target s_estimate)
   / (sum ((λ x, x ^ 2) <$> zip_with Rminus s_estimate (projection s_target s_estimate))
      + EnhancementCriteria.eps))%R.

(** The loss of one batch element: the negated SI-SNR in dB. *)
Definition loss (T : nat) (r e : list R) : R :=
  (-1 * (10 * (ln (ratio (zero_mean T r) (zero_mean T e) + EnhancementCriteria.eps)
               / ln 10)))%R.

End SpecSiSnr.

(** ** Segmentation of long sequences

    [RNN_base.pad_segment], [split_segment] and [merge_segment] of
    [espnet2/enh/long_seq_nets/long_seq_model.py]: a sequence is cut
    into segments that overlap by half, and put back by overlap-add.
    Python integers are in [Z], with [//] and [%] as [Z.div] and
    [Z.modulo], which round the same way. *)

Module RNN_base.
Import TorchTensor.

(** [torch.zeros(size)] *)
Definition zeros (s : list nat) : tensor R := Tensor s (λ _, 0%R).

(** [torch.cat([x, y], x.dim() - 1)] for two tensors that agree on all
    axes but the last. *)
Definition cat_last (x y : tensor R) : tensor R :=
  let Tx := default 0 (last (size x)) in
  let Ty := default 0 (last (size y)) in
  Tensor (take (length (size x) - 1) (size x) ++ [Tx + Ty])
         (λ idx,
            match last idx with
            | Some t =>
                if bool_decide (t < Tx) then item x idx
                else item y (take (length idx - 1) idx ++ [t - Tx])
            | None => item x idx
            end).

(** The bounds of a Python slice [a[start:stop]] on an axis of length
    [n]: negative indices count from the end, and both are clipped. *)
Definition slice_index (n : nat) (i : Z) : nat :=
  if bool_decide (i < 0)%Z then Z.to_nat (Z.max 0 (Z.of_nat n + i))
  else Z.to_nat (Z.min i (Z.of_nat n)).

(** [x[..., start:stop]] on the last axis. *)
Definition slice_last (x : tensor R) (start stop : Z) : tensor R :=
  let n := default 0 (last (size x)) in
  let a := slice_index n start in
  let b := slice_index n stop in
  Tensor (take (length (size x) - 1) (size x) ++ [b - a])
         (λ idx,
            match last idx with
            | Some t => item x (take (length idx - 1) idx ++ [a + t])
            | None => item x idx
            end).

(** Unpacking a size into [expected] names. *)
Definition unpack_error (expected n : nat) : exn :=
  ValueError (if bool_decide (n < expected)
              then "not enough values to unpack (expected " +:+ pretty expected
                   +:+ ", got " +:+ pretty n +:+ ")"
              else "too many values to unpack (expected " +:+ pretty expected +:+ ")").

Definition pad_segment (input : tensor R) (segment_size : Z) : result (tensor R * Z) :=
  (* input is the 2-D features: (B, N, T) *)
  match size input with
  | [batch_size; dim; seq_len] =>
      let segment_stride := (segment_size / 2)%Z in
      if bool_decide (segment_size = 0)%Z then Raise ZeroDivisionError
      else
        '(input, rest) ←
          (if bool_decide (Z.of_nat seq_len `mod` segment_size ≠ 0)%Z then
             let rest := (segment_size
                          - (segment_stride + Z.of_nat seq_len `mod` segment_size)
                            `mod` segment_size)%Z in
             if bool_decide (rest > 0)%Z then
               let pad := zeros [batch_size; dim; Z.to_nat rest] in
               Ok (cat_last input pad, rest)
             else Ok (input, rest)
           else Ok (input, 0%Z));
        (* extra padding at first and last segments; a negative size is
           an error of torch.zeros *)
        if bool_decide (segment_stride < 0)%Z then Raise RuntimeError
        else
          let pad_aux := zeros [batch_size; dim; Z.to_nat segment_stride] in
          Ok (cat_last (cat_last pad_aux input) pad_aux, rest)
  | s => Raise (unpack_error 3 (length s))
  end.

Definition split_segment (input : tensor R) (segment_size : Z) : result (tensor R * Z) :=
  (* split the sequence into segments *)
  '(input, rest) ← pad_segment input segment_size;
  match size input with
  | [batch_size; dim; seq_len] =>
      let segment_stride := (segment_size / 2)%Z in
      if bool_decide (segment_stride = 0)%Z then Raise ZeroDivisionError
      else
        let num_segment := ((Z.of_nat seq_len - segment_size) / segment_stride + 1)%Z in
        (* the length of each slice input[:, :, i * stride : i * stride + size] *)
        let lengths :=
          (λ i : nat,
             slice_index seq_len (Z.of_nat i * segment_stride + segment_size)
             - slice_index seq_len (Z.of_nat i * segment_stride))
            <$> seq 0 (Z.to_nat num_segment) in
        match lengths with
        | [] => Raise RuntimeError
        | l :: ls =>
            (* torch.cat along the new axis needs slices of one length *)
            if negb (forallb (Nat.eqb l) ls) then Raise RuntimeError
            else
              Ok (Tensor [batch_size; dim; l; Z.to_nat num_segment]
                    (λ idx,
                       match idx with
                       | [b; n; s; i] =>
                           item input
                             [b; n; slice_index seq_len (Z.of_nat i * segment_stride) + s]
                       | _ => 0%R
                       end),
                  rest)
        end
  | s => Raise (unpack_error 3 (length s))
  end.

(** One pass of the loop of [merge_segment]: segment [i] is added to
    the slice of [output] it came from. *)
Definition add_segment (input : tensor R) (segment_size segment_stride : nat)
    (output : tensor R) (i : nat) : tensor R :=
  Tensor (size output)
         (λ idx,
            match idx with
            | [b; n; t] =>
                if bool_decide (i * segment_stride ≤ t
                                ∧ t < i * segment_stride + segment_size)%nat
                then
                  let s := t - i * segment_stride in
                  (item output idx + item input [b; n; s; i])%R
                else item output idx
            | _ => item output idx
            end).

Definition merge_segment (input : tensor R) (rest : Z) : result (tensor R) :=
  (* merge the segments into sequence *)
  match size input with
  | [batch_size; dim; segment_size; num_segment] =>
      let segment_stride := segment_size `div` 2 in
      let output :=
        zeros [batch_size; dim;
               Z.to_nat ((Z.of_nat num_segment - 1) * Z.of_nat segment_stride
                         + Z.of_nat segment_size)] in
      let output :=
        foldl (add_segment input segment_size segment_stride) output (seq 0 num_segment) in
      Ok (slice_last output (Z.of_nat segment_stride) (- rest - Z.of_nat segment_stride))
  | s => Raise (unpack_error 4 (length s))
  end.

End RNN_base.

(** * Proofs *)

(** ** The enumeration of permutations *)

Import Itertools Spec.

Section Enumeration.
Context {A : Type}.
Implicit Types (pool rest p : list A) (x : A).

Lemma selections_perm pool x rest :
  (x, rest) ∈ selections pool → pool ≡ₚ x :: rest.
Proof.
  revert x rest. induction pool as [|a pool IH]; intros x rest; simpl.
  - by intros ?%elem_of_nil.
  - rewrite elem_of_cons, list_elem_of_fmap.
    intros [[= -> ->]|[[y ys] [[= -> ->] Hin]]]; [done|].
    rewrite (IH _ _ Hin). apply Permutation_swap.
Qed.

Lemma selections_complete pool x :
  x ∈ pool → ∃ rest, (x, rest) ∈ selections pool.
Proof.
  induction 1 as [x pool|x a pool _ [rest IH]]; simpl.
  - exists pool. by left.
  - exists (a :: rest). right. apply list_elem_of_fmap. by exists (x, rest).
Qed.

Lemma selections_length pool : length (selections pool) = length pool.
Proof. induction pool; simpl; [done|]. by rewrite length_fmap, IHpool. Qed.

Lemma permutations_of_length_sound n pool p :
  length pool = n → p ∈ permutations_of_length n pool → p ≡ₚ pool.
Proof.
  revert pool p. induction n as [|n IH]; intros pool p Hlen; simpl.
  - intros ->%list_elem_of_singleton. by destruct pool.
  - rewrite list_elem_of_bind. intros [[x rest] [Hp Hsel]].
    apply list_elem_of_fmap in Hp as [q [-> Hq]].
    pose proof (selections_perm _ _ _ Hsel) as Hperm.
    rewrite Hperm. constructor. apply IH; [|done].
    apply Permutation_length in Hperm. simpl in Hperm. lia.
Qed.

Lemma permutations_of_length_complete n pool p :
  length pool = n → p ≡ₚ pool → p ∈ permutations_of_length n pool.
Proof.
  revert pool p. induction n as [|n IH]; intros pool p Hlen Hperm; simpl.
  - destruct pool; [|done]. apply Permutation_nil_r in Hperm as ->. by left.
  - destruct p as [|x p].
    { apply Permutation_length in Hperm. simpl in Hperm. lia. }
    destruct (selections_complete pool x) as [rest Hsel].
    { rewrite <- Hperm. by left. }
    apply list_elem_of_bind. exists (x, rest). split; [|done].
    apply list_elem_of_fmap. exists p. split; [done|].
    pose proof (selections_perm _ _ _ Hsel) as Hrest.
    apply IH.
    + apply Permutation_length in Hrest. simpl in Hrest. lia.
    + rewrite Hrest in Hperm. by apply (inj (cons x)) in Hperm.
Qed.

Lemma permutations_spec pool p : p ∈ permutations pool ↔ p ≡ₚ pool.
Proof.
  split.
  - by apply permutations_of_length_sound.
  - by apply permutations_of_length_complete.
Qed.

End Enumeration.

Section EnumerationOrder.

Lemma length_bind_const {A C} (f : A → list C) (l : list A) c :
  (∀ a, a ∈ l → length (f a) = c) → length (l ≫= f) = length l * c.
Proof.
  induction l as [|a l IH]; intros Hc; [done|].
  change (length (f a ++ (l ≫= f)) = S (length l) * c).
  rewrite length_app, Hc, IH; [lia| |by left].
  intros b Hb. apply Hc. by right.
Qed.

Lemma permutations_of_length_length {A} n (pool : list A) :
  length pool = n → length (permutations_of_length n pool) = fact n.
Proof.
  revert pool. induction n as [|n IH]; intros pool Hlen; [done|].
  cbn [permutations_of_length]. rewrite (length_bind_const _ _ (fact n)).
  - rewrite selections_length, Hlen. reflexivity.
  - intros [x rest] Hsel. rewrite length_fmap. apply IH.
    apply selections_perm, Permutation_length in Hsel. simpl in Hsel. lia.
Qed.

Lemma StronglySorted_bind {A C} (RA : relation A) (RC : relation C)
    (f : A → list C) (l : list A) :
  StronglySorted RA l →
  (∀ a, a ∈ l → StronglySorted RC (f a)) →
  (∀ a b p q, RA a b → p ∈ f a → q ∈ f b → RC p q) →
  StronglySorted RC (l ≫= f).
Proof.
  intros Hl Hin Hcross. induction Hl as [|a l Hl IH Hall]; [constructor|].
  change (StronglySorted RC (f a ++ (l ≫= f))).
  apply StronglySorted_app_2.
  - intros p q Hp Hq. apply list_elem_of_bind in Hq as [b [Hq Hb]].
    rewrite Forall_forall in Hall. eapply Hcross; [|done..].
    by apply Hall.
  - apply Hin. by left.
  - apply IH. intros b Hb. apply Hin. by right.
Qed.

Lemma selections_sorted (pool : list nat) :
  StronglySorted lt pool →
  StronglySorted (λ a b, a.1 < b.1) (selections pool)
  ∧ ∀ a, a ∈ selections pool → StronglySorted lt a.2.
Proof.
  induction 1 as [|x xs Hxs [IH1 IH2] Hall]; simpl.
  { split; [constructor|]. by intros a ?%elem_of_nil. }
  rewrite Forall_forall in Hall.
  assert (Hmem : ∀ y ys, (y, ys) ∈ selections xs → x < y ∧ ∀ z, z ∈ ys → x < z).
  { intros y ys Hsel%selections_perm. split.
    - apply Hall. rewrite Hsel. by left.
    - intros z Hz. apply Hall. rewrite Hsel. by right. }
  split.
  - constructor.
    + apply (StronglySorted_fmap _ (λ a b : nat * list nat, a.1 < b.1)); [|done].
      by intros [] [].
    + apply Forall_forall. intros a [[y ys] [-> Hsel]]%list_elem_of_fmap.
      simpl. by destruct (Hmem y ys Hsel).
  - intros a [[= ->]|[[y ys] [-> Hsel]]%list_elem_of_fmap]%elem_of_cons; simpl; [done|].
    constructor; [by apply (IH2 (y, ys))|].
    apply Forall_forall. intros z Hz. destruct (Hmem y ys Hsel) as [_ Hlt]. by apply Hlt.
Qed.

Lemma permutations_of_length_sorted n (pool : list nat) :
  length pool = n → StronglySorted lt pool →
  StronglySorted lex_lt (permutations_of_length n pool).
Proof.
  revert pool. induction n as [|n IH]; intros pool Hlen Hsorted.
  { repeat constructor. }
  cbn [permutations_of_length].
  destruct (selections_sorted pool Hsorted) as [Hfst Hrest].
  eapply StronglySorted_bind; [exact Hfst|..].
  - intros [x rest] Hsel.
    apply (StronglySorted_fmap _ lex_lt).
    + intros p q Hpq. by constructor.
    + apply IH; [|by apply (Hrest (x, rest))].
      apply selections_perm, Permutation_length in Hsel. simpl in Hsel. lia.
  - intros [x xs] [y ys] p q Hxy [p' [-> _]]%list_elem_of_fmap [q' [-> _]]%list_elem_of_fmap.
    by constructor.
Qed.

Lemma seq_sorted start n : StronglySorted lt (seq start n).
Proof.
  revert start. induction n as [|n IH]; intros start; simpl; constructor; [done|].
  apply Forall_forall. intros x Hx%elem_of_seq. lia.
Qed.

End EnumerationOrder.

(** ** The result monad *)

Lemma mapM_Ok_Forall2 {A C} (f : A → result C) (P : A → C → Prop) (l : list A) :
  (∀ x, x ∈ l → ∃ y, f x = Ok y ∧ P x y) →
  ∃ k, mapM f l = Ok k ∧ Forall2 P l k.
Proof.
  induction l as [|x l IH]; intros Hf.
  - exists []. by split; [|constructor].
  - destruct (Hf x) as [y [Hy HP]]; [by left|].
    destruct IH as [k [Hk HF]]; [intros z Hz; apply Hf; by right|].
    exists (y :: k). split; [|by constructor].
    cbn [mapM]. rewrite Hy. cbn. rewrite Hk. reflexivity.
Qed.

Lemma mapM_Ok_fmap {A C} (f : A → result C) (g : A → C) (l : list A) :
  (∀ x, x ∈ l → f x = Ok (g x)) → mapM f l = Ok (g <$> l).
Proof.
  induction l as [|x l IH]; intros Hf; [done|].
  cbn [mapM]. rewrite Hf by (by left). cbn.
  rewrite IH; [done|]. intros y Hy. apply Hf. by right.
Qed.

Lemma py_getitem_Some {A} (l : list A) i x : l !! i = Some x → py_getitem l i = Ok x.
Proof. unfold py_getitem. by intros ->. Qed.

Lemma py_in_false {A} (d : gmap string A) key : d !! key = None → py_in key d = false.
Proof. intros H. unfold py_in. rewrite H. apply bool_decide_false. by intros [? ?]. Qed.

Lemma py_in_true {A} (d : gmap string A) key : is_Some (d !! key) → py_in key d = true.
Proof. intros H. unfold py_in. by apply bool_decide_true. Qed.

(** ** Sums of reals *)

Lemma fold_left_Rplus (xs : list R) (a : R) :
  fold_left Rplus xs a = (a + foldr Rplus 0 xs)%R.
Proof.
  revert a. induction xs as [|x xs IH]; intros a; simpl; [lra|].
  rewrite IH. lra.
Qed.

Lemma py_sum_foldr xs : py_sum xs = foldr Rplus 0%R xs.
Proof. unfold py_sum. rewrite fold_left_Rplus. lra. Qed.

Lemma foldr_Rplus_le (xs ys : list R) :
  Forall2 Rle xs ys → (foldr Rplus 0 xs <= foldr Rplus 0 ys)%R.
Proof. induction 1; simpl; lra. Qed.

Lemma batch_mean_le (xs ys : list R) :
  Forall2 Rle xs ys → (batch_mean xs <= batch_mean ys)%R.
Proof.
  intros H. unfold batch_mean. rewrite <- (Forall2_length _ _ _ H).
  destruct xs as [|x xs].
  { inversion H; subst. simpl. lra. }
  apply Rmult_le_compat_r; [|by apply foldr_Rplus_le].
  left. apply Rinv_0_lt_compat. apply lt_0_INR. simpl. lia.
Qed.

(** ** The row minimum *)

Lemma argmin_from_spec row : ∀ best besti i m j,
  Torch.argmin_from best besti i row = (m, j) →
  (m <= best)%R ∧ (∀ x, x ∈ row → (m <= x)%R)
  ∧ ((m = best ∧ j = besti) ∨ ∃ k, row !! k = Some m ∧ j = i + k).
Proof.
  induction row as [|x row IH]; intros best besti i m j; simpl.
  - intros [= <- <-]. split; [lra|]. split; [by intros x ?%elem_of_nil|by left].
  - destruct (Rlt_dec x best) as [Hlt|Hge]; intros Hrun;
      destruct (IH _ _ _ _ _ Hrun) as (Hle & Hall & Hwhere).
    + split; [lra|]. split.
      * intros y [->|Hy]%elem_of_cons; [done|by apply Hall].
      * right. destruct Hwhere as [[-> ->]|[k [Hk ->]]].
        -- exists 0. split; [done|lia].
        -- exists (S k). split; [done|lia].
    + split; [done|]. split.
      * intros y [->|Hy]%elem_of_cons; [lra|by apply Hall].
      * destruct Hwhere as [[-> ->]|[k [Hk ->]]]; [by left|].
        right. exists (S k). split; [done|lia].
Qed.

Lemma row_min_spec row :
  row ≠ [] →
  ∃ m j, Torch.row_min row = Ok (m, Z.of_nat j)
         ∧ row !! j = Some m ∧ ∀ x, x ∈ row → (m <= x)%R.
Proof.
  destruct row as [|x row]; [done|]. intros _. unfold Torch.row_min.
  destruct (Torch.argmin_from x 0 1 row) as [m j] eqn:Hrun.
  apply argmin_from_spec in Hrun as (Hle & Hall & Hwhere).
  exists m, j. split; [done|]. split.
  - destruct Hwhere as [[-> ->]|[k [Hk ->]]]; done.
  - intros y [->|Hy]%elem_of_cons; [done|by apply Hall].
Qed.

(** ** One permutation: [pair_loss] *)

Section PitProofs.
Context {T : Type} (B : nat) (criterion : T → T → nat → R).
Implicit Types (ref inf : list T) (p π : list nat).

Abbreviation pair_loss := (ESPnetEnhancementModel.pair_loss criterion).
Abbreviation _permutation_loss := (ESPnetEnhancementModel._permutation_loss B criterion).
Abbreviation agg := (aggregate_distortion criterion).

Lemma pair_terms_spec ref inf p k :
  k + length p ≤ length ref →
  (∀ t, t ∈ p → t < length inf) →
  ∃ terms,
    mapM (λ '(s, t), r ← py_getitem ref s; h ← py_getitem inf t; Ok (criterion r h))
         (imap (λ i, pair (k + i)) p) = Ok terms
    ∧ ∀ b, (λ term : nat → R, term b) <$> terms
           = zip_with (pair_cost criterion inf b) (drop k ref) p.
Proof.
  revert k. induction p as [|t p IH]; intros k Hlen Hin.
  - exists []. split; [done|]. intros b. by destruct (drop k ref).
  - simpl in Hlen.
    destruct (lookup_lt_is_Some_2 ref k) as [r Hr]; [lia|].
    destruct (lookup_lt_is_Some_2 inf t) as [h Hh]; [apply Hin; by left|].
    destruct (IH (S k)) as [terms [Hterms Hval]]; [lia|intros; apply Hin; by right|].
    exists (criterion r h :: terms). split.
    + cbn [imap mapM]. rewrite Nat.add_0_r.
      rewrite (py_getitem_Some _ _ _ Hr), (py_getitem_Some _ _ _ Hh). cbn.
      rewrite (imap_ext _ (λ i, pair (S k + i))); [|intros; simpl; f_equal; lia].
      rewrite Hterms. reflexivity.
    + intros b. rewrite (drop_S _ _ _ Hr). cbn. rewrite Hval.
      unfold pair_cost at 2. by rewrite Hh.
Qed.

Lemma pair_loss_spec ref inf p :
  1 ≤ length ref → length p = length ref →
  (∀ t, t ∈ p → t < length inf) →
  ∃ f, pair_loss ref inf p = Ok f ∧ ∀ b, f b = agg ref inf p b.
Proof.
  intros HK Hlen Hin.
  destruct (pair_terms_spec ref inf p 0) as [terms [Hterms Hval]]; [lia|done|].
  unfold ESPnetEnhancementModel.pair_loss, enumerate.
  rewrite (imap_ext _ (λ i, pair (0 + i)) p) by done.
  rewrite Hterms. cbn. destruct (length p) as [|n] eqn:Hp; [lia|].
  eexists. split; [reflexivity|]. intros b. cbv beta.
  rewrite py_sum_foldr, Hval, drop_0. unfold aggregate_distortion.
  rewrite <- Hlen. unfold Rdiv. ring.
Qed.

Lemma is_permutation_length K π : is_permutation K π → length π = K.
Proof. intros ->%Permutation_length. apply length_seq. Qed.

Lemma is_permutation_lt K π t : is_permutation K π → t ∈ π → t < K.
Proof. intros Hπ Ht. rewrite Hπ in Ht. apply elem_of_seq in Ht. lia. Qed.

Lemma identity_is_permutation K : is_permutation K (seq 0 K).
Proof. unfold is_permutation. reflexivity. Qed.

Lemma permutations_range_enumeration K :
  lexicographic_enumeration K (permutations (range K)).
Proof.
  split.
  - apply permutations_of_length_sorted; [done|apply seq_sorted].
  - intros π. apply permutations_spec.
Qed.

Lemma permutations_range_length K : length (permutations (range K)) = fact K.
Proof.
  unfold permutations, range. rewrite length_seq.
  apply permutations_of_length_length, length_seq.
Qed.

End PitProofs.

(** ** The search over all permutations *)

Lemma mean_nonempty (t : list R) : 1 ≤ length t → Torch.mean t = Ok (batch_mean t).
Proof.
  destruct t as [|x t]; simpl; [lia|]. intros _.
  unfold batch_mean. f_equal. rewrite fold_left_Rplus. simpl. f_equal. lra.
Qed.

Section PitSearch.
Context {T : Type} (B : nat) (criterion : T → T → nat → R).
Implicit Types (ref inf : list T) (p π : list nat).

Abbreviation pair_loss := (ESPnetEnhancementModel.pair_loss criterion).
Abbreviation _permutation_loss := (ESPnetEnhancementModel._permutation_loss B criterion).
Abbreviation agg := (aggregate_distortion criterion).

Abbreviation loss_row := (Spec.loss_row criterion).
Abbreviation picked := (Spec.picked criterion).

Lemma stacked_losses ref inf :
  1 ≤ length ref → length inf = length ref →
  ∃ cols,
    mapM (pair_loss ref inf) (permutations (range (length ref))) = Ok cols
    ∧ Torch.stack_dim1 B cols = Ok (loss_row ref inf <$> seq 0 B).
Proof.
  intros HK Hinf.
  destruct (mapM_Ok_Forall2 (pair_loss ref inf)
              (λ π f, ∀ b, f b = agg ref inf π b)
              (permutations (range (length ref)))) as [cols [Hcols Hall]].
  { intros π Hπ%permutations_spec. apply pair_loss_spec; [done|..].
    - by apply is_permutation_length.
    - intros t Ht. rewrite Hinf. by apply (is_permutation_lt _ π). }
  exists cols. split; [done|].
  assert (length cols = fact (length ref)) as Hlen.
  { rewrite <- (Forall2_length _ _ _ Hall). apply permutations_range_length. }
  unfold Torch.stack_dim1. destruct cols as [|c cols].
  { pose proof (lt_O_fact (length ref)). simpl in Hlen. lia. }
  f_equal. apply list_fmap_ext. intros _ b _. unfold Spec.loss_row.
  apply list_eq. intros i. rewrite !list_lookup_fmap.
  pose proof (proj1 (Forall2_lookup _ _ _) Hall i) as Hi.
  destruct Hi as [π f Hf|]; simpl; [|done]. by rewrite Hf.
Qed.

Lemma loss_row_length ref inf b : length (loss_row ref inf b) = fact (length ref).
Proof. unfold Spec.loss_row. rewrite length_fmap. apply permutations_range_length. Qed.

Lemma loss_row_lower_bound ref inf b m :
  (∀ x, x ∈ loss_row ref inf b → (m <= x)%R) →
  ∀ π, is_permutation (length ref) π → (m <= agg ref inf π b)%R.
Proof.
  intros Hm π Hπ. apply Hm. unfold Spec.loss_row.
  apply list_elem_of_fmap. exists π. split; [done|]. by apply permutations_spec.
Qed.

Lemma pit_search ref inf :
  1 ≤ length ref → length inf = length ref → 1 ≤ B →
  ∃ picks,
    _permutation_loss ref inf None true = Ok (batch_mean picks.*1, picks.*2)
    ∧ Forall2 (picked ref inf) (seq 0 B) picks.
Proof.
  intros HK Hinf HB.
  destruct (stacked_losses ref inf HK Hinf) as [cols [Hcols Hstack]].
  destruct (mapM_Ok_Forall2 Torch.row_min
              (λ row pick, ∃ m j, pick = (m, Z.of_nat j) ∧ row !! j = Some m
                                  ∧ ∀ x, x ∈ row → (m <= x)%R)
              (loss_row ref inf <$> seq 0 B)) as [picks [Hpicks Hall]].
  { intros row [b [-> _]]%list_elem_of_fmap.
    destruct (row_min_spec (loss_row ref inf b)) as (m & j & Hrun & Hj & Hmin).
    - intros Hnil. pose proof (loss_row_length ref inf b) as Hlen.
      rewrite Hnil in Hlen. pose proof (lt_O_fact (length ref)). simpl in Hlen. lia.
    - exists (m, Z.of_nat j). split; [done|]. by exists m, j. }
  exists picks. split.
  - unfold ESPnetEnhancementModel._permutation_loss.
    rewrite Hcols. cbn. rewrite Hstack. cbn.
    unfold Torch.min_dim1. rewrite Hpicks. cbn.
    assert (length picks.*1 = B) as Hlen.
    { rewrite length_fmap, <- (Forall2_length _ _ _ Hall), length_fmap. apply length_seq. }
    rewrite mean_nonempty by lia. reflexivity.
  - apply Forall2_fmap_l in Hall. eapply Forall2_impl; [exact Hall|].
    intros b pick (m & j & -> & Hj & Hmin). simpl in Hj.
    unfold Spec.loss_row in Hj. rewrite list_lookup_fmap in Hj.
    destruct (permutations (range (length ref)) !! j) as [π|] eqn:Hπ; [|done].
    simpl in Hj. injection Hj as <-.
    exists j, π. split; [done|]. split; [done|]. split.
    + exists π. split; [|done]. apply permutations_spec. by eapply list_elem_of_lookup_2.
    + by apply loss_row_lower_bound.
Qed.

(** The identity assignment, as the code computes it without search. *)
Lemma identity_run ref inf :
  1 ≤ length ref → length inf = length ref → 1 ≤ B →
  _permutation_loss ref inf None false
  = Ok (identity_loss criterion B ref inf, Z.of_nat <$> range (length ref)).
Proof.
  intros HK Hinf HB.
  destruct (pair_loss_spec criterion ref inf (range (length ref))) as [f [Hf Hval]];
    [done|apply length_seq|..].
  { intros t Ht%elem_of_seq. lia. }
  unfold ESPnetEnhancementModel._permutation_loss. rewrite Hf. cbn.
  rewrite mean_nonempty by (rewrite length_fmap, length_seq; lia). cbn.
  unfold identity_loss.
  by rewrite (list_fmap_ext f (λ b, agg ref inf (seq 0 (length ref)) b) (seq 0 B)).
Qed.

End PitSearch.

(** ** A supplied permutation, and reordered hypotheses *)

Lemma wrap_index_mod (n : nat) (j : Z) :
  (- Z.of_nat n ≤ j < Z.of_nat n)%Z →
  Torch.wrap_index n j = Ok (Z.to_nat (j `mod` Z.of_nat n)).
Proof.
  intros Hj. unfold Torch.wrap_index. case_bool_decide as Hpos.
  - by rewrite Z.mod_small.
  - rewrite bool_decide_true by lia. do 2 f_equal.
    apply (Z.mod_unique_pos _ _ (-1)); lia.
Qed.

Section PitFixed.
Context {T : Type} (B : nat) (criterion : T → T → nat → R).
Implicit Types (ref inf : list T) (p π : list nat).

Abbreviation _permutation_loss := (ESPnetEnhancementModel._permutation_loss B criterion).
Abbreviation agg := (aggregate_distortion criterion).

Abbreviation read := (Spec.read criterion).

Lemma getitem2_loss_row ref inf b j :
  b < B → (- Z.of_nat (fact (length ref)) ≤ j < Z.of_nat (fact (length ref)))%Z →
  ∃ v, Torch.getitem2 (loss_row criterion ref inf <$> seq 0 B) b j = Ok v
       ∧ read ref inf (b, j) v.
Proof.
  intros Hb Hj. unfold Torch.getitem2.
  rewrite (py_getitem_Some _ b (loss_row criterion ref inf b)).
  2:{ rewrite list_lookup_fmap, lookup_seq_lt by done. done. }
  cbn. rewrite loss_row_length, wrap_index_mod by done. cbn.
  set (k := Z.to_nat (j `mod` Z.of_nat (fact (length ref)))).
  assert (k < fact (length ref)) as Hk.
  { pose proof (lt_O_fact (length ref)).
    pose proof (Z.mod_pos_bound j (Z.of_nat (fact (length ref)))). lia. }
  destruct (lookup_lt_is_Some_2 (permutations (range (length ref))) k) as [π Hπ].
  { by rewrite permutations_range_length. }
  exists (agg ref inf π b). split; [|by exists π].
  apply py_getitem_Some. unfold Spec.loss_row. by rewrite list_lookup_fmap, Hπ.
Qed.

Lemma pit_fixed ref inf (perm : list Z) :
  1 ≤ length ref → length inf = length ref → 1 ≤ B →
  length perm = B →
  Forall (λ j, - Z.of_nat (fact (length ref)) ≤ j < Z.of_nat (fact (length ref)))%Z perm →
  ∃ vals,
    _permutation_loss ref inf (Some perm) true = Ok (batch_mean vals, perm)
    ∧ Forall2 (read ref inf) (zip (seq 0 B) perm) vals.
Proof.
  intros HK Hinf HB Hperm Hrange.
  destruct (stacked_losses B criterion ref inf HK Hinf) as [cols [Hcols Hstack]].
  destruct (mapM_Ok_Forall2
              (λ '(b, j), Torch.getitem2 (loss_row criterion ref inf <$> seq 0 B) b j)
              (read ref inf) (zip (seq 0 B) perm)) as [vals [Hvals Hall]].
  { intros [b j] Hbj. apply getitem2_loss_row.
    - apply elem_of_zip_l, elem_of_seq in Hbj. lia.
    - rewrite Forall_forall in Hrange. by apply Hrange, (elem_of_zip_r b _ (seq 0 B)). }
  exists vals. split; [|done].
  unfold ESPnetEnhancementModel._permutation_loss.
  rewrite Hcols. cbn. rewrite Hstack. cbn.
  unfold Torch.index_rows. rewrite length_fmap, length_seq.
  rewrite bool_decide_true by done. rewrite Hvals. cbn.
  rewrite mean_nonempty; [done|].
  rewrite <- (Forall2_length _ _ _ Hall), length_zip, length_seq. lia.
Qed.

End PitFixed.

Section PitReorder.
Context {T : Type} (criterion : T → T → nat → R).
Implicit Types (ref inf : list T) (p π : list nat).

Abbreviation agg' := (aggregate_distortion criterion).

Lemma aggregate_distortion_reindex ref inf inf' (f : nat → nat) π b :
  (∀ i, inf !! i = inf' !! f i) →
  agg' ref inf' (f <$> π) b = agg' ref inf π b.
Proof.
  intros Hf. unfold aggregate_distortion. do 2 f_equal.
  rewrite zip_with_fmap_r. apply zip_with_ext; [|done..].
  intros r t. unfold pair_cost. by rewrite Hf.
Qed.

Lemma reindex_is_permutation inf inf' (f : nat → nat) π :
  Inj (=) (=) f → length inf = length inf' →
  (∀ i, inf !! i = inf' !! f i) →
  is_permutation (length inf) π → is_permutation (length inf) (f <$> π).
Proof.
  intros Hinj Hlen Hf Hπ. unfold is_permutation in *. rewrite Hπ.
  apply submseteq_length_Permutation; [|by rewrite length_fmap].
  apply NoDup_submseteq.
  - apply NoDup_fmap_2; [done|apply NoDup_seq].
  - intros x [i [-> Hi%elem_of_seq]]%list_elem_of_fmap. apply elem_of_seq.
    split; [lia|]. simpl. rewrite Hlen. apply lookup_lt_is_Some.
    rewrite <- Hf. apply lookup_lt_is_Some. lia.
Qed.

Lemma minimum_distortion_reorder ref inf inf' b m m' :
  length inf = length ref → inf ≡ₚ inf' →
  minimum_distortion criterion ref inf b m →
  minimum_distortion criterion ref inf' b m' →
  (m' <= m)%R.
Proof.
  intros Hlen Hperm [[π [Hπ <-]] _] [_ Hmin'].
  apply Permutation_inj in Hperm as [Hlen' [f [Hinj Hf]]].
  rewrite <- (aggregate_distortion_reindex ref inf inf' f π b Hf).
  apply Hmin'. rewrite <- Hlen in *. by apply (reindex_is_permutation inf inf').
Qed.

Lemma minimum_distortion_reorder_eq ref inf inf' b m m' :
  length inf = length ref → inf ≡ₚ inf' →
  minimum_distortion criterion ref inf b m →
  minimum_distortion criterion ref inf' b m' →
  m = m'.
Proof.
  intros Hlen Hperm Hm Hm'. apply Rle_antisym.
  - apply (minimum_distortion_reorder ref inf' inf b); [|done..].
    by rewrite <- (Permutation_length Hperm).
  - by apply (minimum_distortion_reorder ref inf inf' b).
Qed.

Lemma reorder_lookup {A} (l : list A) σ i :
  Forall (λ s, s < length l) σ → reorder σ l !! i = σ !! i ≫= (l !!.).
Proof.
  intros Hσ. revert i. induction Hσ as [|s σ Hs Hσ IH]; intros i; [done|].
  unfold reorder. cbn [omap list_omap].
  destruct (lookup_lt_is_Some_2 l s Hs) as [x Hx]. rewrite Hx.
  destruct i as [|i]; [done|]. apply IH.
Qed.

Lemma reorder_fmap σ π :
  Forall (λ t, t < length σ) π →
  reorder π σ = (λ t, default t (σ !! t)) <$> π.
Proof.
  intros Hπ. induction Hπ as [|t π Ht Hπ IH]; [done|].
  unfold reorder in *. cbn [omap list_omap].
  destruct (lookup_lt_is_Some_2 σ t Ht) as [s Hs]. rewrite Hs.
  rewrite fmap_cons, Hs. simpl. by rewrite IH.
Qed.

Lemma fmap_default_seq σ : (λ t, default t (σ !! t)) <$> seq 0 (length σ) = σ.
Proof.
  apply list_eq. intros i. rewrite list_lookup_fmap.
  destruct (decide (i < length σ)) as [Hi|Hi].
  - rewrite lookup_seq_lt by done. simpl.
    destruct (lookup_lt_is_Some_2 σ i Hi) as [s Hs]. by rewrite Hs.
  - rewrite lookup_seq_ge by lia. symmetry. apply lookup_ge_None. lia.
Qed.

Lemma is_permutation_Forall K π : is_permutation K π → Forall (λ t, t < K) π.
Proof. intros Hπ. apply Forall_forall. intros t. by apply is_permutation_lt. Qed.

(** The assignment [π'] on the reordered hypotheses selects the same
    hypotheses as [reorder π' σ] on the original ones. *)
Lemma reorder_assignment ref inf σ π' b :
  length inf = length ref →
  is_permutation (length ref) σ → is_permutation (length ref) π' →
  is_permutation (length ref) (reorder π' σ)
  ∧ agg' ref inf (reorder π' σ) b = agg' ref (reorder σ inf) π' b.
Proof.
  intros Hinf Hσ Hπ'.
  pose proof (is_permutation_length _ _ Hσ) as Hlen.
  rewrite reorder_fmap by (rewrite Hlen; by apply is_permutation_Forall).
  split.
  - unfold is_permutation in *. rewrite Hπ'. rewrite <- Hlen at 1.
    by rewrite fmap_default_seq.
  - apply aggregate_distortion_reindex. intros i.
    rewrite reorder_lookup by (rewrite Hinf; by apply is_permutation_Forall).
    destruct (σ !! i) as [s|] eqn:Hs; [done|]. simpl.
    apply lookup_ge_None in Hs. symmetry. apply lookup_ge_None. lia.
Qed.

End PitReorder.

(** ** The permutation loss against the specification *)

Section PitTheorems.
Context {T : Type} (B : nat) (criterion : T → T → nat → R).
Implicit Types (ref inf : list T) (p π : list nat).

Lemma frontend_permutation_loss ref inf perm :
  ESPnetFrontendModel._permutation_loss B criterion ref inf perm
  = ESPnetEnhancementModel._permutation_loss B criterion ref inf perm true.
Proof. reflexivity. Qed.

Lemma picked_lookup ref inf picks b :
  Forall2 (picked criterion ref inf) (seq 0 B) picks → b < B →
  ∃ pick, picks !! b = Some pick ∧ picked criterion ref inf b pick.
Proof.
  intros Hall Hb.
  destruct (Forall2_lookup_l _ _ _ b b Hall) as [pick [Hpick Hp]]; [|by exists pick].
  by apply lookup_seq_lt.
Qed.

(** C1: with no permutation supplied, the loss is the batch mean of the
    per-example minimum, over all K! permutations, of the aggregate
    distortion, and the returned index of each batch element points, in
    the lexicographic enumeration of the permutations of {0..K-1}, to a
    permutation that attains that minimum. *)
Theorem permutation_loss_searches_all_permutations ref inf :
  1 ≤ length ref → length inf = length ref → 1 ≤ B →
  ∃ (loss : R) (perm : list Z) (ms : list R) (enum : list (list nat)),
    ESPnetEnhancementModel._permutation_loss B criterion ref inf None true = Ok (loss, perm)
    ∧ ESPnetFrontendModel._permutation_loss B criterion ref inf None = Ok (loss, perm)
    ∧ lexicographic_enumeration (length ref) enum
    ∧ length enum = fact (length ref)
    ∧ length ms = B ∧ length perm = B
    ∧ loss = batch_mean ms
    ∧ ∀ b, b < B → ∃ m j π,
        ms !! b = Some m ∧ perm !! b = Some (Z.of_nat j) ∧ enum !! j = Some π
        ∧ aggregate_distortion criterion ref inf π b = m
        ∧ minimum_distortion criterion ref inf b m.
Proof.
  intros HK Hinf HB.
  destruct (pit_search B criterion ref inf HK Hinf HB) as [picks [Hrun Hall]].
  pose proof (Forall2_length _ _ _ Hall) as Hlen. rewrite length_seq in Hlen.
  exists (batch_mean picks.*1), picks.*2, picks.*1, (permutations (range (length ref))).
  split; [done|]. split; [by rewrite frontend_permutation_loss|].
  split; [apply permutations_range_enumeration|].
  split; [apply permutations_range_length|].
  rewrite !length_fmap. do 3 (split; [done|]).
  intros b Hb.
  destruct (picked_lookup ref inf picks b Hall Hb) as [pick [Hpick (j & π & -> & Hπ & Hmin)]].
  exists (aggregate_distortion criterion ref inf π b), j, π.
  rewrite !list_lookup_fmap, Hpick. done.
Qed.

(** C4: the searched loss never exceeds the loss of the identity
    assignment, which is also what the code computes with the search
    switched off. *)
Theorem permutation_loss_le_identity ref inf :
  1 ≤ length ref → length inf = length ref → 1 ≤ B →
  ∃ (loss : R) (perm : list Z),
    ESPnetEnhancementModel._permutation_loss B criterion ref inf None true = Ok (loss, perm)
    ∧ ESPnetFrontendModel._permutation_loss B criterion ref inf None = Ok (loss, perm)
    ∧ (loss <= identity_loss criterion B ref inf)%R
    ∧ ESPnetEnhancementModel._permutation_loss B criterion ref inf None false
      = Ok (identity_loss criterion B ref inf, Z.of_nat <$> range (length ref)).
Proof.
  intros HK Hinf HB.
  destruct (pit_search B criterion ref inf HK Hinf HB) as [picks [Hrun Hall]].
  exists (batch_mean picks.*1), picks.*2.
  split; [done|]. split; [by rewrite frontend_permutation_loss|].
  split; [|by apply identity_run].
  apply batch_mean_le, Forall2_fmap, Forall2_flip.
  eapply Forall2_impl; [exact Hall|].
  intros b pick (j & π & -> & _ & [_ Hmin]). simpl.
  apply Hmin, identity_is_permutation.
Qed.

(** C5: a supplied permutation index is only read, one entry per batch
    element: the loss is the batch mean of the aggregate distortion of
    the permutation each index selects, and the indices come back as
    given. *)
Theorem permutation_loss_fixed_perm ref inf (perm : list Z) :
  1 ≤ length ref → length inf = length ref → 1 ≤ B →
  length perm = B →
  Forall (λ j, - Z.of_nat (fact (length ref)) ≤ j < Z.of_nat (fact (length ref)))%Z perm →
  ∃ (vals : list R) (enum : list (list nat)),
    ESPnetEnhancementModel._permutation_loss B criterion ref inf (Some perm) true
    = Ok (batch_mean vals, perm)
    ∧ ESPnetFrontendModel._permutation_loss B criterion ref inf (Some perm)
      = Ok (batch_mean vals, perm)
    ∧ lexicographic_enumeration (length ref) enum
    ∧ length vals = B
    ∧ ∀ b j, perm !! b = Some j →
        ∃ π, enum !! Z.to_nat (j `mod` Z.of_nat (length enum)) = Some π
             ∧ vals !! b = Some (aggregate_distortion criterion ref inf π b).
Proof.
  intros HK Hinf HB Hperm Hrange.
  destruct (pit_fixed B criterion ref inf perm HK Hinf HB Hperm Hrange)
    as [vals [Hrun Hall]].
  pose proof (Forall2_length _ _ _ Hall) as Hlen.
  rewrite length_zip, length_seq, Hperm, Nat.min_id in Hlen.
  exists vals, (permutations (range (length ref))).
  split; [done|]. split; [by rewrite frontend_permutation_loss|].
  split; [apply permutations_range_enumeration|]. split; [done|].
  intros b j Hj. rewrite permutations_range_length.
  destruct (Forall2_lookup_l _ _ _ b (b, j) Hall) as [v [Hv [π [Hπ ->]]]].
  { apply lookup_zip_Some. split; [|done].
    apply lookup_seq_lt. apply lookup_lt_Some in Hj. lia. }
  by exists π.
Qed.

(** C9: reordering the hypotheses leaves the searched loss unchanged;
    the returned indices then point to assignments of the new order
    whose distortion is the same minimum.  Where the first run has only
    one assignment of minimum distortion, the two assignments
    correspond: the one returned for the reordered hypotheses, followed
    by the reordering, is the one returned for the original
    hypotheses. *)
Theorem permutation_loss_hypothesis_order ref inf inf' :
  1 ≤ length ref → length inf = length ref → 1 ≤ B →
  inf ≡ₚ inf' →
  ∃ (loss : R) (perm perm' : list Z),
    ESPnetEnhancementModel._permutation_loss B criterion ref inf None true = Ok (loss, perm)
    ∧ ESPnetEnhancementModel._permutation_loss B criterion ref inf' None true = Ok (loss, perm')
    ∧ ESPnetFrontendModel._permutation_loss B criterion ref inf None = Ok (loss, perm)
    ∧ ESPnetFrontendModel._permutation_loss B criterion ref inf' None = Ok (loss, perm')
    ∧ ∀ b, b < B → ∃ j j' π π',
        perm !! b = Some (Z.of_nat j) ∧ perm' !! b = Some (Z.of_nat j')
        ∧ permutations (range (length ref)) !! j = Some π
        ∧ permutations (range (length ref)) !! j' = Some π'
        ∧ aggregate_distortion criterion ref inf π b
          = aggregate_distortion criterion ref inf' π' b
        ∧ minimum_distortion criterion ref inf b (aggregate_distortion criterion ref inf π b)
        ∧ minimum_distortion criterion ref inf' b (aggregate_distortion criterion ref inf' π' b)
        ∧ ∀ σ, is_permutation (length ref) σ → inf' = reorder σ inf →
            (∀ π2, is_permutation (length ref) π2 →
               aggregate_distortion criterion ref inf π2 b
               = aggregate_distortion criterion ref inf π b → π2 = π) →
            π = reorder π' σ.
Proof.
  intros HK Hinf HB Hperm.
  assert (length inf' = length ref) as Hinf'.
  { by rewrite <- (Permutation_length Hperm). }
  destruct (pit_search B criterion ref inf HK Hinf HB) as [picks [Hrun Hall]].
  destruct (pit_search B criterion ref inf' HK Hinf' HB) as [picks' [Hrun' Hall']].
  assert (∀ b, b < B → ∃ j j' π π',
      picks !! b = Some (aggregate_distortion criterion ref inf π b, Z.of_nat j)
      ∧ picks' !! b = Some (aggregate_distortion criterion ref inf' π' b, Z.of_nat j')
      ∧ permutations (range (length ref)) !! j = Some π
      ∧ permutations (range (length ref)) !! j' = Some π'
      ∧ aggregate_distortion criterion ref inf π b
        = aggregate_distortion criterion ref inf' π' b
      ∧ minimum_distortion criterion ref inf b (aggregate_distortion criterion ref inf π b)
      ∧ minimum_distortion criterion ref inf' b (aggregate_distortion criterion ref inf' π' b))
    as Hboth.
  { intros b Hb.
    destruct (picked_lookup ref inf picks b Hall Hb) as [? [Hp (j & π & -> & Hπ & Hmin)]].
    destruct (picked_lookup ref inf' picks' b Hall' Hb) as [? [Hp' (j' & π' & -> & Hπ' & Hmin')]].
    exists j, j', π, π'. repeat (split; [done|]). split; [|done].
    by apply (minimum_distortion_reorder_eq criterion ref inf inf' b). }
  assert (picks.*1 = picks'.*1) as Hfst.
  { apply list_eq. intros b. rewrite !list_lookup_fmap.
    destruct (decide (b < B)) as [Hb|Hb].
    - destruct (Hboth b Hb) as (j & j' & π & π' & -> & -> & _ & _ & -> & _). done.
    - rewrite !lookup_ge_None_2; [done|..].
      + rewrite <- (Forall2_length _ _ _ Hall'), length_seq. lia.
      + rewrite <- (Forall2_length _ _ _ Hall), length_seq. lia. }
  exists (batch_mean picks.*1), picks.*2, picks'.*2.
  split; [done|]. split; [by rewrite Hfst|].
  split; [by rewrite frontend_permutation_loss|].
  split; [by rewrite frontend_permutation_loss, Hfst|].
  intros b Hb.
  destruct (Hboth b Hb) as (j & j' & π & π' & Hp & Hp' & Hπ & Hπ' & Heq & Hmin & Hmin').
  exists j, j', π, π'. rewrite !list_lookup_fmap, Hp, Hp'.
  repeat (split; [done|]).
  intros σ Hσ -> Huniq.
  assert (is_permutation (length ref) π') as Hperm'.
  { apply permutations_spec. by eapply list_elem_of_lookup_2. }
  destruct (reorder_assignment criterion ref inf σ π' b Hinf Hσ Hperm') as [Hperm2 Hagg].
  symmetry. apply Huniq; [done|]. by rewrite Hagg.
Qed.

End PitTheorems.

Lemma permutation_loss_searches_all_permutations_witness :
  ∃ (loss : R) (perm : list Z),
    ESPnetEnhancementModel._permutation_loss 2 (λ r h b, Rabs (r - h)) [1%R; 2%R] [2%R; 1%R] None true
    = Ok (loss, perm).
Proof.
  destruct (permutation_loss_searches_all_permutations 2 (λ r h b, Rabs (r - h)) [1%R; 2%R] [2%R; 1%R])
    as (loss & perm & _ & _ & Hrun & _); [simpl; lia..|].
  by exists loss, perm.
Defined.

Lemma permutation_loss_le_identity_witness :
  ∃ (loss : R) (perm : list Z),
    ESPnetEnhancementModel._permutation_loss 2 (λ r h b, Rabs (r - h)) [1%R; 2%R] [2%R; 1%R]
      None true = Ok (loss, perm)
    ∧ (loss <= identity_loss (λ r h b, Rabs (r - h)) 2 [1%R; 2%R] [2%R; 1%R])%R.
Proof.
  destruct (permutation_loss_le_identity 2 (λ r h b, Rabs (r - h)) [1%R; 2%R] [2%R; 1%R])
    as (loss & perm & Hrun & _ & Hle & _); [simpl; lia..|].
  by exists loss, perm.
Defined.

Lemma permutation_loss_fixed_perm_witness :
  ∃ vals : list R,
    ESPnetEnhancementModel._permutation_loss 2 (λ r h b, Rabs (r - h)) [1%R; 2%R] [2%R; 1%R]
      (Some [1%Z; 0%Z]) true = Ok (batch_mean vals, [1%Z; 0%Z])
    ∧ length vals = 2.
Proof.
  destruct (permutation_loss_fixed_perm 2 (λ r h b, Rabs (r - h)) [1%R; 2%R] [2%R; 1%R]
              [1%Z; 0%Z]) as (vals & enum & Hrun & _ & _ & Hlen & _); [simpl; lia..| |].
  { repeat constructor; simpl; lia. }
  by exists vals.
Defined.

Lemma permutation_loss_hypothesis_order_witness :
  ∃ (loss : R) (perm perm' : list Z) (π π' : list nat),
    ESPnetEnhancementModel._permutation_loss 2 (λ r h b, Rabs (r - h)) [1%R; 2%R] [2%R; 1%R]
      None true = Ok (loss, perm)
    ∧ ESPnetEnhancementModel._permutation_loss 2 (λ r h b, Rabs (r - h)) [1%R; 2%R]
        (reorder [1; 0] [2%R; 1%R]) None true = Ok (loss, perm')
    ∧ π ∈ permutations (range 2) ∧ π' ∈ permutations (range 2)
    ∧ π = reorder π' [1; 0].
Proof.
  destruct (permutation_loss_hypothesis_order 2 (λ r h b, Rabs (r - h))
              [1%R; 2%R] [2%R; 1%R] (reorder [1; 0] [2%R; 1%R]))
    as (loss & perm & perm' & Hrun & Hrun' & _ & _ & Hidx);
    [simpl; lia..|apply Permutation_swap|].
  destruct (Hidx 0) as (j & j' & π & π' & _ & _ & Hπ & Hπ' & _ & _ & _ & Hcorr); [lia|].
  exists loss, perm, perm', π, π'.
  split; [done|]. split; [done|].
  split; [by eapply list_elem_of_lookup_2|]. split; [by eapply list_elem_of_lookup_2|].
  apply Hcorr; [apply Permutation_swap|reflexivity|].
  assert (∀ p, is_permutation 2 p → p = [0; 1] ∨ p = [1; 0]) as Hcases.
  { intros p Hp. pose proof (is_permutation_length _ _ Hp) as Hlen.
    destruct p as [|s [|t [|? ?]]]; try done.
    assert (s < 2) as Hs by (apply (is_permutation_lt 2 [s; t]); [done|by left]).
    assert (t < 2) as Ht by (apply (is_permutation_lt 2 [s; t]); [done|right; by left]).
    assert (NoDup [s; t]) as Hnd by (unfold is_permutation in Hp; rewrite Hp; apply NoDup_seq).
    apply NoDup_cons in Hnd as [Hst _]. rewrite list_elem_of_singleton in Hst.
    destruct s as [|[|s]]; [| |lia]; destruct t as [|[|t]]; try lia; try done; auto. }
  assert (aggregate_distortion (λ r h (_ : nat), Rabs (r - h)) [1%R; 2%R] [2%R; 1%R] [0; 1] 0
          = 1%R) as H01.
  { unfold aggregate_distortion, pair_cost. simpl.
    unfold Rabs. repeat destruct (Rcase_abs _); lra. }
  assert (aggregate_distortion (λ r h (_ : nat), Rabs (r - h)) [1%R; 2%R] [2%R; 1%R] [1; 0] 0
          = 0%R) as H10.
  { unfold aggregate_distortion, pair_cost. simpl.
    unfold Rabs. repeat destruct (Rcase_abs _); lra. }
  intros π2 Hπ2 Heq.
  assert (is_permutation 2 π) as Hperm.
  { apply permutations_spec. by eapply list_elem_of_lookup_2. }
  destruct (Hcases π2 Hπ2) as [-> | ->], (Hcases π Hperm) as [-> | ->];
    try done; rewrite H01, H10 in Heq; lra.
Defined.

(** C9, the tie: with references [1, 1] and hypotheses [1, 3] both
    assignments have the same distortion, and so they have for the
    swapped hypotheses [3, 1].  Either run returns index 0, the identity
    assignment: the indices do not differ, and the identity is not the
    swap followed by the identity. *)
Example permutation_loss_hypothesis_order_tie :
  ∃ loss loss' : R,
    ESPnetEnhancementModel._permutation_loss 1 (λ r h _, (r - h) * (r - h))%R
      [1%R; 1%R] [1%R; 3%R] None true = Ok (loss, [0%Z])
    ∧ ESPnetEnhancementModel._permutation_loss 1 (λ r h _, (r - h) * (r - h))%R
        [1%R; 1%R] (reorder [1; 0] [1%R; 3%R]) None true = Ok (loss', [0%Z])
    ∧ ESPnetFrontendModel._permutation_loss 1 (λ r h _, (r - h) * (r - h))%R
        [1%R; 1%R] [1%R; 3%R] None = Ok (loss, [0%Z])
    ∧ ESPnetFrontendModel._permutation_loss 1 (λ r h _, (r - h) * (r - h))%R
        [1%R; 1%R] (reorder [1; 0] [1%R; 3%R]) None = Ok (loss', [0%Z])
    ∧ loss = 2%R ∧ loss' = 2%R
    ∧ reorder [1; 0] [1%R; 3%R] = [3%R; 1%R]
    ∧ permutations (range 2) !! 0 = Some [0; 1]
    ∧ [0; 1] ≠ reorder [0; 1] [1; 0].
Proof.
  unfold ESPnetFrontendModel._permutation_loss, ESPnetEnhancementModel._permutation_loss. cbn.
  repeat (destruct (Rlt_dec _ _) as [Hlt|_]; [exfalso; lra|]).
  cbn. eexists _, _. repeat (split; [reflexivity|]).
  split; [lra|]. split; [lra|]. repeat (split; [reflexivity|]). done.
Qed.

(** ** The permutation loss on small inputs *)

Example permutations_range_3 :
  Itertools.permutations (Itertools.range 3)
  = [[0; 1; 2]; [0; 2; 1]; [1; 0; 2]; [1; 2; 0]; [2; 0; 1]; [2; 1; 0]].
Proof. reflexivity. Qed.

Example permutations_range_0 : Itertools.permutations (Itertools.range 0) = [[]].
Proof. reflexivity. Qed.

(** Two speakers whose estimates come out swapped, one batch element:
    the search finds the swap, index 1 of the enumeration, at loss 0;
    without search the loss is that of the identity. *)
Example permutation_loss_swapped :
  ∃ loss, ESPnetEnhancementModel._permutation_loss 1 (λ r h _, (r - h) * (r - h))%R
            [1%R; 2%R] [2%R; 1%R] None true = Ok (loss, [1%Z])
          ∧ loss = 0%R.
Proof.
  unfold ESPnetEnhancementModel._permutation_loss. cbn.
  destruct (Rlt_dec _ _) as [_|Hn]; [|exfalso; apply Hn; lra].
  cbn. eexists. split; [reflexivity|]. lra.
Qed.

Example permutation_loss_no_search :
  ∃ loss, ESPnetEnhancementModel._permutation_loss 1 (λ r h _, (r - h) * (r - h))%R
            [1%R; 2%R] [2%R; 1%R] None false = Ok (loss, [0%Z; 1%Z])
          ∧ loss = 1%R.
Proof.
  unfold ESPnetEnhancementModel._permutation_loss. cbn.
  eexists. split; [reflexivity|]. lra.
Qed.

Example permutation_loss_empty_batch :
  ESPnetEnhancementModel._permutation_loss 0 (λ r h _, (r - h) * (r - h))%R
    [1%R; 2%R] [2%R; 1%R] None true = NonFinite.
Proof. reflexivity. Qed.

Example permutation_loss_no_speaker :
  ESPnetEnhancementModel._permutation_loss (T := R) 1 (λ r h _, (r - h) * (r - h))%R
    [] [] None true = Raise ZeroDivisionError.
Proof. reflexivity. Qed.

(** ** Mask labels *)

Section MaskLabelProofs.
Import TorchComplex MaskLabel SpecMask.
Context {I : Type}.
Implicit Types (mix_spec r : I → complex) (ref_spec : list (I → complex)).

Lemma label_loop_fmap (body : list (mask I) → (I → complex) → result (mask I))
    (g : (I → complex) → mask I) rs acc :
  (∀ acc' r, body acc' r = Ok (g r)) →
  label_loop body rs acc = Ok (acc ++ (g <$> rs)).
Proof.
  intros Hbody. revert acc. induction rs as [|r rs IH]; intros acc; simpl.
  - by rewrite app_nil_r.
  - rewrite Hbody. cbn. rewrite IH, <- app_assoc. done.
Qed.

Lemma clamp_bounds lo hi x : (lo <= hi)%R → (lo <= clamp lo hi x <= hi)%R.
Proof.
  intros Hlohi. unfold clamp, Rmin, Rmax.
  repeat destruct (Rle_dec _ _); lra.
Qed.

Lemma clamp_negative x : (x < 0)%R → (clamp (-1) 1 x < 0)%R.
Proof.
  intros Hx. unfold clamp, Rmin, Rmax.
  repeat destruct (Rle_dec _ _); lra.
Qed.

(** C2: the test [mask_label == "NPSM"] is false for every accumulator,
    so the labels for NPSM are those for PSM: the phase-sensitive mask
    clamped to [-1, 1], negative wherever the unclamped mask is. *)
Theorem npsm_label_is_clamped_like_psm mix_spec ref_spec :
  (∀ mask_label : list (mask I), list_eq_str mask_label "NPSM" = false)
  ∧ ESPnetEnhancementModel._create_mask_label mix_spec ref_spec "NPSM"
    = ESPnetEnhancementModel._create_mask_label mix_spec ref_spec "PSM"
  ∧ ESPnetFrontendModel._create_mask_label mix_spec ref_spec "NPSM"
    = ESPnetFrontendModel._create_mask_label mix_spec ref_spec "PSM"
  ∧ ESPnetEnhancementModel._create_mask_label mix_spec ref_spec "NPSM"
    = Ok ((λ r, RealMask (λ i, clamp (-1) 1 (phase_sensitive_mask mix_spec r i)))
            <$> ref_spec)
  ∧ ESPnetFrontendModel._create_mask_label mix_spec ref_spec "NPSM"
    = Ok ((λ r, RealMask (λ i, clamp (-1) 1 (phase_sensitive_mask mix_spec r i)))
            <$> ref_spec)
  ∧ ∀ r i,
      (-1 <= clamp (-1) 1 (phase_sensitive_mask mix_spec r i) <= 1)%R
      ∧ ((phase_sensitive_mask mix_spec r i < 0)%R →
         (clamp (-1) 1 (phase_sensitive_mask mix_spec r i) < 0)%R).
Proof.
  split; [done|]. split; [done|]. split; [done|].
  split; [|split].
  - unfold ESPnetEnhancementModel._create_mask_label.
    rewrite bool_decide_true by (unfold ESPnetEnhancementModel.mask_types; repeat constructor).
    cbn [negb]. by rewrite (label_loop_fmap _
      (λ r, RealMask (λ i, clamp (-1) 1 (phase_sensitive_mask mix_spec r i)))).
  - unfold ESPnetFrontendModel._create_mask_label.
    rewrite bool_decide_true by (unfold ESPnetFrontendModel.mask_types; repeat constructor).
    cbn [negb]. by rewrite (label_loop_fmap _
      (λ r, RealMask (λ i, clamp (-1) 1 (phase_sensitive_mask mix_spec r i)))).
  - intros r i. split; [apply clamp_bounds; lra|apply clamp_negative].
Qed.

End MaskLabelProofs.

(** One bin where the reference is the mixture with its sign flipped:
    the NPSM label is negative there. *)
Example npsm_label_negative :
  ∃ m : unit → R,
    ESPnetEnhancementModel._create_mask_label (λ _, (1, 0)%R) [λ _, (-1, 0)%R] "NPSM"
    = Ok [MaskLabel.RealMask m] ∧ (m () < 0)%R.
Proof.
  eexists. split; [reflexivity|]. cbv beta.
  apply clamp_negative.
  unfold TorchComplex.cabs, MaskLabel.cos_theta, TorchComplex.cdiv_real, TorchComplex.cabs,
    MaskLabel.eps. cbn [fst snd].
  replace ((-1) ^ 2 + 0 ^ 2)%R with 1%R by ring.
  replace (1 ^ 2 + 0 ^ 2)%R with 1%R by ring.
  rewrite sqrt_1.
  assert (0 < 1 + 10 / 10 ^ 8)%R as Hpos.
  { assert (0 < 10 / 10 ^ 8)%R; [|lra]. apply Rdiv_lt_0_compat; [lra|]. apply pow_lt. lra. }
  set (d := (1 + 10 / 10 ^ 8)%R) in *.
  assert (0 < / d)%R as Hinv by (by apply Rinv_0_lt_compat).
  unfold Rdiv. set (x := (/ d)%R) in *.
  assert (0 < x * x)%R as Hxx by (by apply Rmult_lt_0_compat).
  assert (0 < x * (x * x))%R as Hxxx by (by apply Rmult_lt_0_compat).
  lra.
Qed.

(** ** The missing noise reference, and the beamformer type *)

Section EnhForward.
Import ESPnetEnhancementModel.
Context {Tensor Spectrum MaskT Ctx Perm Stats : Type}.
Context (stack : list Tensor → result Tensor) (unbind : Tensor → list Tensor).
Context (batch_and_context :
  t → Tensor → option Tensor → Tensor → gmap string Tensor →
  result (Tensor * Tensor * Tensor * Ctx * R * option Perm)).
Context (stft : Tensor → Spectrum).
Context (enh_model :
  Tensor → Ctx → Tensor → result (list Spectrum * Tensor * option (gmap string MaskT))).
Context (tf_masking_loss :
  t → Spectrum → list Spectrum → list Spectrum → option (gmap string MaskT) →
  option Perm → result (R * Perm)).
Context (noise_masking_loss : t → Spectrum → Tensor → gmap string MaskT → result R).
Context (evaluate : t → list Spectrum → Tensor → list Tensor → Perm → result R).
Context (tf_stats : option R → R → Stats).
Context (rawwav_loss :
  t → Tensor → Tensor → Ctx → Tensor → option Tensor → option Perm → result (R * Stats)).
Context (finish : t → R → Stats → R → Tensor → result (R * Stats * nat)).

(** C7: once the separation network has returned masks with the key
    [noise1] and the speech loss has been computed, a call without
    [noise_ref1] raises the ValueError about the missing noise
    reference, whatever the noise loss and the later steps would do. *)
Theorem missing_noise_reference_raises self speech_mix speech_mix_lengths
    (kwargs : gmap string Tensor) refs speech_ref speech_lengths speech_ref' speech_mix'
    ctx_feed ctx_loss ctx_perm spectrum_pre tf_length (masks : gmap string MaskT)
    tf_loss perm :
  loss_type self ≠ "si_snr" →
  mapM (λ spk, py_getkey kwargs ("speech_ref" +:+ pretty (spk + 1)))
       (Itertools.range (num_spk self)) = Ok refs →
  stack refs = Ok speech_ref →
  kwargs !! "noise_ref1" = None →
  batch_and_context self speech_mix speech_mix_lengths speech_ref kwargs
  = Ok (speech_lengths, speech_ref', speech_mix', ctx_feed, ctx_loss, ctx_perm) →
  enh_model speech_mix' ctx_feed speech_lengths = Ok (spectrum_pre, tf_length, Some masks) →
  tf_masking_loss self (stft speech_mix') (stft <$> unbind speech_ref') spectrum_pre
                  (Some masks) ctx_perm = Ok (tf_loss, perm) →
  is_Some (masks !! "noise1") →
  forward stack unbind batch_and_context stft enh_model tf_masking_loss
          noise_masking_loss evaluate tf_stats rawwav_loss finish
          self speech_mix speech_mix_lengths kwargs
  = Raise (ValueError no_noise_reference)
  ∧ String.prefix "No noise reference for training!" no_noise_reference = true.
Proof.
  intros Htype Hrefs Hstack Hnoise Hprep Hmodel Hloss Hkey. split; [|reflexivity].
  unfold forward. rewrite Hrefs. cbn. rewrite Hstack. cbn.
  rewrite (py_in_false kwargs) by done. cbn.
  rewrite Hprep. cbn.
  destruct (String.eqb_spec (loss_type self) "si_snr") as [|_]; [done|]. cbn.
  rewrite Hmodel. cbn. rewrite Hloss. cbn.
  by rewrite (py_in_true masks).
Qed.

End EnhForward.

Lemma missing_noise_reference_raises_witness :
  ESPnetEnhancementModel.forward (Stats := unit)
    (λ _ : list unit, Ok ()) (λ _, [()]) (λ _ _ _ _ _, Ok ((), (), (), (), 0%R, None))
    (λ _, ()) (λ _ _ _, Ok ([()], (), Some {["noise1" := ()]}))
    (λ _ _ _ _ _ (_ : option unit), Ok (0%R, ())) (λ _ _ _ _, Ok 0%R) (λ _ _ _ _ _, Ok 0%R)
    (λ _ _, ()) (λ _ _ _ _ _ _ _, Ok (0%R, ())) (λ _ _ _ _ _, Ok (0%R, (), 1))
    (ESPnetEnhancementModel.Build 1 1 (Some "PSM") "mask_mse" true) () None
    {["speech_ref1" := ()]}
  = Raise (ValueError ESPnetEnhancementModel.no_noise_reference).
Proof.
  eapply proj1, (missing_noise_reference_raises _ _ _ _ _ _ _ _ _ _ _
    (ESPnetEnhancementModel.Build 1 1 (Some "PSM") "mask_mse" true) () None
    {["speech_ref1" := ()]} [()] () () () () () 0%R None [()] () {["noise1" := ()]} 0%R ());
    try reflexivity.
  - discriminate.
  - by eexists.
Defined.

Import SpecDesign.

Lemma supported_path_bind {A C} (m : result A) (f : A → result C) :
  supported_path m → (∀ a, supported_path (f a)) → supported_path (m ≫= f).
Proof.
  intros Hm Hf s. destruct m as [a|e|]; cbn; [apply Hf| |done].
  intros [= ->]. by apply (Hm s).
Qed.

Lemma supported_path_mapM {A C} (f : A → result C) (l : list A) :
  (∀ a, supported_path (f a)) → supported_path (mapM f l).
Proof.
  intros Hf. induction l as [|x l IH]; [done|]. cbn [mapM].
  apply supported_path_bind; [done|]. intros y.
  apply supported_path_bind; [done|]. done.
Qed.

Lemma supported_path_Ok {A} (a : A) : supported_path (Ok a).
Proof. done. Qed.

Lemma supported_path_wrap_index n j : supported_path (Torch.wrap_index n j).
Proof. intros s. unfold Torch.wrap_index. repeat case_bool_decide; done. Qed.

Lemma supported_path_py_getitem {A} (l : list A) i : supported_path (py_getitem l i).
Proof. intros s. unfold py_getitem. by destruct (l !! i). Qed.

Lemma supported_path_py_pop {A} (l : list A) i : supported_path (py_pop l i).
Proof. intros s. unfold py_pop. by destruct (l !! i). Qed.

Lemma supported_path_div_count z n : supported_path (AttentionReference.div_count z n).
Proof. intros s. unfold AttentionReference.div_count. by case_bool_decide. Qed.

Create HintDb supported_path discriminated.

#[local] Hint Resolve supported_path_Ok supported_path_wrap_index supported_path_py_getitem
  supported_path_py_pop supported_path_div_count : supported_path.

(** Walks down binds and [mapM]s, closing the leaves with the hints. *)
Ltac supported_path_steps :=
  repeat first
    [ apply supported_path_bind; [|intro]
    | apply supported_path_mapM; intro ];
  auto with supported_path.

Lemma supported_path_attention mlp_psd gvec psd_in scaling :
  supported_path (AttentionReference.forward mlp_psd gvec psd_in scaling).
Proof.
  unfold AttentionReference.forward.
  destruct (AttentionReference.shape psd_in) as [[[B F] C] C'].
  destruct (negb _); [done|]. supported_path_steps.
Qed.

#[local] Hint Resolve supported_path_attention : supported_path.

Section BeamformerInit.
Import DNN_Beamformer.

Lemma supported_cases (s : string) :
  s ∈ supported → s = "mvdr" ∨ s = "mpdr" ∨ s = "wpd".
Proof.
  unfold supported. intros H.
  repeat (apply elem_of_cons in H as [->|H]); auto. by apply elem_of_nil in H.
Qed.

Context {Data Ilens Mask Power Filter Enhanced : Type}.
Context (mlp_psd : list R → list R) (gvec : list R → R).
Context (mask_estimator : Data → Ilens → list Mask).
Context (size : Data → nat * nat * nat * nat) (permute_0321 : Data → Data).
Context (get_power_spectral_density_matrix : Data → Mask → AttentionReference.tensor4).
Context (einsum_ct_et : Data → AttentionReference.tensor4).
Context (power : Data → Power) (pmul : Power → Mask → Power).
Context (channel_mean : Power → Power) (reciprocal_clamp_min : Power → R → Power).
Context (get_covariances : Data → Power → Z → Z → AttentionReference.tensor4).
Context (get_mvdr_vector :
  AttentionReference.tensor4 → AttentionReference.tensor4 → list (list R) → Filter).
Context (apply_beamforming_vector : Filter → Data → Enhanced).
Context (get_WPD_filter_v2 :
  AttentionReference.tensor4 → AttentionReference.tensor4 → list (list R) → Filter).
Context (perform_WPD_filtering : Filter → Data → Z → Z → Enhanced).
Context (transpose : Enhanced → Enhanced).

Abbreviation reference_vector := (reference_vector mlp_psd gvec size).
Abbreviation apply_beamforming :=
  (apply_beamforming mlp_psd gvec size get_mvdr_vector apply_beamforming_vector
     get_WPD_filter_v2 perform_WPD_filtering).
Abbreviation speaker_step :=
  (speaker_step mlp_psd gvec size get_mvdr_vector apply_beamforming_vector
     get_WPD_filter_v2 perform_WPD_filtering).
Abbreviation speaker_loop :=
  (speaker_loop mlp_psd gvec size get_mvdr_vector apply_beamforming_vector
     get_WPD_filter_v2 perform_WPD_filtering transpose).
Abbreviation forward :=
  (forward mlp_psd gvec mask_estimator size permute_0321
     get_power_spectral_density_matrix einsum_ct_et power pmul channel_mean
     reciprocal_clamp_min get_covariances get_mvdr_vector apply_beamforming_vector
     get_WPD_filter_v2 perform_WPD_filtering transpose).

Lemma supported_path_reference_vector self data psd_speech :
  supported_path (reference_vector self data psd_speech).
Proof.
  unfold DNN_Beamformer.reference_vector. case_bool_decide.
  - auto with supported_path.
  - destruct (size data) as [[[B F] C] T]. supported_path_steps.
Qed.

Lemma supported_path_apply_beamforming self data psd_speech psd_n bt :
  bt ∈ supported → supported_path (apply_beamforming self data psd_speech psd_n bt).
Proof.
  intros Hbt. unfold DNN_Beamformer.apply_beamforming.
  apply supported_path_bind; [apply supported_path_reference_vector|]. intros u.
  by destruct (supported_cases bt Hbt) as [-> | [-> | ->]].
Qed.

Lemma supported_path_speaker_step self data psd_n psd_speeches i :
  beamformer_type self ∈ supported →
  supported_path (speaker_step self data psd_n psd_speeches i).
Proof.
  intros Hbt. unfold DNN_Beamformer.speaker_step.
  apply supported_path_bind; [apply supported_path_py_pop|]. intros [psd_speech others].
  apply supported_path_bind; [|by intros [enh w]].
  pose proof (supported_path_apply_beamforming self data) as Happly.
  destruct (supported_cases _ Hbt) as [Heq|[Heq|Heq]]; rewrite Heq in *; cbn;
    destruct psd_n as [n|ns]; try done; try (by apply Happly).
  apply supported_path_bind; [apply supported_path_py_getitem|].
  intros n. by apply Happly.
Qed.

Lemma supported_path_speaker_loop self data psd_n todo psd_speeches enhanced ws :
  beamformer_type self ∈ supported →
  supported_path (speaker_loop self data psd_n todo psd_speeches enhanced ws).
Proof.
  intros Hbt. revert psd_speeches enhanced ws.
  induction todo as [|i todo IH]; intros psd_speeches enhanced ws; [done|].
  cbn [DNN_Beamformer.speaker_loop].
  apply supported_path_bind; [by apply supported_path_speaker_step|].
  by intros [[enh w] restored].
Qed.

Lemma supported_path_forward self data ilens :
  beamformer_type self ∈ supported → supported_path (forward self data ilens).
Proof.
  intros Hbt. unfold DNN_Beamformer.forward.
  destruct (negb _); [done|]. case_bool_decide.
  - destruct (mask_estimator _ _) as [|m1 [|m2 [|m3 ms]]]; try done.
    apply supported_path_bind.
    + by destruct (supported_cases _ Hbt) as [-> | [-> | ->]].
    + intros psd_n. apply supported_path_bind; [|by intros [? ?]].
      by apply supported_path_apply_beamforming.
  - destruct (last _); [|done].
    apply supported_path_bind.
    + by destruct (supported_cases _ Hbt) as [-> | [-> | ->]].
    + intros psd_n. apply supported_path_bind; [|by intros [? ?]].
      by apply supported_path_speaker_loop.
Qed.

(** C6: [__init__] raises the ValueError for every type outside
    mvdr, mpdr and wpd and returns an instance for each of the three;
    an instance it returned never takes the unsupported-type exit of
    [forward]. *)
Theorem unsupported_beamformer_type_rejected_at_construction
    (bnmask ref_channel : Z) (bt : string) (eps : R) (btaps bdelay : Z) :
  (bt ∉ ["mvdr"; "mpdr"; "wpd"] →
   __init__ bnmask ref_channel bt eps btaps bdelay
   = Raise (ValueError ("Not supporting beamformer_type=" +:+ bt)))
  ∧ (bt ∈ ["mvdr"; "mpdr"; "wpd"] →
     ∃ self, __init__ bnmask ref_channel bt eps btaps bdelay = Ok self
             ∧ beamformer_type self = bt)
  ∧ (∀ self, __init__ bnmask ref_channel bt eps btaps bdelay = Ok self →
     bt ∈ ["mvdr"; "mpdr"; "wpd"]
     ∧ ∀ data ilens s, forward self data ilens ≠ Raise (not_supporting s)).
Proof.
  unfold __init__. fold supported. split; [|split].
  - intros Hbt. by rewrite bool_decide_false.
  - intros Hbt. rewrite bool_decide_true by done. by eexists.
  - intros self. case_bool_decide as Hbt; [|done]. intros [= <-].
    split; [done|]. intros data ilens. by apply supported_path_forward.
Qed.

End BeamformerInit.

Example init_rejects_gev :
  DNN_Beamformer.__init__ 2 (-1) "gev" 0 5 3
  = Raise (ValueError "Not supporting beamformer_type=gev").
Proof. reflexivity. Qed.

Example init_accepts_wpd :
  DNN_Beamformer.__init__ 3 0 "wpd" 0 5 3 = Ok (DNN_Beamformer.Build 3 0 "wpd" 0 5 3).
Proof. reflexivity. Qed.

(** ** The front-end model's check *)

Section FrontendForward.
Import ESPnetFrontendModel.
Context {Tensor Spectrum MaskT Label Perm Stats : Type}.
Context (stack : list Tensor → result Tensor) (unbind : Tensor → list Tensor).
Context (check_batch : Tensor → Tensor → Tensor → result (Tensor * Tensor)).
Context (stft : Tensor → Spectrum).
Context (create_mask_label : Spectrum → list Spectrum → string → result (list Label)).
Context (frontend :
  Tensor → Tensor → result (list Spectrum * Tensor * option (gmap string MaskT))).
Context (magnitude_loss : list Spectrum → list Spectrum → result (R * Perm)).
Context (mask_loss : list Label → list MaskT → result (R * Perm)).
Context (dereverb_loss : Label → MaskT → result R).
Context (noise_loss : list Label → list MaskT → result R).
Context (time_domain :
  t → R → Perm → list Spectrum → Tensor → list Tensor → result (R * Stats)).
Context (rawwav_loss : t → Tensor → Tensor → Tensor → result (R * Stats)).
Context (gather : R → Stats → Tensor → result (R * Stats * nat)).

(** The front-end model makes the same check, after the check for the
    dereverberated reference: with no [dereverb] mask predicted, masks
    with the key [noise1] and no [noise_ref1] raise the same error. *)
Lemma frontend_missing_noise_reference_raises self speech_mix speech_mix_lengths
    (kwargs : gmap string Tensor) refs speech_ref speech_ref' speech_mix'
    mask_ref spectrum_pre tf_length (masks : gmap string MaskT) mask_pre_ tf_loss perm :
  (0 < tf_factor self)%R →
  mapM (λ spk, py_getkey kwargs ("speech_ref" +:+ pretty (spk + 1)))
       (Itertools.range (num_spk self)) = Ok refs →
  stack refs = Ok speech_ref →
  kwargs !! "noise_ref1" = None →
  kwargs !! "dereverb_ref" = None →
  check_batch speech_mix speech_ref speech_mix_lengths = Ok (speech_ref', speech_mix') →
  create_mask_label (stft speech_mix') (stft <$> unbind speech_ref') (mask_type self)
  = Ok mask_ref →
  frontend speech_mix' speech_mix_lengths = Ok (spectrum_pre, tf_length, Some masks) →
  mapM (λ spk, py_getkey masks ("spk" +:+ pretty (spk + 1)))
       (Itertools.range (num_spk self)) = Ok mask_pre_ →
  mask_loss mask_ref mask_pre_ = Ok (tf_loss, perm) →
  masks !! "dereverb" = None →
  is_Some (masks !! "noise1") →
  forward stack unbind check_batch stft create_mask_label frontend magnitude_loss
          mask_loss dereverb_loss noise_loss time_domain rawwav_loss gather
          self speech_mix speech_mix_lengths kwargs
  = Raise (ValueError no_noise_reference).
Proof.
  intros Htf Hrefs Hstack Hnoise Hderev Hcheck Hlabel Hfront Hspk Hloss Hnoder Hkey.
  unfold forward. rewrite Hrefs. cbn. rewrite Hstack. cbn.
  rewrite (py_in_false kwargs) by done. cbn.
  rewrite Hcheck. cbn.
  destruct (Rlt_dec 0 (tf_factor self)) as [_|Hn]; [|done].
  rewrite Hlabel. cbn. rewrite Hderev. cbn.
  rewrite Hfront. cbn. rewrite Hspk. cbn. rewrite Hloss. cbn.
  rewrite (py_in_false masks "dereverb") by done. cbn.
  by rewrite (py_in_true masks).
Qed.

End FrontendForward.

(** ** The attention reference *)

Section Softmax.
Import AttentionReference SpecAttention.

Lemma foldr_Rplus_scale (f : R → R) (t : R) (xs : list R) :
  foldr Rplus 0%R ((λ x, f x / t)%R <$> xs) = (foldr Rplus 0 (f <$> xs) / t)%R.
Proof.
  induction xs as [|x xs IH]; [simpl; lra|].
  rewrite !fmap_cons. cbn [foldr]. rewrite IH. lra.
Qed.

Lemma exp_total_pos (xs : list R) : xs ≠ [] → (0 < foldr Rplus 0 (exp <$> xs))%R.
Proof.
  assert (∀ ys : list R, 0 <= foldr Rplus 0 (exp <$> ys))%R as Hnonneg.
  { induction ys as [|y ys IH]; [simpl; lra|].
    rewrite fmap_cons. cbn [foldr]. pose proof (exp_pos y). lra. }
  destruct xs as [|x xs]; [done|]. intros _. rewrite fmap_cons. cbn [foldr].
  pose proof (exp_pos x). pose proof (Hnonneg xs). lra.
Qed.

Lemma softmax_normalised (xs : list R) :
  xs ≠ [] → normalised (length xs) (softmax xs).
Proof.
  intros Hxs. pose proof (exp_total_pos xs Hxs) as Hpos.
  unfold normalised, softmax. split; [by rewrite length_fmap|]. split.
  - apply Forall_fmap, Forall_forall. intros x _. simpl.
    apply Rlt_le, Rdiv_lt_0_compat; [apply exp_pos|done].
  - rewrite (foldr_Rplus_scale exp). apply Rdiv_diag. lra.
Qed.

End Softmax.

Section Attention.
Import TorchComplex AttentionReference SpecAttention.
Context (mlp_psd : list R → list R) (gvec : list R → R).

Lemma div_count_nonzero z n : n ≠ 0%Z → div_count z n = Ok (cdiv_real z (IZR n)).
Proof. intros Hn. unfold div_count. by rewrite bool_decide_false. Qed.

Lemma attention_forward_two_channels psd_in scaling B F C :
  shape psd_in = (B, F, C, C) → 2 ≤ C →
  forward mlp_psd gvec psd_in scaling
  = Ok (attention mlp_psd gvec psd_in scaling F C <$> seq 0 B).
Proof.
  intros Hshape HC. unfold forward. rewrite Hshape.
  rewrite bool_decide_true by done. cbn [negb].
  apply mapM_Ok_fmap. intros b _.
  rewrite (mapM_Ok_fmap _ (score mlp_psd gvec psd_in F C b)); [done|].
  intros c _.
  rewrite (mapM_Ok_fmap _ (row_feature psd_in C b c)); [done|].
  intros f _. rewrite div_count_nonzero by lia. done.
Qed.

Lemma attention_forward_one_channel psd_in scaling B F :
  shape psd_in = (B, F, 1, 1) → 1 ≤ B → 1 ≤ F →
  forward mlp_psd gvec psd_in scaling = NonFinite.
Proof.
  intros Hshape HB HF. unfold forward. rewrite Hshape.
  destruct B as [|B]; [lia|]. destruct F as [|F]; [lia|]. reflexivity.
Qed.

Lemma attention_normalised psd_in scaling F C b :
  1 ≤ C → normalised C (attention mlp_psd gvec psd_in scaling F C b).
Proof.
  intros HC. unfold attention.
  set (xs := (λ x, scaling * x)%R <$> (score mlp_psd gvec psd_in F C b <$> seq 0 C)).
  assert (length xs = C) as Hlen by (unfold xs; by rewrite !length_fmap, length_seq).
  rewrite <- Hlen at 1. apply softmax_normalised.
  intros Hnil. rewrite Hnil in Hlen. simpl in Hlen. lia.
Qed.

(** C10: the row sums are divided by [C - 1] unguarded.  With one
    channel the divisor is zero and the result is not finite; with two
    or more the result is a finite vector of weights per batch
    element. *)
Theorem attention_reference_needs_two_channels psd_in scaling B F C :
  shape psd_in = (B, F, C, C) →
  (C = 1 → 1 ≤ B → 1 ≤ F → forward mlp_psd gvec psd_in scaling = NonFinite)
  ∧ (2 ≤ C →
     ∃ u, forward mlp_psd gvec psd_in scaling = Ok u
          ∧ length u = B ∧ Forall (normalised C) u).
Proof.
  intros Hshape. split.
  - intros -> HB HF. by apply (attention_forward_one_channel psd_in scaling B F).
  - intros HC. eexists. split; [by apply attention_forward_two_channels|].
    split; [by rewrite length_fmap, length_seq|].
    apply Forall_fmap, Forall_forall. intros b _. apply attention_normalised. lia.
Qed.

End Attention.

Lemma attention_reference_needs_two_channels_witness :
  ∃ u, AttentionReference.forward (λ x, x) (λ _, 0%R)
         (AttentionReference.Tensor4 (1, 1, 2, 2) (λ _ _ _ _, (1%R, 0%R))) 2
       = Ok u ∧ length u = 1.
Proof.
  destruct (attention_reference_needs_two_channels (λ x, x) (λ _, 0%R)
              (AttentionReference.Tensor4 (1, 1, 2, 2) (λ _ _ _ _, (1%R, 0%R))) 2 1 1 2
              eq_refl) as [_ Hok].
  destruct (Hok (le_n 2)) as (u & Hu & Hlen & _).
  by exists u.
Defined.

(** ** The reference vector of the beamformer *)

Section OneHot.
Import SpecAttention.

Lemma foldr_Rplus_zeros n : foldr Rplus 0%R (replicate n 0%R) = 0%R.
Proof. induction n as [|n IH]; simpl; [done|]. rewrite IH. lra. Qed.

Lemma filled_row_sum C k :
  k < C → foldr Rplus 0%R (<[k := 1%R]> (replicate C 0%R)) = 1%R.
Proof.
  revert k. induction C as [|C IH]; intros k Hk; [lia|].
  destruct k as [|k]; simpl.
  - rewrite foldr_Rplus_zeros. lra.
  - rewrite IH by lia. lra.
Qed.

Lemma filled_row_one_hot C k :
  k < C → <[k := 1%R]> (replicate C 0%R) = one_hot C k.
Proof.
  intros Hk. apply list_eq. intros c. unfold one_hot.
  rewrite list_lookup_fmap.
  destruct (decide (c < C)) as [Hc|Hc].
  - rewrite lookup_seq_lt by done. simpl.
    destruct (decide (c = k)) as [->|Hne].
    + rewrite list_lookup_insert_eq by (by rewrite length_replicate).
      by rewrite bool_decide_true.
    + rewrite list_lookup_insert_ne by done.
      rewrite lookup_replicate_2 by done. by rewrite bool_decide_false.
  - rewrite lookup_seq_ge by lia.
    apply lookup_ge_None_2. rewrite length_insert, length_replicate. lia.
Qed.

Lemma filled_row_normalised C k :
  k < C → normalised C (<[k := 1%R]> (replicate C 0%R)).
Proof.
  intros Hk. split; [by rewrite length_insert, length_replicate|].
  split; [|by apply filled_row_sum].
  rewrite filled_row_one_hot by done. unfold one_hot.
  apply Forall_fmap, Forall_forall. intros c _. simpl. case_bool_decide; lra.
Qed.

End OneHot.

Section ReferenceVector.
Import AttentionReference SpecAttention DNN_Beamformer.
Context {Data : Type}.
Context (mlp_psd : list R → list R) (gvec : list R → R).
Context (size : Data → nat * nat * nat * nat).

(** C8, with the channel conditions it needs: the reference vector is
    non-negative and sums to 1 over the channels when the fixed channel
    lies among the channels of the signal, where it is the one-hot
    vector of that channel, and when the attention mode runs on two or
    more channels, where it is the softmax of the attention scores. *)
Theorem reference_vector_normalised self (data : Data) psd_speech B F C T :
  size data = (B, F, C, T) → shape psd_speech = (B, F, C, C) →
  (0 ≤ ref_channel self < Z.of_nat C)%Z ∨ ((ref_channel self < 0)%Z ∧ 2 ≤ C) →
  ∃ u, reference_vector mlp_psd gvec size self data psd_speech = Ok u
       ∧ length u = B ∧ Forall (normalised C) u
       ∧ ((0 ≤ ref_channel self)%Z →
          Forall (λ row, row = one_hot C (Z.to_nat (ref_channel self))) u)
       ∧ ((ref_channel self < 0)%Z →
          AttentionReference.forward mlp_psd gvec psd_speech 2 = Ok u
          ∧ u = attention mlp_psd gvec psd_speech 2 F C <$> seq 0 B).
Proof.
  intros Hsize Hshape [Hfixed|[Hatt HC]]; unfold reference_vector.
  - rewrite bool_decide_false by lia. rewrite Hsize.
    rewrite wrap_index_mod by lia. rewrite Z.mod_small by lia. cbn.
    eexists. split; [done|]. rewrite length_replicate. split; [done|].
    split; [|split; [|lia]].
    + apply Forall_replicate, filled_row_normalised. lia.
    + intros _. apply Forall_replicate, filled_row_one_hot. lia.
  - rewrite bool_decide_true by done.
    rewrite (attention_forward_two_channels _ _ _ _ B F C) by done.
    eexists. split; [done|]. split; [by rewrite length_fmap, length_seq|].
    split; [|split; [lia|done]].
    apply Forall_fmap, Forall_forall. intros b _. apply attention_normalised. lia.
Qed.

End ReferenceVector.

Lemma reference_vector_normalised_witness :
  ∃ u, DNN_Beamformer.reference_vector (Data := unit) (λ x, x) (λ _, 0%R) (λ _, (1, 1, 2, 1))
         (DNN_Beamformer.Build 2 0 "mvdr" 0 5 3) ()
         (AttentionReference.Tensor4 (1, 1, 2, 2) (λ _ _ _ _, (1%R, 0%R)))
       = Ok u ∧ length u = 1.
Proof.
  destruct (reference_vector_normalised (Data := unit) (λ x, x) (λ _, 0%R) (λ _, (1, 1, 2, 1))
              (DNN_Beamformer.Build 2 0 "mvdr" 0 5 3) ()
              (AttentionReference.Tensor4 (1, 1, 2, 2) (λ _ _ _ _, (1%R, 0%R))) 1 1 2 1
              eq_refl eq_refl) as (u & Hu & Hlen & _).
  { left. simpl. lia. }
  by exists u.
Defined.

(** The attention mode on a single channel: the vector handed to the
    filter design is not finite, so it is no vector of non-negative
    weights summing to 1. *)
Lemma reference_vector_single_channel_not_finite :
  DNN_Beamformer.reference_vector (Data := unit) (λ x, x) (λ _, 0%R) (λ _, (1, 1, 1, 1))
    (DNN_Beamformer.Build 2 (-1) "mvdr" 0 5 3) ()
    (AttentionReference.Tensor4 (1, 1, 1, 1) (λ _ _ _ _, (1%R, 0%R)))
  = NonFinite
  ∧ ¬ ∃ u, DNN_Beamformer.reference_vector (Data := unit) (λ x, x) (λ _, 0%R)
             (λ _, (1, 1, 1, 1)) (DNN_Beamformer.Build 2 (-1) "mvdr" 0 5 3) ()
             (AttentionReference.Tensor4 (1, 1, 1, 1) (λ _ _ _ _, (1%R, 0%R)))
           = Ok u ∧ Forall (SpecAttention.normalised 1) u.
Proof.
  assert (DNN_Beamformer.reference_vector (Data := unit) (λ x, x) (λ _, 0%R) (λ _, (1, 1, 1, 1))
            (DNN_Beamformer.Build 2 (-1) "mvdr" 0 5 3) ()
            (AttentionReference.Tensor4 (1, 1, 1, 1) (λ _ _ _ _, (1%R, 0%R)))
          = NonFinite) as Hrun by reflexivity.
  split; [done|]. rewrite Hrun. by intros (u & [=] & _).
Qed.

(** ** Filter design per speaker *)

Lemma py_insert_delete {A} (l : list A) i x :
  l !! i = Some x → py_insert (delete i l) i x = l.
Proof.
  intros Hi. unfold py_insert. rewrite delete_take_drop.
  pose proof (lookup_lt_Some _ _ _ Hi) as Hlt.
  rewrite take_app_length' by (rewrite length_take; lia).
  rewrite drop_app_length' by (rewrite length_take; lia).
  by apply take_drop_middle.
Qed.

Section TensorSums.
Import TorchComplex AttentionReference DNN_Beamformer SpecDesign.

Lemma entry_fold_left_tadd xs x b f c e :
  entry (fold_left tadd xs x) b f c e
  = cadd (entry x b f c e) (foldr cadd (0%R, 0%R) ((λ p, entry p b f c e) <$> xs)).
Proof.
  revert x. induction xs as [|y xs IH]; intros x; cbn [fold_left].
  - destruct (entry x b f c e) as [re im]. unfold cadd. simpl. f_equal; lra.
  - rewrite IH, fmap_cons. cbn [foldr tadd entry]. unfold cadd. simpl. f_equal; lra.
Qed.

(** [sum(others) + psd_n], entry by entry. *)
Lemma entry_sum_plus psds noise i b f c e :
  entry (sum_plus (delete i psds) noise) b f c e = others_plus_noise psds noise i b f c e.
Proof.
  unfold others_plus_noise, sum_plus. destruct (delete i psds) as [|x xs].
  - destruct (entry noise b f c e). unfold cadd. simpl. f_equal; lra.
  - cbn [tadd entry]. rewrite entry_fold_left_tadd, fmap_cons. done.
Qed.

End TensorSums.

Section MultiSpeaker.
Import AttentionReference DNN_Beamformer SpecDesign.

Context {Data Ilens Mask Power Filter Enhanced : Type}.
Context (mlp_psd : list R → list R) (gvec : list R → R).
Context (mask_estimator : Data → Ilens → list Mask).
Context (size : Data → nat * nat * nat * nat) (permute_0321 : Data → Data).
Context (get_power_spectral_density_matrix : Data → Mask → tensor4).
Context (einsum_ct_et : Data → tensor4).
Context (power : Data → Power) (pmul : Power → Mask → Power).
Context (channel_mean : Power → Power) (reciprocal_clamp_min : Power → R → Power).
Context (get_covariances : Data → Power → Z → Z → tensor4).
Context (get_mvdr_vector : tensor4 → tensor4 → list (list R) → Filter).
Context (apply_beamforming_vector : Filter → Data → Enhanced).
Context (get_WPD_filter_v2 : tensor4 → tensor4 → list (list R) → Filter).
Context (perform_WPD_filtering : Filter → Data → Z → Z → Enhanced).
Context (transpose : Enhanced → Enhanced).

Abbreviation apply_beamforming' :=
  (apply_beamforming mlp_psd gvec size get_mvdr_vector apply_beamforming_vector
     get_WPD_filter_v2 perform_WPD_filtering).
Abbreviation speaker_step' :=
  (speaker_step mlp_psd gvec size get_mvdr_vector apply_beamforming_vector
     get_WPD_filter_v2 perform_WPD_filtering).
Abbreviation speaker_loop' :=
  (speaker_loop mlp_psd gvec size get_mvdr_vector apply_beamforming_vector
     get_WPD_filter_v2 perform_WPD_filtering transpose).
Abbreviation forward' :=
  (forward mlp_psd gvec mask_estimator size permute_0321
     get_power_spectral_density_matrix einsum_ct_et power pmul channel_mean
     reciprocal_clamp_min get_covariances get_mvdr_vector apply_beamforming_vector
     get_WPD_filter_v2 perform_WPD_filtering transpose).
Abbreviation interference' :=
  (interference get_power_spectral_density_matrix einsum_ct_et power pmul channel_mean
     reciprocal_clamp_min get_covariances).
Abbreviation wpd_covariance' :=
  (wpd_covariance power pmul channel_mean reciprocal_clamp_min get_covariances).

Abbreviation multi_noise_stat :=
  (multi_noise_stat get_power_spectral_density_matrix einsum_ct_et power pmul channel_mean
     reciprocal_clamp_min get_covariances).
Abbreviation design :=
  (design mlp_psd gvec size get_power_spectral_density_matrix einsum_ct_et power pmul
     channel_mean reciprocal_clamp_min get_covariances get_mvdr_vector
     apply_beamforming_vector get_WPD_filter_v2 perform_WPD_filtering).

Lemma speaker_step_design self data mask_speech mask_noise i :
  beamformer_type self ∈ supported → i < length mask_speech →
  speaker_step' self data (multi_noise_stat self data mask_speech mask_noise)
    (get_power_spectral_density_matrix data <$> mask_speech) i
  = (x ← design self data mask_speech mask_noise i;
     Ok (x.1, x.2, get_power_spectral_density_matrix data <$> mask_speech)).
Proof.
  intros Hbt Hi.
  destruct (lookup_lt_is_Some_2 mask_speech i Hi) as [mask_i Hmask].
  assert ((get_power_spectral_density_matrix data <$> mask_speech) !! i
          = Some (get_power_spectral_density_matrix data mask_i)) as Hpsd.
  { by rewrite list_lookup_fmap, Hmask. }
  unfold DNN_Beamformer.speaker_step, SpecDesign.design, py_pop.
  rewrite Hpsd, (py_getitem_Some _ _ _ Hmask). cbn.
  rewrite (py_insert_delete _ _ _ Hpsd).
  unfold SpecDesign.multi_noise_stat, interference.
  destruct (supported_cases _ Hbt) as [Heq|[Heq|Heq]]; rewrite Heq; cbn.
  - by destruct (apply_beamforming' _ _ _ _ _) as [[? ?]| |].
  - by destruct (apply_beamforming' _ _ _ _ _) as [[? ?]| |].
  - rewrite (py_getitem_Some _ i (wpd_covariance' self data mask_i))
      by (by rewrite list_lookup_fmap, Hmask).
    cbn. by destruct (apply_beamforming' _ _ _ _ _) as [[? ?]| |].
Qed.

Lemma speaker_loop_design self data mask_speech mask_noise todo enhanced ws :
  beamformer_type self ∈ supported →
  Forall (λ i, i < length mask_speech) todo →
  speaker_loop' self data (multi_noise_stat self data mask_speech mask_noise) todo
    (get_power_spectral_density_matrix data <$> mask_speech) enhanced ws
  = (results ← mapM (design self data mask_speech mask_noise) todo;
     Ok (enhanced ++ ((transpose ∘ fst) <$> results), ws ++ (snd <$> results))).
Proof.
  intros Hbt Htodo. revert enhanced ws.
  induction Htodo as [|i todo Hi _ IH]; intros enhanced ws.
  - cbn. by rewrite !app_nil_r.
  - cbn [DNN_Beamformer.speaker_loop mapM].
    rewrite speaker_step_design by done.
    destruct (design self data mask_speech mask_noise i) as [[enh w]| |]; cbn; [|done..].
    rewrite IH.
    destruct (mapM (design self data mask_speech mask_noise) todo) as [results| |];
      cbn; [|done..].
    by rewrite <- !app_assoc.
Qed.

(** C3, by beamformer type: with two or more speech masks and a noise
    mask, the filter of speaker [i] is designed from the PSD of its own
    mask and an interference covariance that depends on the type: the
    other speakers' PSDs summed with the PSD of the noise mask for mvdr,
    the covariance of the observed signal alone for mpdr, the
    power-weighted covariance of the speaker's own mask alone for wpd. *)
Theorem multi_speaker_filter_design self data ilens mask_speech mask_noise :
  mask_estimator (permute_0321 data) ilens = mask_speech ++ [mask_noise] →
  2 ≤ length mask_speech →
  nmask self = Z.of_nat (length mask_speech + 1) →
  beamformer_type self ∈ ["mvdr"; "mpdr"; "wpd"] →
  forward' self data ilens
  = (results ←
       mapM (λ i,
         mask_i ← py_getitem mask_speech i;
         apply_beamforming' self (permute_0321 data)
           (get_power_spectral_density_matrix (permute_0321 data) mask_i)
           (interference' self (permute_0321 data) mask_speech mask_noise i mask_i)
           (beamformer_type self))
         (seq 0 (length mask_speech));
     Ok (Many ((transpose ∘ fst) <$> results), ilens, mask_speech ++ [mask_noise]))
  ∧ ∀ i mask_i,
      (beamformer_type self = "mvdr" →
       ∀ b f c e,
         entry (interference' self (permute_0321 data) mask_speech mask_noise i mask_i) b f c e
         = others_plus_noise
             (get_power_spectral_density_matrix (permute_0321 data) <$> mask_speech)
             (get_power_spectral_density_matrix (permute_0321 data) mask_noise) i b f c e)
      ∧ (beamformer_type self = "mpdr" →
         interference' self (permute_0321 data) mask_speech mask_noise i mask_i
         = einsum_ct_et (permute_0321 data))
      ∧ (beamformer_type self = "wpd" →
         interference' self (permute_0321 data) mask_speech mask_noise i mask_i
         = wpd_covariance' self (permute_0321 data) mask_i).
Proof.
  intros Hmasks HK Hn Hbt. split.
  - unfold DNN_Beamformer.forward. rewrite Hmasks, length_app. cbn [length].
    rewrite bool_decide_true by done. cbn [negb].
    rewrite bool_decide_false by lia.
    rewrite last_snoc. replace (length mask_speech + 1 - 1) with (length mask_speech) by lia.
    rewrite take_app_length.
    replace (Z.to_nat (nmask self - 1)) with (length mask_speech) by lia.
    pose proof (speaker_loop_design self (permute_0321 data) mask_speech mask_noise
                  (seq 0 (length mask_speech)) [] [] Hbt) as Hloop.
    unfold SpecDesign.multi_noise_stat in Hloop. unfold Itertools.range.
    destruct (supported_cases _ Hbt) as [Heq|[Heq|Heq]]; rewrite Heq in *; cbn in *;
      (rewrite Hloop by (apply Forall_forall; intros i Hi%elem_of_seq; lia));
      unfold SpecDesign.design; rewrite Heq;
      match goal with |- context [mapM ?f ?l] => by destruct (mapM f l) end.
  - intros i mask_i. unfold interference. split; [|split]; intros ->; cbn; [|done..].
    intros b f c e. apply entry_sum_plus.
Qed.

End MultiSpeaker.

(** ** The toy instance *)

Import AttentionReference DNN_Beamformer SpecDesign.

Lemma multi_speaker_filter_design_witness :
  ∃ enhanced, toy_forward (Build 3 0 "mvdr" 0 5 3) = Ok (Many enhanced, (), [1%R; 2%R; 3%R])
              ∧ length enhanced = 2.
Proof.
  destruct (multi_speaker_filter_design (Data := unit) (Ilens := unit) (Mask := R) (Power := unit)
    (λ x, x) (λ _, 0%R) (λ _ _, [1%R; 2%R; 3%R]) (λ _, (1, 1, 1, 1)) (λ d, d)
    (λ _ m, toy_psd m) (λ _, toy_psd 7) (λ _, ()) (λ _ _, ()) (λ p, p) (λ p _, p)
    (λ _ _ _ _, toy_psd 11) (λ _ psd_n _, psd_n) (λ ws _, ws)
    (λ _ psd_n _, psd_n) (λ ws _ _ _, ws) (λ e, e)
    (Build 3 0 "mvdr" 0 5 3) () () [1%R; 2%R] 3%R) as [Hrun _].
  - reflexivity.
  - simpl. lia.
  - reflexivity.
  - simpl. apply list_elem_of_here.
  - eexists. split; [exact Hrun|reflexivity].
Defined.

(** With type mpdr and two speakers, the filter of speaker 0 is designed
    with interference entry 7, the covariance of the observed signal;
    the other speaker's PSD plus the noise PSD would be 2 + 3, and the
    other speaker's PSD plus the observed covariance 2 + 7. *)
Lemma mpdr_interference_ignores_other_speakers :
  ∃ e0 e1,
    toy_forward (Build 3 0 "mpdr" 0 5 3) = Ok (Many [e0; e1], (), [1%R; 2%R; 3%R])
    ∧ (entry e0 0 0 0 0).1 = 7%R
    ∧ (others_plus_noise [toy_psd 1; toy_psd 2] (toy_psd 3) 0 0 0 0 0).1 = 5%R
    ∧ (others_plus_noise [toy_psd 1; toy_psd 2] (toy_psd 7) 0 0 0 0 0).1 = 9%R.
Proof.
  eexists _, _. split; [reflexivity|]. split; [reflexivity|].
  unfold others_plus_noise. cbn. split; lra.
Qed.

(** With type wpd the interference is the covariance weighted by the
    speaker's own mask (entry 11 here), again without the other
    speaker. *)
Example wpd_interference_is_own_covariance :
  ∃ e0 e1,
    toy_forward (Build 3 0 "wpd" 0 5 3) = Ok (Many [e0; e1], (), [1%R; 2%R; 3%R])
    ∧ (entry e0 0 0 0 0).1 = 11%R.
Proof. eexists _, _. split; reflexivity. Qed.

(** With type mvdr it is the sum over the other speakers plus the noise PSD. *)
Example mvdr_interference_adds_other_speakers :
  ∃ e0 e1,
    toy_forward (Build 3 0 "mvdr" 0 5 3) = Ok (Many [e0; e1], (), [1%R; 2%R; 3%R])
    ∧ (entry e0 0 0 0 0).1 = (2 + 3)%R ∧ (entry e1 0 0 0 0).1 = (1 + 3)%R.
Proof. eexists _, _. split; [reflexivity|]. split; reflexivity. Qed.

(** * Further properties of the code *)

(** ** The permutation loss: edge cases and tie-breaking *)

Lemma mapM_ext_elem {A C} (f g : A → result C) (l : list A) :
  (∀ x, x ∈ l → f x = g x) → mapM f l = mapM g l.
Proof.
  induction l as [|x l IH]; intros Hfg; [done|].
  cbn [mapM]. rewrite (Hfg x) by (by left).
  rewrite IH; [done|]. intros y Hy. apply Hfg. by right.
Qed.

Lemma mapM_head_Raise {A C} (f : A → result C) x (l : list A) e :
  f x = Raise e → mapM f (x :: l) = Raise e.
Proof. intros Hx. cbn [mapM]. by rewrite Hx. Qed.

(** The first failure decides: when every element either succeeds or
    raises [e], and one raises, the whole comprehension raises [e]. *)
Lemma mapM_Raise {A C} (f : A → result C) (l : list A) e :
  (∀ x, x ∈ l → (∃ y, f x = Ok y) ∨ f x = Raise e) →
  (∃ x, x ∈ l ∧ f x = Raise e) →
  mapM f l = Raise e.
Proof.
  induction l as [|x l IH]; intros Hall [z [Hz Hfz]].
  { by apply elem_of_nil in Hz. }
  destruct (Hall x) as [[y Hy]|Hx]; [by left| |by apply mapM_head_Raise].
  cbn [mapM]. rewrite Hy. cbn.
  rewrite IH; [done| |].
  - intros w Hw. apply Hall. by right.
  - apply elem_of_cons in Hz as [->|Hz]; [congruence|]. by exists z.
Qed.

(** The enumeration starts with the pool itself: position 0 is the
    identity assignment. *)
Lemma permutations_head {A} (pool : list A) :
  ∃ rest, permutations pool = pool :: rest.
Proof.
  unfold permutations. induction pool as [|x xs [rest IH]]; [by exists []|].
  cbn [length permutations_of_length selections].
  rewrite bind_cons. rewrite IH. rewrite fmap_cons. cbn [app].
  by eexists.
Qed.

(** The scan keeps the first minimum: an index that replaces the
    current best holds a strictly smaller value than everything before
    it. *)
Lemma argmin_from_first row : ∀ best besti i m j,
  Torch.argmin_from best besti i row = (m, j) →
  (m = best ∧ j = besti)
  ∨ ∃ k, j = i + k ∧ row !! k = Some m ∧ (m < best)%R
         ∧ ∀ k' x, k' < k → row !! k' = Some x → (m < x)%R.
Proof.
  induction row as [|x row IH]; intros best besti i m j; simpl.
  - intros [= <- <-]. by left.
  - destruct (Rlt_dec x best) as [Hlt|Hge]; intros Hrun;
      pose proof (argmin_from_spec _ _ _ _ _ _ Hrun) as (Hle & _ & _);
      destruct (IH _ _ _ _ _ Hrun) as [[-> ->]|(k & -> & Hk & Hlt' & Hbefore)].
    + right. exists 0. split; [lia|]. split; [done|]. split; [done|]. lia.
    + right. exists (S k). split; [lia|]. split; [done|]. split; [lra|].
      intros [|k'] y Hk' Hy; simpl in Hy.
      * injection Hy as <-. done.
      * apply (Hbefore k'); [lia|done].
    + by left.
    + right. exists (S k). split; [lia|]. split; [done|]. split; [done|].
      intros [|k'] y Hk' Hy; simpl in Hy.
      * injection Hy as <-. lra.
      * apply (Hbefore k'); [lia|done].
Qed.

Lemma row_min_first row :
  row ≠ [] →
  ∃ m j, Torch.row_min row = Ok (m, Z.of_nat j)
         ∧ row !! j = Some m
         ∧ (∀ x, x ∈ row → (m <= x)%R)
         ∧ ∀ j' x, j' < j → row !! j' = Some x → (m < x)%R.
Proof.
  destruct row as [|x row]; [done|]. intros _. unfold Torch.row_min.
  destruct (Torch.argmin_from x 0 1 row) as [m j] eqn:Hrun.
  pose proof (argmin_from_spec _ _ _ _ _ _ Hrun) as (Hle & Hall & _).
  apply argmin_from_first in Hrun as [[-> ->]|(k & -> & Hk & Hlt & Hbefore)].
  - exists x, 0. split; [done|]. split; [done|]. split; [|lia].
    intros y [->|Hy]%elem_of_cons; [lra|by apply Hall].
  - exists m, (1 + k). split; [done|]. split; [done|]. split.
    + intros y [->|Hy]%elem_of_cons; [lra|by apply Hall].
    + intros [|j'] y Hj' Hy; simpl in Hy.
      * injection Hy as <-. done.
      * apply (Hbefore j'); [lia|done].
Qed.

Section PitEdges.
Context {T : Type} (B : nat) (criterion : T → T → nat → R).
Implicit Types (ref inf : list T) (p π : list nat).

Lemma pit_search_first ref inf :
  1 ≤ length ref → length inf = length ref → 1 ≤ B →
  ∃ picks,
    ESPnetEnhancementModel._permutation_loss B criterion ref inf None true
    = Ok (batch_mean picks.*1, picks.*2)
    ∧ Forall2 (SpecTieBreak.first_pick criterion ref inf) (seq 0 B) picks.
Proof.
  intros HK Hinf HB.
  destruct (stacked_losses B criterion ref inf HK Hinf) as [cols [Hcols Hstack]].
  destruct (mapM_Ok_Forall2 Torch.row_min
              (λ row pick, ∃ j, pick.2 = Z.of_nat j ∧ row !! j = Some pick.1
                                ∧ (∀ x, x ∈ row → (pick.1 <= x)%R)
                                ∧ ∀ j' x, j' < j → row !! j' = Some x → (pick.1 < x)%R)
              (loss_row criterion ref inf <$> seq 0 B)) as [picks [Hpicks Hall]].
  { intros row [b [-> _]]%list_elem_of_fmap.
    destruct (row_min_first (loss_row criterion ref inf b))
      as (m & j & Hrun & Hj & Hmin & Hfirst).
    - intros Hnil. pose proof (loss_row_length criterion ref inf b) as Hlen.
      rewrite Hnil in Hlen. pose proof (lt_O_fact (length ref)). simpl in Hlen. lia.
    - exists (m, Z.of_nat j). split; [done|]. by exists j. }
  exists picks. split.
  - unfold ESPnetEnhancementModel._permutation_loss.
    rewrite Hcols. cbn. rewrite Hstack. cbn.
    unfold Torch.min_dim1. rewrite Hpicks. cbn.
    assert (length picks.*1 = B) as Hlen.
    { rewrite length_fmap, <- (Forall2_length _ _ _ Hall), length_fmap. apply length_seq. }
    rewrite mean_nonempty by lia. reflexivity.
  - apply Forall2_fmap_l in Hall. exact Hall.
Qed.

End PitEdges.

Lemma batch_mean_zeros (xs : list R) : Forall (λ x, x = 0%R) xs → batch_mean xs = 0%R.
Proof.
  intros Hall. unfold batch_mean.
  assert (foldr Rplus 0%R xs = 0%R) as ->.
  { induction Hall as [|x xs -> _ IH]; simpl; [done|]. rewrite IH. lra. }
  unfold Rdiv. ring.
Qed.

Lemma foldr_Rplus_nonneg (xs : list R) :
  Forall (λ x, 0 <= x)%R xs → (0 <= foldr Rplus 0 xs)%R.
Proof. induction 1; simpl; lra. Qed.

(** Reading back what the row minimum returned. *)
Lemma min_dim1_index_rows (losses : list (list R)) (loss : list R) (perm : list Z) :
  Torch.min_dim1 losses = Ok (loss, perm) → Torch.index_rows losses perm = Ok loss.
Proof.
  unfold Torch.min_dim1. intros Hmin.
  destruct (mapM Torch.row_min losses) as [picks| |] eqn:Hpicks; try done.
  cbn in Hmin. injection Hmin as <- <-.
  assert (length picks = length losses
          ∧ ∀ b row pick, losses !! b = Some row → picks !! b = Some pick →
              ∃ j, pick.2 = Z.of_nat j ∧ row !! j = Some pick.1) as [Hlen Hpick].
  { clear -Hpicks. revert picks Hpicks.
    induction losses as [|row losses IH]; intros picks Hpicks.
    - cbn in Hpicks. injection Hpicks as <-. by split.
    - cbn [mapM] in Hpicks.
      destruct (Torch.row_min row) as [pick| |] eqn:Hrow; try done. cbn in Hpicks.
      destruct (mapM Torch.row_min losses) as [picks'| |]; try done.
      cbn in Hpicks. injection Hpicks as <-.
      destruct (IH picks' eq_refl) as [Hlen Hpick]. split; [simpl; lia|].
      intros [|b] row' pick' Hr Hp; simpl in Hr, Hp.
      + injection Hr as <-. injection Hp as <-.
        destruct row as [|x row]; [done|].
        destruct (row_min_spec (x :: row)) as (m & j & Hrun & Hj & _); [done|].
        rewrite Hrun in Hrow. injection Hrow as <-. by exists j.
      + by apply (Hpick b). }
  unfold Torch.index_rows. rewrite length_fmap.
  rewrite bool_decide_true by done.
  rewrite (mapM_Ok_fmap _ (λ bj : nat * Z, default 0%R (picks.*1 !! bj.1))).
  - f_equal. apply list_eq. intros b. rewrite !list_lookup_fmap.
    destruct (picks !! b) as [pick|] eqn:Hb; simpl.
    + assert (b < length losses) as Hlt by (rewrite <- Hlen; by eapply lookup_lt_Some).
      assert (zip (seq 0 (length losses)) picks.*2 !! b = Some (b, pick.2)) as ->.
      { apply lookup_zip_Some. rewrite lookup_seq_lt by done.
        by rewrite list_lookup_fmap, Hb. }
      simpl. by rewrite list_lookup_fmap, Hb.
    + assert (zip (seq 0 (length losses)) picks.*2 !! b = None) as ->; [|done].
      apply lookup_zip_None. right. by rewrite list_lookup_fmap, Hb.
  - intros [b j] Hbj. apply list_elem_of_lookup in Hbj as [i Hi].
    apply lookup_zip_Some in Hi as [Hb Hj].
    apply lookup_seq in Hb as [-> Hlt]. simpl in *.
    rewrite list_lookup_fmap in Hj.
    destruct (picks !! i) as [pick|] eqn:Hpi; [|done]. injection Hj as <-.
    destruct (lookup_lt_is_Some_2 losses i Hlt) as [row Hrow].
    destruct (Hpick i row pick Hrow Hpi) as (k & Hk & Hval).
    unfold Torch.getitem2. rewrite (py_getitem_Some _ _ _ Hrow). cbn.
    unfold Torch.wrap_index. rewrite Hk.
    rewrite bool_decide_true by (apply lookup_lt_Some in Hval; lia).
    cbn. rewrite Nat2Z.id, (py_getitem_Some _ _ _ Hval).
    by rewrite list_lookup_fmap, Hpi.
Qed.

Section PitExtras.
Context {T : Type} (B : nat) (criterion : T → T → nat → R).
Implicit Types (ref inf : list T) (p π : list nat).

Lemma pair_loss_take ref inf p :
  (∀ t, t ∈ p → t < length ref) →
  ESPnetEnhancementModel.pair_loss criterion ref inf p
  = ESPnetEnhancementModel.pair_loss criterion ref (take (length ref) inf) p.
Proof.
  intros Hp. unfold ESPnetEnhancementModel.pair_loss.
  rewrite (mapM_ext_elem _
    (λ '(s, t), r ← py_getitem ref s; h ← py_getitem (take (length ref) inf) t;
                Ok (criterion r h))); [done|].
  intros [s t] (i & y & [= -> ->] & Hi)%elem_of_lookup_imap_1.
  assert (py_getitem (take (length ref) inf) y = py_getitem inf y) as ->; [|done].
  unfold py_getitem. rewrite lookup_take_lt; [done|].
  apply Hp. by eapply list_elem_of_lookup_2.
Qed.

Lemma pair_loss_missing ref inf :
  length inf < length ref →
  ESPnetEnhancementModel.pair_loss criterion ref inf (range (length ref))
  = Raise IndexError.
Proof.
  intros Hlt. unfold ESPnetEnhancementModel.pair_loss.
  rewrite (mapM_Raise _ _ IndexError); [done| |].
  - intros [s t] (i & y & [= -> ->] & Hi)%elem_of_lookup_imap_1.
    apply lookup_seq in Hi as [-> Hi]. simpl in *.
    destruct (lookup_lt_is_Some_2 ref i Hi) as [r Hr].
    rewrite (py_getitem_Some _ _ _ Hr). cbn.
    unfold py_getitem. destruct (inf !! i); [left; by eexists|by right].
  - exists (length inf, length inf). split.
    + apply (elem_of_lookup_imap_2 pair _ (length inf) (length inf)).
      by apply lookup_seq_lt.
    + destruct (lookup_lt_is_Some_2 ref (length inf) Hlt) as [r Hr].
      rewrite (py_getitem_Some _ _ _ Hr). cbn.
      unfold py_getitem. by rewrite lookup_ge_None_2.
Qed.

(** X1: with a single reference and a single hypothesis the search has
    one candidate.  The loss is the batch mean of the criterion applied
    to the two, and every returned index is 0. *)
Theorem permutation_loss_single_speaker (r h : T) :
  1 ≤ B →
  ESPnetEnhancementModel._permutation_loss B criterion [r] [h] None true
  = Ok (batch_mean (criterion r h <$> seq 0 B), replicate B 0%Z)
  ∧ ESPnetFrontendModel._permutation_loss B criterion [r] [h] None
    = Ok (batch_mean (criterion r h <$> seq 0 B), replicate B 0%Z)
  ∧ ESPnetEnhancementModel._permutation_loss B criterion [r] [h] None false
    = Ok (batch_mean (criterion r h <$> seq 0 B), [0%Z]).
Proof.
  intros HB.
  assert (∀ b, ((0 + criterion r h b) / 1)%R = criterion r h b) as Hval.
  { intros b. lra. }
  assert (ESPnetEnhancementModel._permutation_loss B criterion [r] [h] None true
          = Ok (batch_mean (criterion r h <$> seq 0 B), replicate B 0%Z)) as Hrun.
  { unfold ESPnetEnhancementModel._permutation_loss. cbn -[Torch.min_dim1].
    unfold Torch.min_dim1.
    rewrite (mapM_Ok_fmap _ (λ row : list R, (default 0%R (head row), 0%Z))).
    2:{ intros row [b [-> _]]%list_elem_of_fmap. reflexivity. }
    cbn. rewrite <- !list_fmap_compose.
    rewrite mean_nonempty by (rewrite length_fmap, length_seq; lia). cbn.
    f_equal. f_equal.
    - f_equal. apply list_fmap_ext. intros _ b _. simpl. apply Hval.
    - rewrite (const_fmap _ _ 0%Z) by done. by rewrite length_seq. }
  split; [exact Hrun|]. split.
  - by rewrite frontend_permutation_loss.
  - unfold ESPnetEnhancementModel._permutation_loss. cbn.
    rewrite mean_nonempty by (rewrite length_fmap, length_seq; lia). cbn.
    do 3 f_equal. apply list_fmap_ext. intros _ b _. apply Hval.
Qed.

(** X2: degenerate lists.  Without any reference the mean over the
    speakers divides by the length of the empty assignment, and the call
    raises ZeroDivisionError whatever the other arguments are.  With
    fewer hypotheses than references the first assignment tried, the
    identity, indexes past the end of the hypotheses, and the call
    raises IndexError. *)
Theorem permutation_loss_degenerate_lists ref inf
    (perm : option (list Z)) (use_pit : bool) :
  (ESPnetEnhancementModel._permutation_loss B criterion [] inf perm use_pit
   = Raise ZeroDivisionError
   ∧ ESPnetFrontendModel._permutation_loss B criterion [] inf perm
     = Raise ZeroDivisionError)
  ∧ (length inf < length ref →
     ESPnetEnhancementModel._permutation_loss B criterion ref inf perm use_pit
     = Raise IndexError
     ∧ ESPnetFrontendModel._permutation_loss B criterion ref inf perm
       = Raise IndexError).
Proof.
  split.
  { split; [|rewrite frontend_permutation_loss]; by destruct use_pit. }
  intros Hlt.
  assert (ESPnetEnhancementModel._permutation_loss B criterion ref inf perm true
          = Raise IndexError) as Hpit.
  { unfold ESPnetEnhancementModel._permutation_loss.
    destruct (permutations_head (range (length ref))) as [rest ->].
    by rewrite (mapM_head_Raise _ _ _ IndexError) by by apply pair_loss_missing. }
  split; [|by rewrite frontend_permutation_loss].
  destruct use_pit; [done|].
  unfold ESPnetEnhancementModel._permutation_loss.
  by rewrite pair_loss_missing.
Qed.

(** X3: hypotheses beyond the number of references are never read:
    dropping them changes nothing. *)
Theorem permutation_loss_ignores_surplus_hypotheses ref inf
    (perm : option (list Z)) (use_pit : bool) :
  ESPnetEnhancementModel._permutation_loss B criterion ref inf perm use_pit
  = ESPnetEnhancementModel._permutation_loss B criterion ref
      (take (length ref) inf) perm use_pit
  ∧ ESPnetFrontendModel._permutation_loss B criterion ref inf perm
    = ESPnetFrontendModel._permutation_loss B criterion ref (take (length ref) inf) perm.
Proof.
  assert (∀ use_pit,
    ESPnetEnhancementModel._permutation_loss B criterion ref inf perm use_pit
    = ESPnetEnhancementModel._permutation_loss B criterion ref
        (take (length ref) inf) perm use_pit) as Hrun.
  { intros [|]; unfold ESPnetEnhancementModel._permutation_loss.
    - rewrite (mapM_ext_elem _
        (ESPnetEnhancementModel.pair_loss criterion ref (take (length ref) inf))); [done|].
      intros p Hp%permutations_spec. apply pair_loss_take.
      intros t Ht. by apply (is_permutation_lt _ p).
    - rewrite pair_loss_take; [done|]. intros t Ht%elem_of_seq. lia. }
  split; [apply Hrun|]. rewrite !frontend_permutation_loss. apply Hrun.
Qed.

(** X4: ties go to the first candidate.  The index returned for an
    example is the position, in the lexicographic enumeration, of the
    first assignment that attains the minimum: every assignment listed
    before it has a strictly larger aggregate distortion.  The
    enumeration starts with the identity, so an example for which the
    identity assignment is optimal gets index 0, also when other
    assignments tie with it. *)
Theorem permutation_loss_first_minimum ref inf :
  1 ≤ length ref → length inf = length ref → 1 ≤ B →
  ∃ (loss : R) (perm : list Z),
    ESPnetEnhancementModel._permutation_loss B criterion ref inf None true = Ok (loss, perm)
    ∧ ESPnetFrontendModel._permutation_loss B criterion ref inf None = Ok (loss, perm)
    ∧ length perm = B
    ∧ (∀ b j, perm !! b = Some j →
         ∃ π, (0 ≤ j)%Z
           ∧ permutations (range (length ref)) !! Z.to_nat j = Some π
           ∧ ∀ j' π', j' < Z.to_nat j →
               permutations (range (length ref)) !! j' = Some π' →
               (aggregate_distortion criterion ref inf π b
                < aggregate_distortion criterion ref inf π' b)%R)
    ∧ permutations (range (length ref)) !! 0 = Some (seq 0 (length ref))
    ∧ ∀ b, b < B →
        (∀ π, is_permutation (length ref) π →
           (aggregate_distortion criterion ref inf (seq 0 (length ref)) b
            <= aggregate_distortion criterion ref inf π b)%R) →
        perm !! b = Some 0%Z.
Proof.
  intros HK Hinf HB.
  destruct (pit_search_first B criterion ref inf HK Hinf HB) as [picks [Hrun Hall]].
  destruct (permutations_head (range (length ref))) as [rest Hhead].
  exists (batch_mean picks.*1), picks.*2.
  split; [done|]. split; [by rewrite frontend_permutation_loss|]. split.
  { rewrite length_fmap, <- (Forall2_length _ _ _ Hall). apply length_seq. }
  split; [|split; [by rewrite Hhead|]].
  - intros b j Hj. rewrite list_lookup_fmap in Hj.
    destruct (picks !! b) as [pick|] eqn:Hb; [|done]. injection Hj as <-.
    pose proof (proj1 (Forall2_lookup _ _ _) Hall b) as Hrel.
    rewrite Hb in Hrel. inversion Hrel as [b' pick' Hpick Hseq|]; subst.
    symmetry in Hseq. apply lookup_seq in Hseq as [-> _]. simpl in Hpick.
    destruct Hpick as (k & Hk & Hval & _ & Hfirst).
    unfold Spec.loss_row in Hval. rewrite list_lookup_fmap in Hval.
    destruct (permutations (range (length ref)) !! k) as [π|] eqn:Hπ; [|done].
    injection Hval as Hval.
    exists π. rewrite Hk, Nat2Z.id. split; [lia|]. split; [done|].
    intros j' π' Hj' Hπ'. rewrite Hval. apply (Hfirst j'); [done|].
    unfold Spec.loss_row. by rewrite list_lookup_fmap, Hπ'.
  - intros b Hb Hid.
    destruct (Forall2_lookup_l _ _ _ b b Hall) as [pick [Hpick Hp]];
      [by apply lookup_seq_lt|].
    rewrite list_lookup_fmap, Hpick. simpl. f_equal.
    destruct Hp as (k & -> & Hval & Hmin & Hfirst).
    destruct k as [|k]; [done|]. exfalso.
    assert (loss_row criterion ref inf b !! 0
            = Some (aggregate_distortion criterion ref inf (seq 0 (length ref)) b)) as H0.
    { unfold Spec.loss_row. by rewrite Hhead. }
    pose proof (Hfirst 0 _ (Nat.lt_0_succ k) H0) as Hlt.
    unfold Spec.loss_row in Hval. rewrite list_lookup_fmap in Hval.
    destruct (permutations (range (length ref)) !! S k) as [π|] eqn:Hπ; [|done].
    injection Hval as Hval. rewrite <- Hval in Hlt.
    assert (is_permutation (length ref) π) as Hperm.
    { apply permutations_spec. by eapply list_elem_of_lookup_2. }
    specialize (Hid π Hperm). lra.
Qed.

(** X5: the indices a search returned can be passed back as [perm]:
    the second call reads the same entries and returns the same loss and
    the same indices. *)
Theorem permutation_loss_reuses_searched_permutation ref inf (loss : R) (perm : list Z) :
  ESPnetEnhancementModel._permutation_loss B criterion ref inf None true = Ok (loss, perm) →
  ESPnetEnhancementModel._permutation_loss B criterion ref inf (Some perm) true
  = Ok (loss, perm)
  ∧ ESPnetFrontendModel._permutation_loss B criterion ref inf (Some perm)
    = Ok (loss, perm).
Proof.
  intros Hrun.
  assert (ESPnetEnhancementModel._permutation_loss B criterion ref inf (Some perm) true
          = Ok (loss, perm)) as Hfix; [|by rewrite frontend_permutation_loss].
  unfold ESPnetEnhancementModel._permutation_loss in *.
  destruct (mapM _ _) as [cols| |]; try done. cbn in *.
  destruct (Torch.stack_dim1 B cols) as [losses| |]; try done. cbn in *.
  destruct (Torch.min_dim1 losses) as [[vals idx]| |] eqn:Hmin; try done. cbn in Hrun.
  destruct (Torch.mean vals) as [m| |] eqn:Hmean; try done. cbn in Hrun.
  injection Hrun as <- <-.
  rewrite (min_dim1_index_rows _ _ _ Hmin). cbn. by rewrite Hmean.
Qed.

(** X6: a supplied index outside [-K!, K!) is not wrapped or clipped:
    the call raises IndexError. *)
Theorem permutation_loss_index_out_of_range ref inf (perm : list Z) (j : Z) :
  1 ≤ length ref → length inf = length ref → length perm = B →
  j ∈ perm →
  (j < - Z.of_nat (fact (length ref)) ∨ Z.of_nat (fact (length ref)) ≤ j)%Z →
  ESPnetEnhancementModel._permutation_loss B criterion ref inf (Some perm) true
  = Raise IndexError
  ∧ ESPnetFrontendModel._permutation_loss B criterion ref inf (Some perm)
    = Raise IndexError.
Proof.
  intros HK Hinf Hperm Hj Hout.
  assert (ESPnetEnhancementModel._permutation_loss B criterion ref inf (Some perm) true
          = Raise IndexError) as Hfix; [|by rewrite frontend_permutation_loss].
  destruct (stacked_losses B criterion ref inf HK Hinf) as [cols [Hcols Hstack]].
  unfold ESPnetEnhancementModel._permutation_loss.
  rewrite Hcols. cbn. rewrite Hstack. cbn.
  unfold Torch.index_rows. rewrite length_fmap, length_seq.
  rewrite bool_decide_true by done.
  rewrite (mapM_Raise _ _ IndexError); [done| |].
  - intros [b i] Hbi.
    assert (b < B) as Hb by (apply elem_of_zip_l, elem_of_seq in Hbi; lia).
    destruct (decide (- Z.of_nat (fact (length ref)) ≤ i < Z.of_nat (fact (length ref)))%Z)
      as [Hin|Hnot].
    + left. destruct (getitem2_loss_row B criterion ref inf b i Hb Hin) as [v [Hv _]].
      by exists v.
    + right. unfold Torch.getitem2.
      rewrite (py_getitem_Some _ b (loss_row criterion ref inf b)).
      2:{ rewrite list_lookup_fmap, lookup_seq_lt by done. done. }
      cbn. rewrite loss_row_length. unfold Torch.wrap_index.
      by rewrite !bool_decide_false by lia.
  - apply list_elem_of_lookup in Hj as [b Hb].
    assert (b < B) as Hlt by (rewrite <- Hperm; by eapply lookup_lt_Some).
    exists (b, j). split.
    + apply list_elem_of_lookup. exists b. apply lookup_zip_Some.
      by rewrite lookup_seq_lt.
    + unfold Torch.getitem2.
      rewrite (py_getitem_Some _ b (loss_row criterion ref inf b)).
      2:{ rewrite list_lookup_fmap, lookup_seq_lt by done. done. }
      cbn. rewrite loss_row_length. unfold Torch.wrap_index.
      by rewrite !bool_decide_false by lia.
Qed.

(** X7: for a criterion that is never negative and vanishes on equal
    arguments, hypotheses that are the references in another order give
    the loss 0. *)
Theorem permutation_loss_zero_on_reordered_references ref inf π :
  (∀ r h b, (0 <= criterion r h b)%R) →
  (∀ r b, criterion r r b = 0%R) →
  1 ≤ length ref → length inf = length ref → 1 ≤ B →
  is_permutation (length ref) π →
  (∀ i t, π !! i = Some t → inf !! t = ref !! i) →
  ∃ perm : list Z,
    ESPnetEnhancementModel._permutation_loss B criterion ref inf None true = Ok (0%R, perm)
    ∧ ESPnetFrontendModel._permutation_loss B criterion ref inf None = Ok (0%R, perm).
Proof.
  intros Hpos Hzero HK Hinf HB Hπ Hsame.
  destruct (pit_search B criterion ref inf HK Hinf HB) as [picks [Hrun Hall]].
  assert (∀ π' b, (0 <= aggregate_distortion criterion ref inf π' b)%R) as Hagg.
  { intros π' b. unfold aggregate_distortion.
    apply Rmult_le_pos.
    - apply Rlt_le, Rdiv_lt_0_compat; [lra|]. apply lt_0_INR. lia.
    - apply foldr_Rplus_nonneg. apply Forall_forall.
      intros x Hx. apply list_elem_of_lookup in Hx as [i Hi].
      apply lookup_zip_with_Some in Hi as (r & t & -> & _ & _).
      unfold pair_cost. destruct (inf !! t); [apply Hpos|lra]. }
  assert (∀ b, aggregate_distortion criterion ref inf π b = 0%R) as Hπ0.
  { intros b. unfold aggregate_distortion.
    assert (Forall (λ x, x = 0%R) (zip_with (pair_cost criterion inf b) ref π)) as Hz.
    { apply Forall_forall. intros x Hx. apply list_elem_of_lookup in Hx as [i Hi].
      apply lookup_zip_with_Some in Hi as (r & t & -> & Hr & Ht).
      unfold pair_cost. rewrite (Hsame i t Ht), Hr. apply Hzero. }
    assert (foldr Rplus 0%R (zip_with (pair_cost criterion inf b) ref π) = 0%R) as ->.
    { induction Hz as [|x xs -> _ IH]; simpl; [done|]. rewrite IH. lra. }
    ring. }
  assert (batch_mean picks.*1 = 0%R) as Hmean.
  { apply batch_mean_zeros. apply Forall_fmap, Forall_forall. intros pick Hpick.
    apply list_elem_of_lookup in Hpick as [b Hb].
    destruct (Forall2_lookup_r _ _ _ b pick Hall Hb) as [b' [Hb' Hp]].
    destruct Hp as (j & π' & -> & _ & [_ Hmin]). simpl.
    specialize (Hmin π Hπ). rewrite Hπ0 in Hmin.
    specialize (Hagg π' b'). lra. }
  exists picks.*2. rewrite <- Hmean.
  split; [done|by rewrite frontend_permutation_loss].
Qed.

End PitExtras.

Lemma permutation_loss_single_speaker_witness :
  ESPnetEnhancementModel._permutation_loss 2 (λ r h _, Rabs (r - h)) [1%R] [3%R] None true
  = Ok (batch_mean ((λ _, Rabs (1 - 3)) <$> seq 0 2), replicate 2 0%Z).
Proof.
  apply (permutation_loss_single_speaker 2 (λ r h _, Rabs (r - h)) 1%R 3%R). lia.
Defined.

Lemma permutation_loss_first_minimum_witness :
  ∃ (loss : R) (perm : list Z),
    ESPnetEnhancementModel._permutation_loss 2 (λ r h _, Rabs (r - h)) [1%R; 1%R] [1%R; 1%R]
      None true = Ok (loss, perm)
    ∧ perm !! 1 = Some 0%Z.
Proof.
  destruct (permutation_loss_first_minimum 2 (λ r h _, Rabs (r - h)) [1%R; 1%R] [1%R; 1%R])
    as (loss & perm & Hrun & _ & _ & _ & _ & Hid); [simpl; lia|reflexivity|lia|].
  exists loss, perm. split; [done|]. apply Hid; [lia|].
  intros π Hπ. unfold aggregate_distortion. simpl.
  pose proof (is_permutation_length _ _ Hπ) as Hlen.
  destruct π as [|s [|t [|? ?]]]; try done. simpl.
  assert (∀ u, u ∈ [s; t] → u < 2) as Hlt by (intros u; by apply is_permutation_lt).
  assert (s < 2) as Hs by (apply Hlt; by left).
  assert (t < 2) as Ht by (apply Hlt; right; by left).
  unfold pair_cost.
  destruct s as [|[|s]]; [| |lia]; destruct t as [|[|t]]; [| |lia| | |lia]; simpl; lra.
Defined.

Lemma permutation_loss_reuses_searched_permutation_witness :
  ESPnetEnhancementModel._permutation_loss 1 (λ r h _, (r - h) * (r - h))%R
    [1%R; 2%R] [2%R; 1%R] (Some [1%Z]) true
  = Ok (0%R, [1%Z]).
Proof.
  apply (permutation_loss_reuses_searched_permutation 1 (λ r h _, (r - h) * (r - h))%R
           [1%R; 2%R] [2%R; 1%R] 0%R [1%Z]).
  destruct permutation_loss_swapped as [loss [-> ->]]. reflexivity.
Defined.

Lemma permutation_loss_index_out_of_range_witness :
  ESPnetEnhancementModel._permutation_loss 1 (λ r h _, Rabs (r - h)) [1%R; 2%R] [2%R; 1%R]
    (Some [2%Z]) true
  = Raise IndexError.
Proof.
  apply (permutation_loss_index_out_of_range 1 (λ r h _, Rabs (r - h))
           [1%R; 2%R] [2%R; 1%R] [2%Z] 2%Z); [simpl; lia|reflexivity|reflexivity| |].
  - by left.
  - right. simpl. lia.
Defined.

Lemma permutation_loss_zero_on_reordered_references_witness :
  ∃ perm : list Z,
    ESPnetEnhancementModel._permutation_loss 1 (λ r h _, Rabs (r - h)) [1%R; 2%R] [2%R; 1%R]
      None true = Ok (0%R, perm).
Proof.
  destruct (permutation_loss_zero_on_reordered_references 1 (λ r h _, Rabs (r - h))
              [1%R; 2%R] [2%R; 1%R] [1; 0]) as [perm [Hrun _]].
  - intros r h _. apply Rabs_pos.
  - intros r _. rewrite Rminus_diag. apply Rabs_R0.
  - simpl. lia.
  - reflexivity.
  - lia.
  - unfold is_permutation. simpl. apply Permutation_swap.
  - intros [|[|i]] t Hi; simpl in Hi; try done; by injection Hi as <-.
  - by exists perm.
Defined.

(** ** Mask labels: supported types and ranges *)

Section LabelRanges.
Import TorchComplex MaskLabel SpecLabels.
Context {I : Type}.
Implicit Types (mix_spec r : I → complex) (ref_spec : list (I → complex)).

Lemma label_eps_pos : (0 < MaskLabel.eps)%R.
Proof. unfold MaskLabel.eps. apply Rdiv_lt_0_compat; [lra|]. apply pow_lt. lra. Qed.

Lemma cabs_nonneg (z : complex) : (0 <= cabs z)%R.
Proof. apply sqrt_pos. Qed.

Lemma foldr_Rplus_elem_le (xs : list R) (x : R) :
  Forall (λ y, 0 <= y)%R xs → x ∈ xs → (x <= foldr Rplus 0 xs)%R.
Proof.
  intros Hpos Hx. induction Hpos as [|y ys Hy Hys IH]; [by apply elem_of_nil in Hx|].
  pose proof (foldr_Rplus_nonneg ys Hys). simpl.
  apply elem_of_cons in Hx as [->|Hx]; [lra|]. specialize (IH Hx). lra.
Qed.

Ltac label_closed_form g :=
  split;
  [ unfold ESPnetEnhancementModel._create_mask_label;
    rewrite bool_decide_true by (unfold ESPnetEnhancementModel.mask_types; repeat constructor)
  | unfold ESPnetFrontendModel._create_mask_label;
    rewrite bool_decide_true by (unfold ESPnetFrontendModel.mask_types; repeat constructor) ];
  cbn [negb]; by rewrite (label_loop_fmap _ g).

Lemma labels_ibm mix_spec ref_spec :
  ESPnetEnhancementModel._create_mask_label mix_spec ref_spec "IBM"
  = Ok (ibm_label ref_spec <$> ref_spec)
  ∧ ESPnetFrontendModel._create_mask_label mix_spec ref_spec "IBM"
    = Ok (ibm_label ref_spec <$> ref_spec).
Proof. label_closed_form (ibm_label ref_spec). Qed.

Lemma labels_irm mix_spec ref_spec :
  ESPnetEnhancementModel._create_mask_label mix_spec ref_spec "IRM"
  = Ok (irm_label ref_spec <$> ref_spec)
  ∧ ESPnetFrontendModel._create_mask_label mix_spec ref_spec "IRM"
    = Ok (irm_label ref_spec <$> ref_spec).
Proof. label_closed_form (irm_label ref_spec). Qed.

Lemma labels_iam mix_spec ref_spec :
  ESPnetEnhancementModel._create_mask_label mix_spec ref_spec "IAM"
  = Ok (iam_label mix_spec <$> ref_spec)
  ∧ ESPnetFrontendModel._create_mask_label mix_spec ref_spec "IAM"
    = Ok (iam_label mix_spec <$> ref_spec).
Proof. label_closed_form (iam_label mix_spec). Qed.

Lemma labels_psm mix_spec ref_spec :
  ESPnetEnhancementModel._create_mask_label mix_spec ref_spec "PSM"
  = Ok (psm_label mix_spec <$> ref_spec)
  ∧ ESPnetFrontendModel._create_mask_label mix_spec ref_spec "PSM"
    = Ok (psm_label mix_spec <$> ref_spec).
Proof. label_closed_form (psm_label mix_spec). Qed.

Lemma labels_npsm mix_spec ref_spec :
  ESPnetEnhancementModel._create_mask_label mix_spec ref_spec "NPSM"
  = Ok (psm_label mix_spec <$> ref_spec)
  ∧ ESPnetFrontendModel._create_mask_label mix_spec ref_spec "NPSM"
    = Ok (psm_label mix_spec <$> ref_spec).
Proof. label_closed_form (psm_label mix_spec). Qed.

Lemma labels_psm2 mix_spec ref_spec :
  ESPnetEnhancementModel._create_mask_label mix_spec ref_spec "PSM^2"
  = Ok (psm2_label mix_spec <$> ref_spec).
Proof.
  unfold ESPnetEnhancementModel._create_mask_label.
  rewrite bool_decide_true by (unfold ESPnetEnhancementModel.mask_types; repeat constructor).
  cbn [negb]. by rewrite (label_loop_fmap _ (psm2_label mix_spec)).
Qed.

Lemma labels_icm mix_spec ref_spec :
  ESPnetFrontendModel._create_mask_label mix_spec ref_spec "ICM"
  = Ok (icm_label mix_spec <$> ref_spec).
Proof.
  unfold ESPnetFrontendModel._create_mask_label.
  rewrite bool_decide_true by (unfold ESPnetFrontendModel.mask_types; repeat constructor).
  cbn [negb]. by rewrite (label_loop_fmap _ (icm_label mix_spec)).
Qed.

Lemma irm_denominator ref_spec i :
  (0 <= foldr Rplus 0 ((λ n : I → complex, cabs (n i)) <$> ref_spec))%R.
Proof.
  apply foldr_Rplus_nonneg, Forall_fmap, Forall_forall. intros n _. apply cabs_nonneg.
Qed.

Lemma ibm_bounded ref_spec r : bounded (ibm_label ref_spec r).
Proof. intros i. cbv beta. destruct (forallb _ _); lra. Qed.

Lemma irm_bounded ref_spec r : r ∈ ref_spec → bounded (irm_label ref_spec r).
Proof.
  intros Hr i. cbv beta. rewrite py_sum_foldr.
  pose proof label_eps_pos as He. pose proof (cabs_nonneg (r i)) as Hri.
  pose proof (irm_denominator ref_spec i) as Hden.
  assert (cabs (r i) <= foldr Rplus 0 ((λ n : I → complex, cabs (n i)) <$> ref_spec))%R as Hle.
  { apply foldr_Rplus_elem_le.
    - apply Forall_fmap, Forall_forall. intros n _. apply cabs_nonneg.
    - apply list_elem_of_fmap. by exists r. }
  set (S := foldr Rplus 0%R _) in *.
  split.
  - apply Rle_trans with 0%R; [lra|]. apply Rmult_le_pos; [done|].
    apply Rlt_le, Rinv_0_lt_compat. lra.
  - apply Rmult_le_reg_r with (S + MaskLabel.eps)%R; [lra|].
    unfold Rdiv. rewrite Rmult_assoc, Rinv_l by lra. lra.
Qed.

Lemma iam_bounded mix_spec r : bounded (iam_label mix_spec r).
Proof. intros i. cbv beta. pose proof (clamp_bounds 0 1 (cabs (r i) / (cabs (mix_spec i) + MaskLabel.eps))%R). lra. Qed.

Lemma psm_bounded mix_spec r : bounded (psm_label mix_spec r).
Proof. intros i. apply clamp_bounds. lra. Qed.

Lemma psm2_bounded mix_spec r : bounded (psm2_label mix_spec r).
Proof. intros i. apply clamp_bounds. lra. Qed.

Lemma icm_bounded mix_spec r : bounded (icm_label mix_spec r).
Proof.
  intros i z. cbv beta.
  destruct (cdiv (r i) (cadd_real (mix_spec i) MaskLabel.eps)) as [q|]; [|done].
  cbn. intros [= <-]. cbn [fst snd]. split; apply clamp_bounds; lra.
Qed.

Lemma enh_mask_type_cases (mask_type : string) :
  mask_type ∈ ESPnetEnhancementModel.mask_types →
  mask_type = "IBM" ∨ mask_type = "IRM" ∨ mask_type = "IAM" ∨ mask_type = "PSM"
  ∨ mask_type = "NPSM" ∨ mask_type = "PSM^2".
Proof.
  unfold ESPnetEnhancementModel.mask_types. rewrite !elem_of_cons, elem_of_nil. tauto.
Qed.

Lemma frontend_mask_type_cases (mask_type : string) :
  mask_type ∈ ESPnetFrontendModel.mask_types →
  mask_type = "IBM" ∨ mask_type = "IRM" ∨ mask_type = "IAM" ∨ mask_type = "PSM"
  ∨ mask_type = "NPSM" ∨ mask_type = "ICM".
Proof.
  unfold ESPnetFrontendModel.mask_types. rewrite !elem_of_cons, elem_of_nil. tauto.
Qed.

Lemma enh_labels mix_spec ref_spec mask_type :
  mask_type ∈ ESPnetEnhancementModel.mask_types →
  ∃ g, ESPnetEnhancementModel._create_mask_label mix_spec ref_spec mask_type
       = Ok (g <$> ref_spec)
       ∧ ∀ r, r ∈ ref_spec → bounded (g r).
Proof.
  intros [-> | [-> | [-> | [-> | [-> | ->]]]]]%enh_mask_type_cases.
  - exists (ibm_label ref_spec). split; [apply labels_ibm|]. intros r _. apply ibm_bounded.
  - exists (irm_label ref_spec). split; [apply labels_irm|]. apply irm_bounded.
  - exists (iam_label mix_spec). split; [apply labels_iam|]. intros r _. apply iam_bounded.
  - exists (psm_label mix_spec). split; [apply labels_psm|]. intros r _. apply psm_bounded.
  - exists (psm_label mix_spec). split; [apply labels_npsm|]. intros r _. apply psm_bounded.
  - exists (psm2_label mix_spec). split; [apply labels_psm2|]. intros r _. apply psm2_bounded.
Qed.

Lemma frontend_labels mix_spec ref_spec mask_type :
  mask_type ∈ ESPnetFrontendModel.mask_types →
  ∃ g, ESPnetFrontendModel._create_mask_label mix_spec ref_spec mask_type
       = Ok (g <$> ref_spec)
       ∧ ∀ r, r ∈ ref_spec → bounded (g r).
Proof.
  intros [-> | [-> | [-> | [-> | [-> | ->]]]]]%frontend_mask_type_cases.
  - exists (ibm_label ref_spec). split; [apply labels_ibm|]. intros r _. apply ibm_bounded.
  - exists (irm_label ref_spec). split; [apply labels_irm|]. apply irm_bounded.
  - exists (iam_label mix_spec). split; [apply labels_iam|]. intros r _. apply iam_bounded.
  - exists (psm_label mix_spec). split; [apply labels_psm|]. intros r _. apply psm_bounded.
  - exists (psm_label mix_spec). split; [apply labels_npsm|]. intros r _. apply psm_bounded.
  - exists (icm_label mix_spec). split; [apply labels_icm|]. intros r _. apply icm_bounded.
Qed.

(** X8: [_create_mask_label] returns exactly when the mask type is one
    of the six of its model, and then with one label per reference; for
    any other type it raises AssertionError.  The second assertion, on
    [mask], never fails. *)
Theorem create_mask_label_one_label_per_reference mix_spec ref_spec (mask_type : string) :
  (mask_type ∈ ["IBM"; "IRM"; "IAM"; "PSM"; "NPSM"; "PSM^2"] →
   ∃ labels, ESPnetEnhancementModel._create_mask_label mix_spec ref_spec mask_type = Ok labels
             ∧ length labels = length ref_spec)
  ∧ (mask_type ∉ ["IBM"; "IRM"; "IAM"; "PSM"; "NPSM"; "PSM^2"] →
     ESPnetEnhancementModel._create_mask_label mix_spec ref_spec mask_type
     = Raise AssertionError)
  ∧ (mask_type ∈ ["IBM"; "IRM"; "IAM"; "PSM"; "NPSM"; "ICM"] →
     ∃ labels, ESPnetFrontendModel._create_mask_label mix_spec ref_spec mask_type = Ok labels
               ∧ length labels = length ref_spec)
  ∧ (mask_type ∉ ["IBM"; "IRM"; "IAM"; "PSM"; "NPSM"; "ICM"] →
     ESPnetFrontendModel._create_mask_label mix_spec ref_spec mask_type
     = Raise AssertionError).
Proof.
  split; [|split; [|split]].
  - intros Hin. destruct (enh_labels mix_spec ref_spec mask_type Hin) as [g [Hrun _]].
    exists (g <$> ref_spec). split; [done|apply length_fmap].
  - intros Hout. unfold ESPnetEnhancementModel._create_mask_label.
    by rewrite bool_decide_false.
  - intros Hin. destruct (frontend_labels mix_spec ref_spec mask_type Hin) as [g [Hrun _]].
    exists (g <$> ref_spec). split; [done|apply length_fmap].
  - intros Hout. unfold ESPnetFrontendModel._create_mask_label.
    by rewrite bool_decide_false.
Qed.

(** X9: every label either model returns has all its values in
    [-1, 1] (for the complex ICM label, both parts, wherever the label
    is defined), also for the types that are not clamped: IBM and IRM. *)
Theorem mask_labels_bounded mix_spec ref_spec (mask_type : string) :
  (∀ labels,
     ESPnetEnhancementModel._create_mask_label mix_spec ref_spec mask_type = Ok labels →
     Forall bounded labels)
  ∧ (∀ labels,
       ESPnetFrontendModel._create_mask_label mix_spec ref_spec mask_type = Ok labels →
       Forall bounded labels).
Proof.
  split; intros labels Hrun.
  - destruct (decide (mask_type ∈ ESPnetEnhancementModel.mask_types)) as [Hin|Hout].
    + destruct (enh_labels mix_spec ref_spec mask_type Hin) as [g [Hg Hb]].
      rewrite Hg in Hrun. injection Hrun as <-.
      by apply Forall_fmap, Forall_forall.
    + unfold ESPnetEnhancementModel._create_mask_label in Hrun.
      by rewrite bool_decide_false in Hrun.
  - destruct (decide (mask_type ∈ ESPnetFrontendModel.mask_types)) as [Hin|Hout].
    + destruct (frontend_labels mix_spec ref_spec mask_type Hin) as [g [Hg Hb]].
      rewrite Hg in Hrun. injection Hrun as <-.
      by apply Forall_fmap, Forall_forall.
    + unfold ESPnetFrontendModel._create_mask_label in Hrun.
      by rewrite bool_decide_false in Hrun.
Qed.

Lemma ibm_value ref_spec r i :
  (∀ n, n ∈ ref_spec → (cabs (n i) <= cabs (r i))%R) →
  forallb (λ n : I → complex, if Rge_dec (cabs (r i)) (cabs (n i)) then true else false)
          ref_spec = true.
Proof.
  intros Hmax. apply Is_true_true, forallb_True, Forall_forall. intros n Hn.
  destruct (Rge_dec _ _) as [|Hno]; [done|]. specialize (Hmax n Hn). lra.
Qed.

Lemma loudest_reference ref_spec i :
  ref_spec ≠ [] →
  ∃ r, r ∈ ref_spec ∧ ∀ n, n ∈ ref_spec → (cabs (n i) <= cabs (r i))%R.
Proof.
  induction ref_spec as [|r rs IH]; [done|]. intros _.
  destruct rs as [|r' rs].
  { exists r. split; [by left|]. intros n ->%list_elem_of_singleton. lra. }
  destruct IH as [m [Hm Hmax]]; [done|].
  destruct (Rle_dec (cabs (m i)) (cabs (r i))) as [Hle|Hgt].
  - exists r. split; [by left|].
    intros n [->|Hn]%elem_of_cons; [lra|]. specialize (Hmax n Hn). lra.
  - exists m. split; [by right|].
    intros n [->|Hn]%elem_of_cons; [lra|]. by apply Hmax.
Qed.

(** X10: the IBM label of a reference is 1 at the bins where no
    reference has a larger magnitude and 0 elsewhere.  At every bin a
    loudest reference gets 1; references that tie for the largest
    magnitude all do.  The mixture is not read. *)
Theorem ibm_label_marks_the_loudest_references mix_spec ref_spec :
  ∃ ms : list (I → R),
    ESPnetEnhancementModel._create_mask_label mix_spec ref_spec "IBM" = Ok (RealMask <$> ms)
    ∧ ESPnetFrontendModel._create_mask_label mix_spec ref_spec "IBM" = Ok (RealMask <$> ms)
    ∧ length ms = length ref_spec
    ∧ (∀ k r m i, ref_spec !! k = Some r → ms !! k = Some m →
         (m i = 1%R ∨ m i = 0%R)
         ∧ (m i = 1%R ↔ ∀ n, n ∈ ref_spec → (cabs (n i) <= cabs (r i))%R))
    ∧ (ref_spec ≠ [] → ∀ i, ∃ m, m ∈ ms ∧ m i = 1%R).
Proof.
  set (value r i :=
    if forallb (λ n : I → complex, if Rge_dec (cabs (r i)) (cabs (n i)) then true else false)
               ref_spec
    then 1%R else 0%R).
  exists (value <$> ref_spec).
  destruct (labels_ibm mix_spec ref_spec) as [Henh Hfront].
  rewrite <- list_fmap_compose.
  split; [exact Henh|]. split; [exact Hfront|]. split; [apply length_fmap|]. split.
  - intros k r m i Hr Hm. rewrite list_lookup_fmap, Hr in Hm. injection Hm as <-.
    unfold value. destruct (forallb _ _) eqn:Hall.
    + split; [by left|]. split; [|done]. intros _ n Hn.
      apply Is_true_true_2, forallb_True in Hall. rewrite Forall_forall in Hall.
      specialize (Hall n Hn). destruct (Rge_dec _ _); [lra|done].
    + split; [by right|]. split; [lra|]. intros Hmax.
      rewrite ibm_value in Hall by done. done.
  - intros Hne i. destruct (loudest_reference ref_spec i Hne) as [r [Hr Hmax]].
    exists (value r). split; [apply list_elem_of_fmap; by exists r|].
    unfold value. by rewrite ibm_value.
Qed.

(** X11: the labels of the three magnitude mask types IBM, IRM and IAM
    are never negative and never exceed 1, the unclamped IRM included;
    the IBM and IRM labels are computed from the references alone, so
    another mixture gives the same labels. *)
Theorem magnitude_labels_in_unit_interval mix_spec ref_spec (mask_type : string) :
  mask_type ∈ ["IBM"; "IRM"; "IAM"] →
  ∃ ms : list (I → R),
    ESPnetEnhancementModel._create_mask_label mix_spec ref_spec mask_type
    = Ok (RealMask <$> ms)
    ∧ ESPnetFrontendModel._create_mask_label mix_spec ref_spec mask_type
      = Ok (RealMask <$> ms)
    ∧ length ms = length ref_spec
    ∧ (∀ m i, m ∈ ms → (0 <= m i <= 1)%R)
    ∧ (mask_type ≠ "IAM" → ∀ mix_spec',
         ESPnetEnhancementModel._create_mask_label mix_spec' ref_spec mask_type
         = Ok (RealMask <$> ms)
         ∧ ESPnetFrontendModel._create_mask_label mix_spec' ref_spec mask_type
           = Ok (RealMask <$> ms)).
Proof.
  rewrite !elem_of_cons, elem_of_nil. intros [-> | [-> | [-> | []]]].
  - set (value (r : I → complex) i :=
      if forallb (λ n : I → complex, if Rge_dec (cabs (r i)) (cabs (n i)) then true else false)
                 ref_spec
      then 1%R else 0%R).
    exists (value <$> ref_spec). rewrite <- list_fmap_compose.
    destruct (labels_ibm mix_spec ref_spec) as [Henh Hfront].
    split; [exact Henh|]. split; [exact Hfront|]. split; [apply length_fmap|]. split.
    + intros m i [r [-> _]]%list_elem_of_fmap. unfold value. destruct (forallb _ _); lra.
    + intros _ mix_spec'. apply (labels_ibm mix_spec' ref_spec).
  - set (value (r : I → complex) i :=
      (cabs (r i) / (py_sum ((λ n : I → complex, cabs (n i)) <$> ref_spec) + MaskLabel.eps))%R).
    exists (value <$> ref_spec). rewrite <- list_fmap_compose.
    destruct (labels_irm mix_spec ref_spec) as [Henh Hfront].
    split; [exact Henh|]. split; [exact Hfront|]. split; [apply length_fmap|]. split.
    + intros m i [r [-> Hr]]%list_elem_of_fmap. unfold value. rewrite py_sum_foldr.
      pose proof label_eps_pos as He. pose proof (cabs_nonneg (r i)) as Hri.
      pose proof (irm_denominator ref_spec i) as Hden.
      assert (cabs (r i) <= foldr Rplus 0 ((λ n : I → complex, cabs (n i)) <$> ref_spec))%R
        as Hle.
      { apply foldr_Rplus_elem_le.
        - apply Forall_fmap, Forall_forall. intros n _. apply cabs_nonneg.
        - apply list_elem_of_fmap. by exists r. }
      set (S := foldr Rplus 0%R _) in *.
      split.
      * apply Rmult_le_pos; [done|]. apply Rlt_le, Rinv_0_lt_compat. lra.
      * apply Rmult_le_reg_r with (S + MaskLabel.eps)%R; [lra|].
        unfold Rdiv. rewrite Rmult_assoc, Rinv_l by lra. lra.
    + intros _ mix_spec'. apply (labels_irm mix_spec' ref_spec).
  - set (value (r : I → complex) i :=
      clamp 0 1 (cabs (r i) / (cabs (mix_spec i) + MaskLabel.eps))%R).
    exists (value <$> ref_spec). rewrite <- list_fmap_compose.
    destruct (labels_iam mix_spec ref_spec) as [Henh Hfront].
    split; [exact Henh|]. split; [exact Hfront|]. split; [apply length_fmap|]. split.
    + intros m i [r [-> _]]%list_elem_of_fmap. unfold value. apply clamp_bounds. lra.
    + done.
Qed.

End LabelRanges.

Lemma magnitude_labels_in_unit_interval_witness :
  ∃ ms : list (unit → R),
    ESPnetEnhancementModel._create_mask_label (λ _ : unit, (1, 0)%R) [λ _ : unit, (3, 4)%R] "IRM"
    = Ok (MaskLabel.RealMask <$> ms)
    ∧ length ms = 1.
Proof.
  destruct (magnitude_labels_in_unit_interval (λ _ : unit, (1, 0)%R) [λ _ : unit, (3, 4)%R] "IRM")
    as (ms & Hrun & _ & Hlen & _); [right; left|].
  by exists ms.
Defined.

(** ** [forward]: the lookups and the order of the checks *)

(** The first element that fails decides, with its own exception. *)
Lemma mapM_first_Raise {A C} (f : A → result C) (l : list A) k x e :
  l !! k = Some x → f x = Raise e →
  (∀ i y, i < k → l !! i = Some y → ∃ z, f y = Ok z) →
  mapM f l = Raise e.
Proof.
  revert k. induction l as [|a l IH]; intros k Hk Hx Hbefore; [done|].
  destruct k as [|k]; simpl in Hk.
  - injection Hk as ->. by apply mapM_head_Raise.
  - destruct (Hbefore 0 a) as [z Hz]; [lia|done|].
    cbn [mapM]. rewrite Hz. cbn.
    rewrite (IH k); [done|done|done|].
    intros i y Hi Hy. apply (Hbefore (S i)); [lia|done].
Qed.

Lemma getkey_missing {A} (kwargs : gmap string A) (prefix : string) n (k : nat) :
  k < n →
  kwargs !! (prefix +:+ pretty (k + 1)) = None →
  (∀ s, s < k → is_Some (kwargs !! (prefix +:+ pretty (s + 1)))) →
  mapM (λ spk, py_getkey kwargs (prefix +:+ pretty (spk + 1))) (Itertools.range n)
  = Raise (KeyError (prefix +:+ pretty (k + 1))).
Proof.
  intros Hk Hnone Hbefore.
  apply (mapM_first_Raise _ _ k k).
  - by apply lookup_seq_lt.
  - unfold py_getkey. by rewrite Hnone.
  - intros i y Hi [-> _]%lookup_seq. simpl.
    destruct (Hbefore i Hi) as [v Hv]. exists v. unfold py_getkey. by rewrite Hv.
Qed.

Section EnhForwardOrder.
Import ESPnetEnhancementModel.
Context {Tensor Spectrum MaskT Ctx Perm Stats : Type}.
Context (stack : list Tensor → result Tensor) (unbind : Tensor → list Tensor).
Context (batch_and_context :
  t → Tensor → option Tensor → Tensor → gmap string Tensor →
  result (Tensor * Tensor * Tensor * Ctx * R * option Perm)).
Context (stft : Tensor → Spectrum).
Context (enh_model :
  Tensor → Ctx → Tensor → result (list Spectrum * Tensor * option (gmap string MaskT))).
Context (tf_masking_loss :
  t → Spectrum → list Spectrum → list Spectrum → option (gmap string MaskT) →
  option Perm → result (R * Perm)).
Context (noise_masking_loss : t → Spectrum → Tensor → gmap string MaskT → result R).
Context (evaluate : t → list Spectrum → Tensor → list Tensor → Perm → result R).
Context (tf_stats : option R → R → Stats).
Context (rawwav_loss :
  t → Tensor → Tensor → Ctx → Tensor → option Tensor → option Perm → result (R * Stats)).
Context (finish : t → R → Stats → R → Tensor → result (R * Stats * nat)).

(** X13: [forward] looks up [speech_ref1 .. speech_ref<num_spk>] in
    order before anything else; the first key that is absent is the one
    the KeyError names, whatever else the call was given. *)
Theorem forward_missing_speech_reference self speech_mix speech_mix_lengths
    (kwargs : gmap string Tensor) (k : nat) :
  k < num_spk self →
  kwargs !! ("speech_ref" +:+ pretty (k + 1)) = None →
  (∀ s, s < k → is_Some (kwargs !! ("speech_ref" +:+ pretty (s + 1)))) →
  forward stack unbind batch_and_context stft enh_model tf_masking_loss
          noise_masking_loss evaluate tf_stats rawwav_loss finish
          self speech_mix speech_mix_lengths kwargs
  = Raise (KeyError ("speech_ref" +:+ pretty (k + 1))).
Proof.
  intros Hk Hnone Hbefore. unfold forward.
  by rewrite (getkey_missing kwargs "speech_ref" (num_spk self) k).
Qed.

(** X14: when the separation network returns no masks ([None]) and the
    loss on the estimates was computed, the test for a predicted noise
    mask is applied to [None] and [forward] raises TypeError, for every
    loss type other than si_snr. *)
Theorem forward_without_predicted_masks_raises self speech_mix speech_mix_lengths
    (kwargs : gmap string Tensor) refs speech_ref noise_ref speech_lengths speech_ref'
    speech_mix' ctx_feed ctx_loss ctx_perm spectrum_pre tf_length tf_loss perm :
  loss_type self ≠ "si_snr" →
  mapM (λ spk, py_getkey kwargs ("speech_ref" +:+ pretty (spk + 1)))
       (Itertools.range (num_spk self)) = Ok refs →
  stack refs = Ok speech_ref →
  (if py_in "noise_ref1" kwargs then
     noise_ref ← mapM (λ n, py_getkey kwargs ("noise_ref" +:+ pretty (n + 1)))
                      (Itertools.range (num_noise_type self));
     noise_ref ← stack noise_ref;
     Ok (Some noise_ref)
   else Ok None) = Ok noise_ref →
  batch_and_context self speech_mix speech_mix_lengths speech_ref kwargs
  = Ok (speech_lengths, speech_ref', speech_mix', ctx_feed, ctx_loss, ctx_perm) →
  enh_model speech_mix' ctx_feed speech_lengths = Ok (spectrum_pre, tf_length, None) →
  tf_masking_loss self (stft speech_mix') (stft <$> unbind speech_ref') spectrum_pre
                  None ctx_perm = Ok (tf_loss, perm) →
  forward stack unbind batch_and_context stft enh_model tf_masking_loss
          noise_masking_loss evaluate tf_stats rawwav_loss finish
          self speech_mix speech_mix_lengths kwargs
  = Raise TypeError.
Proof.
  intros Htype Hrefs Hstack Hnoise Hprep Hmodel Hloss.
  unfold forward. rewrite Hrefs. cbn. rewrite Hstack. cbn.
  rewrite Hnoise. cbn. rewrite Hprep. cbn.
  destruct (String.eqb_spec (loss_type self) "si_snr") as [|_]; [done|]. cbn.
  rewrite Hmodel. cbn. by rewrite Hloss.
Qed.

End EnhForwardOrder.

Lemma forward_missing_speech_reference_witness :
  ESPnetEnhancementModel.forward (Stats := unit)
    (λ _ : list unit, Ok ()) (λ _, [()]) (λ _ _ _ _ _, Ok ((), (), (), (), 0%R, None))
    (λ _, ()) (λ _ _ _, Ok ([()], (), Some {["noise1" := ()]}))
    (λ _ _ _ _ _ (_ : option unit), Ok (0%R, ())) (λ _ _ _ _, Ok 0%R) (λ _ _ _ _ _, Ok 0%R)
    (λ _ _, ()) (λ _ _ _ _ _ _ _, Ok (0%R, ())) (λ _ _ _ _ _, Ok (0%R, (), 1))
    (ESPnetEnhancementModel.Build 2 1 (Some "PSM") "mask_mse" true) () None
    {["speech_ref1" := ()]}
  = Raise (KeyError "speech_ref2").
Proof.
  apply (forward_missing_speech_reference _ _ _ _ _ _ _ _ _ _ _
    (ESPnetEnhancementModel.Build 2 1 (Some "PSM") "mask_mse" true) () None
    {["speech_ref1" := ()]} 1).
  - simpl. lia.
  - reflexivity.
  - intros s Hs. assert (s = 0) as -> by lia. by eexists.
Defined.

Lemma forward_without_predicted_masks_raises_witness :
  ESPnetEnhancementModel.forward (Stats := unit)
    (λ _ : list unit, Ok ()) (λ _, [()]) (λ _ _ _ _ _, Ok ((), (), (), (), 0%R, None))
    (λ _, ()) (λ _ _ _, Ok ([()], (), @None (gmap string unit)))
    (λ _ _ _ _ _ (_ : option unit), Ok (0%R, ())) (λ _ _ _ _, Ok 0%R) (λ _ _ _ _ _, Ok 0%R)
    (λ _ _, ()) (λ _ _ _ _ _ _ _, Ok (0%R, ())) (λ _ _ _ _ _, Ok (0%R, (), 1))
    (ESPnetEnhancementModel.Build 1 1 (Some "PSM") "magnitude" true) () None
    {["speech_ref1" := ()]}
  = Raise TypeError.
Proof.
  eapply (forward_without_predicted_masks_raises _ _ _ _ _ _ _ _ _ _ _
    (ESPnetEnhancementModel.Build 1 1 (Some "PSM") "magnitude" true) () None
    {["speech_ref1" := ()]} [()] () None () () () () 0%R None [()] () 0%R ());
    try reflexivity.
  discriminate.
Defined.

Section FrontendForwardOrder.
Import ESPnetFrontendModel.
Context {Tensor Spectrum MaskT Label Perm Stats : Type}.
Context (stack : list Tensor → result Tensor) (unbind : Tensor → list Tensor).
Context (check_batch : Tensor → Tensor → Tensor → result (Tensor * Tensor)).
Context (stft : Tensor → Spectrum).
Context (create_mask_label : Spectrum → list Spectrum → string → result (list Label)).
Context (frontend :
  Tensor → Tensor → result (list Spectrum * Tensor * option (gmap string MaskT))).
Context (magnitude_loss : list Spectrum → list Spectrum → result (R * Perm)).
Context (mask_loss : list Label → list MaskT → result (R * Perm)).
Context (dereverb_loss : Label → MaskT → result R).
Context (noise_loss : list Label → list MaskT → result R).
Context (time_domain :
  t → R → Perm → list Spectrum → Tensor → list Tensor → result (R * Stats)).
Context (rawwav_loss : t → Tensor → Tensor → Tensor → result (R * Stats)).
Context (gather : R → Stats → Tensor → result (R * Stats * nat)).

(** X15: in the front-end model the dereverberation reference is
    checked before the noise reference.  With a predicted [dereverb]
    mask and neither [dereverb_ref] nor [noise_ref1] in the batch, the
    ValueError is the one about the dereverberated reference, whether or
    not a noise mask was predicted too. *)
Theorem frontend_dereverb_check_precedes_noise_check self speech_mix speech_mix_lengths
    (kwargs : gmap string Tensor) refs speech_ref speech_ref' speech_mix'
    mask_ref spectrum_pre tf_length (masks : gmap string MaskT) mask_pre_ tf_loss perm :
  (0 < tf_factor self)%R →
  mapM (λ spk, py_getkey kwargs ("speech_ref" +:+ pretty (spk + 1)))
       (Itertools.range (num_spk self)) = Ok refs →
  stack refs = Ok speech_ref →
  kwargs !! "noise_ref1" = None →
  kwargs !! "dereverb_ref" = None →
  check_batch speech_mix speech_ref speech_mix_lengths = Ok (speech_ref', speech_mix') →
  create_mask_label (stft speech_mix') (stft <$> unbind speech_ref') (mask_type self)
  = Ok mask_ref →
  frontend speech_mix' speech_mix_lengths = Ok (spectrum_pre, tf_length, Some masks) →
  mapM (λ spk, py_getkey masks ("spk" +:+ pretty (spk + 1)))
       (Itertools.range (num_spk self)) = Ok mask_pre_ →
  mask_loss mask_ref mask_pre_ = Ok (tf_loss, perm) →
  is_Some (masks !! "dereverb") →
  forward stack unbind check_batch stft create_mask_label frontend magnitude_loss
          mask_loss dereverb_loss noise_loss time_domain rawwav_loss gather
          self speech_mix speech_mix_lengths kwargs
  = Raise (ValueError no_dereverb_reference)
  ∧ String.prefix "No dereverberated reference for training!" no_dereverb_reference = true.
Proof.
  intros Htf Hrefs Hstack Hnoise Hderev Hcheck Hlabel Hfront Hspk Hloss Hkey.
  split; [|reflexivity].
  unfold forward. rewrite Hrefs. cbn. rewrite Hstack. cbn.
  rewrite (py_in_false kwargs) by done. cbn.
  rewrite Hcheck. cbn.
  destruct (Rlt_dec 0 (tf_factor self)) as [_|Hn]; [|done].
  rewrite Hlabel. cbn. rewrite Hderev. cbn.
  rewrite Hfront. cbn. rewrite Hspk. cbn. rewrite Hloss. cbn.
  by rewrite (py_in_true masks "dereverb").
Qed.

End FrontendForwardOrder.

Lemma frontend_dereverb_check_precedes_noise_check_witness :
  ESPnetFrontendModel.forward (Stats := unit) (Label := unit) (Perm := unit)
    (λ _ : list unit, Ok ()) (λ _, [()]) (λ _ _ _, Ok ((), ()))
    (λ _, ()) (λ _ _ _, Ok [()])
    (λ _ _, Ok ([()], (), Some (<["dereverb" := ()]> (<["noise1" := ()]> {["spk1" := ()]}))))
    (λ _ _, Ok (0%R, ())) (λ _ _, Ok (0%R, ())) (λ _ _, Ok 0%R) (λ _ _, Ok 0%R)
    (λ _ _ _ _ _ _, Ok (0%R, ())) (λ _ _ _ _, Ok (0%R, ())) (λ _ _ _, Ok (0%R, (), 1))
    (ESPnetFrontendModel.Build 1 1 "PSM" 1) () () {["speech_ref1" := ()]}
  = Raise (ValueError ESPnetFrontendModel.no_dereverb_reference).
Proof.
  eapply proj1, (frontend_dereverb_check_precedes_noise_check _ _ _ _ _ _ _ _ _ _ _ _ _
    (ESPnetFrontendModel.Build 1 1 "PSM" 1) () () {["speech_ref1" := ()]}
    [()] () () () [()] [()] () _ [()] 0%R ());
    try reflexivity.
  - simpl. lra.
  - by eexists.
Defined.

(** ** Construction of the enhancement model and its choice of loss *)

Section Setup.
Import EnhancementSetup.

Lemma loss_type_cases (s : string) :
  s ∈ loss_types →
  s = "mask_mse" ∨ s = "magnitude" ∨ s = "magnitude_l1" ∨ s = "spectrum"
  ∨ s = "spectrum_l1" ∨ s = "si_snr".
Proof. unfold loss_types. rewrite !elem_of_cons, elem_of_nil. tauto. Qed.

(** X16: [__init__] returns a model exactly for the six loss types; a
    network without a [loss_type] attribute, or with another value,
    fails the assertion.  For a model it returned, the branches of
    [forward] on the loss type never reach either of the two
    [Unsupported loss type] errors. *)
Theorem constructed_model_has_supported_loss_type (enh_model : network) (pit : bool)
    (mode : option string) (factor : R) :
  (∀ self, __init__ enh_model pit mode factor = Ok self →
     net_loss_type enh_model = Some (ESPnetEnhancementModel.loss_type (config self))
     ∧ ESPnetEnhancementModel.loss_type (config self) ∈ loss_types
     ∧ ESPnetEnhancementModel.training (config self) = true
     ∧ (ESPnetEnhancementModel.loss_type (config self) ≠ "si_snr" →
        ∀ mask_type s,
          tf_loss_target (ESPnetEnhancementModel.loss_type (config self)) mask_type
          ≠ Raise (unsupported_loss_type s)))
  ∧ (net_loss_type enh_model = None →
     __init__ enh_model pit mode factor = Raise AssertionError)
  ∧ (∀ loss_type, net_loss_type enh_model = Some loss_type → loss_type ∉ loss_types →
       __init__ enh_model pit mode factor = Raise AssertionError)
  ∧ (∀ loss_type, net_loss_type enh_model = Some loss_type → loss_type ∈ loss_types →
       ∃ self, __init__ enh_model pit mode factor = Ok self).
Proof.
  split; [|split; [|split]].
  - intros self Hinit. unfold __init__ in Hinit.
    destruct (net_loss_type enh_model) as [loss_type|]; [|done].
    case_bool_decide as Hin; [|done]. cbn in Hinit. injection Hinit as <-. cbn.
    split; [done|]. split; [done|]. split; [done|].
    intros Hsnr mask_type s.
    apply loss_type_cases in Hin as [-> | [-> | [-> | [-> | [-> | ->]]]]];
      try done; unfold tf_loss_target; cbn;
      destruct mask_type as [m|]; cbn; done.
  - intros Hnone. unfold __init__. by rewrite Hnone.
  - intros loss_type Hsome Hout. unfold __init__. rewrite Hsome.
    by rewrite bool_decide_false.
  - intros loss_type Hsome Hin. unfold __init__. rewrite Hsome.
    rewrite bool_decide_true by done. by eexists.
Qed.

(** X17: which criterion the magnitude and spectrum losses use is read
    off the mask type, not the loss type: for a mask type whose name
    does not contain [_l1], the loss types [magnitude_l1] and
    [spectrum_l1] use the MSE criterion like [magnitude] and [spectrum]
    do; none of the six mask types of [_create_mask_label] contains it.
    Without a mask type the test raises TypeError. *)
Theorem l1_criterion_follows_mask_type (m : string) :
  (py_contains "_l1" m = false →
   tf_loss_target "magnitude_l1" (Some m) = Ok (Magnitude tf_mse (py_contains "PSM" m))
   ∧ tf_loss_target "magnitude" (Some m) = Ok (Magnitude tf_mse (py_contains "PSM" m))
   ∧ tf_loss_target "spectrum_l1" (Some m) = Ok (Spectrum tf_mse)
   ∧ tf_loss_target "spectrum" (Some m) = Ok (Spectrum tf_mse))
  ∧ (py_contains "_l1" m = true →
     tf_loss_target "magnitude" (Some m) = Ok (Magnitude tf_l1 (py_contains "PSM" m))
     ∧ tf_loss_target "spectrum" (Some m) = Ok (Spectrum tf_l1))
  ∧ (m ∈ ESPnetEnhancementModel.mask_types → py_contains "_l1" m = false)
  ∧ tf_loss_target "magnitude_l1" None = Raise TypeError
  ∧ tf_loss_target "spectrum_l1" None = Raise TypeError.
Proof.
  split; [|split; [|split; [|split]]]; try reflexivity.
  - intros Hno. unfold tf_loss_target, choose_loss_func. cbn. by rewrite Hno.
  - intros Hyes. unfold tf_loss_target, choose_loss_func. cbn. by rewrite Hyes.
  - intros [-> | [-> | [-> | [-> | [-> | ->]]]]]%enh_mask_type_cases; reflexivity.
Qed.

End Setup.

(** ** The beamformer: mask counts, the two-mask branch, the speaker loop *)

Section BeamformerEdges.
Import AttentionReference DNN_Beamformer SpecDesign.

Context {Data Ilens Mask Power Filter Enhanced : Type}.
Context (mlp_psd : list R → list R) (gvec : list R → R).
Context (mask_estimator : Data → Ilens → list Mask).
Context (size : Data → nat * nat * nat * nat) (permute_0321 : Data → Data).
Context (get_power_spectral_density_matrix : Data → Mask → tensor4).
Context (einsum_ct_et : Data → tensor4).
Context (power : Data → Power) (pmul : Power → Mask → Power).
Context (channel_mean : Power → Power) (reciprocal_clamp_min : Power → R → Power).
Context (get_covariances : Data → Power → Z → Z → tensor4).
Context (get_mvdr_vector : tensor4 → tensor4 → list (list R) → Filter).
Context (apply_beamforming_vector : Filter → Data → Enhanced).
Context (get_WPD_filter_v2 : tensor4 → tensor4 → list (list R) → Filter).
Context (perform_WPD_filtering : Filter → Data → Z → Z → Enhanced).
Context (transpose : Enhanced → Enhanced).

Abbreviation apply_beamforming' :=
  (apply_beamforming mlp_psd gvec size get_mvdr_vector apply_beamforming_vector
     get_WPD_filter_v2 perform_WPD_filtering).
Abbreviation speaker_step' :=
  (speaker_step mlp_psd gvec size get_mvdr_vector apply_beamforming_vector
     get_WPD_filter_v2 perform_WPD_filtering).
Abbreviation speaker_loop' :=
  (speaker_loop mlp_psd gvec size get_mvdr_vector apply_beamforming_vector
     get_WPD_filter_v2 perform_WPD_filtering transpose).
Abbreviation forward' :=
  (forward mlp_psd gvec mask_estimator size permute_0321
     get_power_spectral_density_matrix einsum_ct_et power pmul channel_mean
     reciprocal_clamp_min get_covariances get_mvdr_vector apply_beamforming_vector
     get_WPD_filter_v2 perform_WPD_filtering transpose).
Abbreviation interference' :=
  (interference get_power_spectral_density_matrix einsum_ct_et power pmul channel_mean
     reciprocal_clamp_min get_covariances).
Abbreviation wpd_covariance' :=
  (wpd_covariance power pmul channel_mean reciprocal_clamp_min get_covariances).

Lemma speaker_loop_length self data psd_n todo psd_speeches enhanced ws es ws' :
  speaker_loop' self data psd_n todo psd_speeches enhanced ws = Ok (es, ws') →
  length es = length enhanced + length todo.
Proof.
  revert psd_speeches enhanced ws.
  induction todo as [|i todo IH]; intros psd_speeches enhanced ws Hrun.
  - cbn in Hrun. injection Hrun as <- <-. simpl. lia.
  - cbn [DNN_Beamformer.speaker_loop] in Hrun.
    destruct (speaker_step' self data psd_n psd_speeches i) as [[[enh w] psds]| |];
      cbn in Hrun; [|done..].
    apply IH in Hrun. rewrite Hrun, length_app. simpl. lia.
Qed.

(** X18: the branch for exactly two masks is the per-speaker design
    with a single speaker: the filter is designed from the PSD of the
    speech mask and, as interference, the PSD of the noise mask for
    mvdr, the covariance of the observed signal for mpdr and the
    power-weighted covariance of the speech mask for wpd.  It returns
    one enhanced signal, not a list. *)
Theorem two_mask_branch_is_single_speaker_design self data ilens mask_speech mask_noise :
  mask_estimator (permute_0321 data) ilens = [mask_speech; mask_noise] →
  nmask self = 2%Z →
  beamformer_type self ∈ ["mvdr"; "mpdr"; "wpd"] →
  forward mlp_psd gvec mask_estimator size permute_0321
    get_power_spectral_density_matrix einsum_ct_et power pmul channel_mean
    reciprocal_clamp_min get_covariances get_mvdr_vector apply_beamforming_vector
    get_WPD_filter_v2 perform_WPD_filtering transpose self data ilens
  = (x ← apply_beamforming' self (permute_0321 data)
           (get_power_spectral_density_matrix (permute_0321 data) mask_speech)
           (interference' self (permute_0321 data) [mask_speech] mask_noise 0 mask_speech)
           (beamformer_type self);
     Ok (One (transpose x.1), ilens, [mask_speech; mask_noise]))
  ∧ (beamformer_type self = "mvdr" →
     interference' self (permute_0321 data) [mask_speech] mask_noise 0 mask_speech
     = get_power_spectral_density_matrix (permute_0321 data) mask_noise)
  ∧ (beamformer_type self = "mpdr" →
     interference' self (permute_0321 data) [mask_speech] mask_noise 0 mask_speech
     = einsum_ct_et (permute_0321 data))
  ∧ (beamformer_type self = "wpd" →
     interference' self (permute_0321 data) [mask_speech] mask_noise 0 mask_speech
     = wpd_covariance' self (permute_0321 data) mask_speech).
Proof.
  intros Hmasks Hn Hbt. split.
  - unfold DNN_Beamformer.forward. rewrite Hmasks. cbn [length].
    rewrite Hn. rewrite bool_decide_true by done. cbn [negb].
    rewrite bool_decide_true by done.
    unfold interference.
    destruct (supported_cases _ Hbt) as [Heq|[Heq|Heq]]; rewrite Heq; cbn;
      by destruct (apply_beamforming' _ _ _ _ _) as [[? ?]| |].
  - unfold interference. split; [|split]; intros ->; reflexivity.
Qed.

(** X19: the number of masks is checked first.  A count that differs
    from [nmask] fails the assertion.  With a single mask, taken as the
    noise mask, no filter is designed and the list of enhanced signals
    is empty; with no mask at all, reading the last mask raises
    IndexError. *)
Theorem forward_mask_count_edge_cases self data ilens :
  (nmask self ≠ Z.of_nat (length (mask_estimator (permute_0321 data) ilens)) →
   forward mlp_psd gvec mask_estimator size permute_0321
      get_power_spectral_density_matrix einsum_ct_et power pmul channel_mean
      reciprocal_clamp_min get_covariances get_mvdr_vector apply_beamforming_vector
      get_WPD_filter_v2 perform_WPD_filtering transpose self data ilens = Raise AssertionError)
  ∧ (∀ mask_noise,
       mask_estimator (permute_0321 data) ilens = [mask_noise] → nmask self = 1%Z →
       beamformer_type self ∈ ["mvdr"; "mpdr"; "wpd"] →
       forward' self data ilens = Ok (Many [], ilens, [mask_noise]))
  ∧ (mask_estimator (permute_0321 data) ilens = [] → nmask self = 0%Z →
     forward' self data ilens = Raise IndexError).
Proof.
  split; [|split].
  - intros Hne. unfold DNN_Beamformer.forward. by rewrite bool_decide_false.
  - intros mask_noise Hmasks Hn Hbt. unfold DNN_Beamformer.forward.
    rewrite Hmasks, Hn. cbn.
    destruct (supported_cases _ Hbt) as [Heq|[Heq|Heq]]; by rewrite Heq.
  - intros Hmasks Hn. unfold DNN_Beamformer.forward. by rewrite Hmasks, Hn.
Qed.

(** X20: one iteration of the speaker loop pops the speaker's PSD off
    [psd_speeches] and inserts it back at the same position: whenever
    the iteration returns, the list it leaves behind is the list it
    started from. *)
Theorem speaker_step_restores_psd_speeches self data psd_n psd_speeches i enh w psds :
  speaker_step mlp_psd gvec size get_mvdr_vector apply_beamforming_vector
    get_WPD_filter_v2 perform_WPD_filtering self data psd_n psd_speeches i = Ok (enh, w, psds) →
  psds = psd_speeches.
Proof.
  unfold DNN_Beamformer.speaker_step, py_pop. intros Hrun.
  destruct (psd_speeches !! i) as [psd_speech|] eqn:Hi; [|done]. cbn in Hrun.
  match type of Hrun with
  | (?m ≫= _) = _ => destruct m as [[enh' w']| |]; cbn in Hrun; [|done..]
  end.
  injection Hrun as _ _ <-. by apply py_insert_delete.
Qed.

(** X21: a fixed reference channel at or beyond the number of channels
    is an index error: the one-hot reference vector cannot be built,
    whatever the beamformer type. *)
Theorem fixed_reference_channel_out_of_range self data psd_speech psd_n
    (beamformer_type : string) B F C T :
  size data = (B, F, C, T) → (Z.of_nat C ≤ ref_channel self)%Z →
  apply_beamforming mlp_psd gvec size get_mvdr_vector apply_beamforming_vector
    get_WPD_filter_v2 perform_WPD_filtering self data psd_speech psd_n beamformer_type = Raise IndexError.
Proof.
  intros Hsize Hch. unfold DNN_Beamformer.apply_beamforming, reference_vector.
  rewrite bool_decide_false by lia. rewrite Hsize.
  unfold Torch.wrap_index. by rewrite !bool_decide_false by lia.
Qed.

(** X22: whenever [forward] returns, it hands back [ilens] and the
    estimated masks unchanged, the number of masks is [nmask], and there
    is one enhanced signal for each mask but the last: a single tensor
    in the two-mask branch, a list of [nmask - 1] tensors otherwise. *)
Theorem forward_output_shape self data ilens out ilens' masks :
  forward mlp_psd gvec mask_estimator size permute_0321
    get_power_spectral_density_matrix einsum_ct_et power pmul channel_mean
    reciprocal_clamp_min get_covariances get_mvdr_vector apply_beamforming_vector
    get_WPD_filter_v2 perform_WPD_filtering transpose self data ilens = Ok (out, ilens', masks) →
  ilens' = ilens
  ∧ masks = mask_estimator (permute_0321 data) ilens
  ∧ nmask self = Z.of_nat (length masks)
  ∧ match out with
    | One _ => nmask self = 2%Z
    | Many enhanced => Z.of_nat (length enhanced) = (nmask self - 1)%Z
    end.
Proof.
  unfold DNN_Beamformer.forward. intros Hrun.
  case_bool_decide as Hn; [|done]. cbn [negb] in Hrun.
  case_bool_decide as H2.
  - destruct (mask_estimator (permute_0321 data) ilens) as [|m1 [|m2 [|m3 ms]]] eqn:Hm;
      try done.
    match type of Hrun with
    | (?m ≫= _) = _ => destruct m as [psd_n| |]; cbn in Hrun; [|done..]
    end.
    match type of Hrun with
    | (?m ≫= _) = _ => destruct m as [[enhanced ws]| |]; cbn in Hrun; [|done..]
    end.
    by injection Hrun as <- <- <-.
  - destruct (last (mask_estimator (permute_0321 data) ilens)) as [mask_noise|] eqn:Hlast;
      [|done].
    match type of Hrun with
    | (?m ≫= _) = _ => destruct m as [psd_n| |]; cbn in Hrun; [|done..]
    end.
    match type of Hrun with
    | (?m ≫= _) = _ => destruct m as [[enhanced ws]| |] eqn:Hloop; cbn in Hrun; [|done..]
    end.
    injection Hrun as <- <- <-. split; [done|]. split; [done|]. split; [done|].
    apply speaker_loop_length in Hloop. rewrite Hloop. simpl.
    unfold Itertools.range. rewrite length_seq.
    destruct (mask_estimator (permute_0321 data) ilens); [done|]. simpl in Hn. lia.
Qed.

End BeamformerEdges.

Lemma two_mask_branch_is_single_speaker_design_witness :
  ∃ e, SpecDesignToy.toy_forward_with [1%R; 3%R] (Build 2 0 "mvdr" 0 5 3)
       = Ok (One e, (), [1%R; 3%R])
       ∧ (entry e 0 0 0 0).1 = 3%R.
Proof.
  destruct (two_mask_branch_is_single_speaker_design
    (Data := unit) (Ilens := unit) (Mask := R) (Power := unit)
    (λ x, x) (λ _, 0%R) (λ _ _, [1%R; 3%R]) (λ _, (1, 1, 1, 1)) (λ d, d)
    (λ _ m, toy_psd m) (λ _, toy_psd 7) (λ _, ()) (λ _ _, ()) (λ p, p) (λ p _, p)
    (λ _ _ _ _, toy_psd 11) (λ _ psd_n _, psd_n) (λ ws _, ws)
    (λ _ psd_n _, psd_n) (λ ws _ _ _, ws) (λ e, e)
    (Build 2 0 "mvdr" 0 5 3) () () 1%R 3%R) as [Hrun _].
  - reflexivity.
  - reflexivity.
  - simpl. apply list_elem_of_here.
  - eexists. split; [exact Hrun|reflexivity].
Defined.

Lemma speaker_step_restores_psd_speeches_witness :
  ∃ enh w,
    SpecDesignToy.toy_speaker_step (Build 3 0 "mvdr" 0 5 3) (OneTensor (toy_psd 3))
      [toy_psd 1; toy_psd 2] 1
    = Ok (enh, w, [toy_psd 1; toy_psd 2]).
Proof.
  assert (∃ enh w psds,
    SpecDesignToy.toy_speaker_step (Build 3 0 "mvdr" 0 5 3) (OneTensor (toy_psd 3))
      [toy_psd 1; toy_psd 2] 1 = Ok (enh, w, psds)) as (enh & w & psds & Hrun).
  { by do 3 eexists. }
  exists enh, w. rewrite Hrun. do 2 f_equal.
  exact (speaker_step_restores_psd_speeches (Data := unit) (Filter := tensor4)
    (Enhanced := tensor4) (λ x, x) (λ _, 0%R) (λ _, (1, 1, 1, 1))
    (λ _ psd_n _, psd_n) (λ ws _, ws) (λ _ psd_n _, psd_n) (λ ws _ _ _, ws)
    (Build 3 0 "mvdr" 0 5 3) () (OneTensor (toy_psd 3)) [toy_psd 1; toy_psd 2] 1
    enh w psds Hrun).
Defined.

Lemma fixed_reference_channel_out_of_range_witness :
  SpecDesignToy.toy_apply_beamforming 2 (Build 2 2 "mvdr" 0 5 3) (toy_psd 1) (toy_psd 3) "mvdr"
  = Raise IndexError.
Proof.
  apply (fixed_reference_channel_out_of_range (Data := unit) (Filter := tensor4)
    (Enhanced := tensor4) (λ x, x) (λ _, 0%R) (λ _, (1, 1, 2, 1))
    (λ _ psd_n _, psd_n) (λ ws _, ws) (λ _ psd_n _, psd_n) (λ ws _ _ _, ws)
    (Build 2 2 "mvdr" 0 5 3) () (toy_psd 1) (toy_psd 3) "mvdr" 1 1 2 1).
  - reflexivity.
  - simpl. lia.
Defined.

Lemma forward_output_shape_witness :
  ∃ enhanced,
    toy_forward (Build 3 0 "mvdr" 0 5 3) = Ok (Many enhanced, (), [1%R; 2%R; 3%R])
    ∧ Z.of_nat (length enhanced) = 2%Z.
Proof.
  assert (∃ enhanced,
    toy_forward (Build 3 0 "mvdr" 0 5 3) = Ok (Many enhanced, (), [1%R; 2%R; 3%R]))
    as [enhanced Hrun] by (by eexists).
  exists enhanced. split; [done|].
  apply (forward_output_shape (Data := unit) (Ilens := unit) (Mask := R) (Power := unit)
    (λ x, x) (λ _, 0%R) (λ _ _, [1%R; 2%R; 3%R]) (λ _, (1, 1, 1, 1)) (λ d, d)
    (λ _ m, toy_psd m) (λ _, toy_psd 7) (λ _, ()) (λ _ _, ()) (λ p, p) (λ p _, p)
    (λ _ _ _ _, toy_psd 11) (λ _ psd_n _, psd_n) (λ ws _, ws)
    (λ _ psd_n _, psd_n) (λ ws _ _ _, ws) (λ e, e)
    (Build 3 0 "mvdr" 0 5 3) () () (Many enhanced) () [1%R; 2%R; 3%R] Hrun).
Defined.

(** ** The attention reference: what it reads and when it is uniform *)

Section AttentionExtras.
Import TorchComplex AttentionReference SpecAttention.
Context (mlp_psd : list R → list R) (gvec : list R → R).

(** X23: the diagonal of the PSD is masked out before anything is
    computed from it: two PSDs of the same shape that agree off the
    diagonal give the same outcome, be it the weights, the failed
    assertion or the non-finite result. *)
Theorem attention_ignores_diagonal (psd_in psd_in' : tensor4) (scaling : R) :
  shape psd_in = shape psd_in' →
  (∀ b f c e, c ≠ e → entry psd_in b f c e = entry psd_in' b f c e) →
  AttentionReference.forward mlp_psd gvec psd_in scaling
  = AttentionReference.forward mlp_psd gvec psd_in' scaling.
Proof.
  intros Hshape Hoff. unfold AttentionReference.forward. rewrite <- Hshape.
  destruct (shape psd_in) as [[[B F] C] C'].
  case_bool_decide; [|done]. cbn [negb].
  apply mapM_ext_elem. intros b _.
  f_equal. apply mapM_ext_elem. intros c _.
  f_equal. apply mapM_ext_elem. intros f _.
  do 3 f_equal. apply list_fmap_ext. intros _ e _.
  case_bool_decide; [done|]. by apply Hoff.
Qed.

Lemma masked_sum (x : R) (c s n : nat) :
  foldr Rplus 0%R ((λ e, if bool_decide (c = e) then 0%R else x) <$> seq s n)
  = ((INR n - (if bool_decide (s ≤ c < s + n) then 1 else 0)) * x)%R.
Proof.
  revert s. induction n as [|n IH]; intros s.
  { simpl. rewrite bool_decide_false by lia. lra. }
  cbn [seq]. rewrite fmap_cons. cbn [foldr]. rewrite IH, S_INR.
  destruct (decide (c = s)) as [->|Hne].
  - rewrite (bool_decide_true (s = s)) by done.
    rewrite bool_decide_false by lia. rewrite bool_decide_true by lia. lra.
  - rewrite (bool_decide_false (c = s)) by done.
    destruct (decide (S s ≤ c < S s + n)) as [Hin|Hout].
    + rewrite !bool_decide_true by lia. lra.
    + rewrite !bool_decide_false by lia. lra.
Qed.

(** The masked row sum when all off-diagonal entries of the bin are [v]. *)
Lemma masked_row_csum (psd_in : tensor4) (v : complex) (b f c C : nat) :
  c < C →
  (∀ c' e, c' ≠ e → entry psd_in b f c' e = v) →
  csum (off_diagonal psd_in b f c <$> seq 0 C)
  = (((INR C - 1) * v.1)%R, ((INR C - 1) * v.2)%R).
Proof.
  intros Hc Hv. unfold csum. rewrite !py_sum_foldr, <- !list_fmap_compose.
  rewrite (list_fmap_ext _ (λ e, if bool_decide (c = e) then 0%R else v.1) (seq 0 C)).
  2:{ intros _ e _. simpl. unfold off_diagonal. case_bool_decide; [done|].
      by rewrite Hv. }
  rewrite (list_fmap_ext (snd ∘ _) (λ e, if bool_decide (c = e) then 0%R else v.2) (seq 0 C)).
  2:{ intros _ e _. simpl. unfold off_diagonal. case_bool_decide; [done|].
      by rewrite Hv. }
  rewrite !masked_sum. rewrite !bool_decide_true by lia. done.
Qed.

Lemma softmax_replicate (n : nat) (t : R) :
  1 ≤ n → softmax (replicate n t) = replicate n (1 / INR n)%R.
Proof.
  intros Hn. unfold softmax. rewrite !fmap_replicate. f_equal.
  assert (foldr Rplus 0%R (replicate n (exp t)) = (INR n * exp t)%R) as ->.
  { clear Hn. induction n as [|n IH]; [simpl; lra|].
    cbn [replicate foldr]. rewrite IH, S_INR. lra. }
  pose proof (exp_pos t). assert (0 < INR n)%R by (apply lt_0_INR; lia).
  field. split; lra.
Qed.

(** X24: when, in every bin, all off-diagonal entries of the PSD are
    equal (as for channels that carry the same signal), every channel
    gets the same score and the attention weights are uniform, 1/C
    each, whatever the learned layers are. *)
Theorem attention_uniform_on_symmetric_channels (psd_in : tensor4) (scaling : R)
    (B F C : nat) :
  shape psd_in = (B, F, C, C) → 2 ≤ C →
  (∀ b f c e c' e', c ≠ e → c' ≠ e' → entry psd_in b f c e = entry psd_in b f c' e') →
  AttentionReference.forward mlp_psd gvec psd_in scaling
  = Ok (replicate B (replicate C (1 / INR C)%R)).
Proof.
  intros Hshape HC Hsym.
  rewrite (attention_forward_two_channels mlp_psd gvec psd_in scaling B F C) by done.
  f_equal. rewrite <- (length_seq B 0) at 2. apply const_fmap.
  intros _ b _. unfold attention.
  assert (∀ c, c < C → score mlp_psd gvec psd_in F C b c = score mlp_psd gvec psd_in F C b 0)
    as Hscore.
  { intros c Hc. unfold score. do 3 f_equal. apply list_fmap_ext. intros _ f _.
    unfold row_feature.
    rewrite (masked_row_csum psd_in (entry psd_in b f 0 1) b f c C Hc).
    2:{ intros c' e Hne. by apply Hsym. }
    rewrite (masked_row_csum psd_in (entry psd_in b f 0 1) b f 0 C).
    2:{ lia. }
    2:{ intros c' e Hne. by apply Hsym. }
    done. }
  rewrite (const_fmap _ (seq 0 C) (score mlp_psd gvec psd_in F C b 0)).
  2:{ intros i c [-> Hc]%lookup_seq. apply Hscore. lia. }
  rewrite length_seq, fmap_replicate. apply softmax_replicate. lia.
Qed.

End AttentionExtras.

Lemma attention_ignores_diagonal_witness :
  AttentionReference.forward (λ x, x) (λ xs, foldr Rplus 0%R xs)
    (Tensor4 (1, 1, 2, 2) (λ _ _ c e, if bool_decide (c = e) then (5%R, 0%R) else (1%R, 0%R))) 2
  = AttentionReference.forward (λ x, x) (λ xs, foldr Rplus 0%R xs)
      (Tensor4 (1, 1, 2, 2) (λ _ _ _ _, (1%R, 0%R))) 2.
Proof.
  apply (attention_ignores_diagonal (λ x, x) (λ xs, foldr Rplus 0%R xs)
    (Tensor4 (1, 1, 2, 2) (λ _ _ c e, if bool_decide (c = e) then (5%R, 0%R) else (1%R, 0%R)))
    (Tensor4 (1, 1, 2, 2) (λ _ _ _ _, (1%R, 0%R))) 2).
  - reflexivity.
  - intros b f c e Hne. simpl. by rewrite bool_decide_false.
Defined.

Lemma attention_uniform_on_symmetric_channels_witness :
  AttentionReference.forward (λ x, x) (λ xs, foldr Rplus 0%R xs)
    (Tensor4 (1, 1, 2, 2) (λ _ _ _ _, (1%R, 0%R))) 2
  = Ok [[(1 / INR 2)%R; (1 / INR 2)%R]].
Proof.
  apply (attention_uniform_on_symmetric_channels (λ x, x) (λ xs, foldr Rplus 0%R xs)
    (Tensor4 (1, 1, 2, 2) (λ _ _ _ _, (1%R, 0%R))) 2 1 1 2); [reflexivity|lia|done].
Defined.

(** ** The criteria: time-frequency losses *)

Section TensorFacts.
Import TorchComplex TorchTensor.

Lemma broadcast_axis_comm m n : broadcast_axis m n = broadcast_axis n m.
Proof. unfold broadcast_axis. repeat case_bool_decide; congruence. Qed.

Lemma broadcast_axis_diag m : broadcast_axis m m = Some m.
Proof. unfold broadcast_axis. by rewrite bool_decide_true. Qed.

Lemma broadcast_rev_comm s1 : ∀ s2, broadcast_rev s1 s2 = broadcast_rev s2 s1.
Proof.
  induction s1 as [|m s1 IH]; intros [|n s2]; try done.
  cbn [broadcast_rev]. by rewrite broadcast_axis_comm, IH.
Qed.

Lemma broadcast_rev_diag s : broadcast_rev s s = Some s.
Proof.
  induction s as [|m s IH]; [done|].
  cbn [broadcast_rev]. rewrite broadcast_axis_diag. cbn. by rewrite IH.
Qed.

Lemma broadcast_comm s1 s2 : broadcast s1 s2 = broadcast s2 s1.
Proof. unfold broadcast. by rewrite broadcast_rev_comm. Qed.

Lemma broadcast_diag s : broadcast s s = Some s.
Proof. unfold broadcast. rewrite broadcast_rev_diag. cbn. by rewrite reverse_involutive. Qed.

Lemma sum_nonneg (xs : list R) : Forall (λ x, 0 <= x)%R xs → (0 <= TorchTensor.sum xs)%R.
Proof. apply foldr_Rplus_nonneg. Qed.

Lemma sum_replicate (n : nat) (c : R) : TorchTensor.sum (replicate n c) = (INR n * c)%R.
Proof.
  unfold TorchTensor.sum. induction n as [|n IH]; [simpl; lra|].
  cbn [replicate foldr]. rewrite IH, S_INR. lra.
Qed.

Lemma indices_nonempty (s : list nat) : Forall (λ d, 1 ≤ d) s → indices s ≠ [].
Proof.
  induction 1 as [|d s Hd _ IH]; [done|].
  cbn [indices]. destruct d as [|d]; [lia|].
  cbn [seq]. rewrite bind_cons.
  destruct (indices s) as [|idx rest]; [done|]. by rewrite fmap_cons.
Qed.

Lemma mean_tail_ext (x y : tensor R) :
  size x = size y → (∀ idx, item x idx = item y idx) → mean_tail x = mean_tail y.
Proof.
  intros Hsize Hitem. unfold mean_tail. rewrite <- Hsize.
  destruct (size x) as [|B tail]; [done|].
  apply mapM_ext_elem. intros b _.
  by rewrite (list_fmap_ext (λ idx, item x (b :: idx)) (λ idx, item y (b :: idx)) (indices tail)).
Qed.

Lemma mean_tail_const (x : tensor R) (B : nat) (tail : list nat) (c : R) :
  size x = B :: tail → Forall (λ d, 1 ≤ d) tail →
  (∀ idx, item x idx = c) →
  mean_tail x = Ok (replicate B c).
Proof.
  intros Hsize Htail Hitem. unfold mean_tail. rewrite Hsize.
  rewrite (mapM_Ok_fmap _ (λ _, c)).
  { rewrite (const_fmap _ _ c) by done. by rewrite length_seq. }
  intros b _.
  rewrite (const_fmap _ (indices tail) c) by (intros; apply Hitem).
  pose proof (indices_nonempty tail Htail) as Hne.
  destruct (indices tail) as [|idx rest] eqn:Hidx; [done|].
  rewrite length_replicate, sum_replicate. f_equal.
  assert (0 < INR (length (idx :: rest)))%R by (apply lt_0_INR; simpl; lia).
  field. lra.
Qed.

Lemma mean_tail_nonneg (x : tensor R) (losses : list R) :
  (∀ idx, 0 <= item x idx)%R → mean_tail x = Ok losses →
  Forall (λ l, 0 <= l)%R losses.
Proof.
  intros Hpos. unfold mean_tail. destruct (size x) as [|B tail]; [done|].
  generalize (seq 0 B). intros bs. revert losses.
  induction bs as [|b bs IH]; intros losses Hrun.
  { cbn in Hrun. injection Hrun as <-. constructor. }
  cbn [mapM] in Hrun.
  set (entries := (λ idx, item x (b :: idx)) <$> indices tail) in *.
  assert (Forall (λ v, 0 <= v)%R entries) as Hentries.
  { apply Forall_fmap, Forall_forall. intros idx _. apply Hpos. }
  destruct entries as [|v vs] eqn:He; [done|]. cbn in Hrun.
  destruct (mapM _ bs) as [ls| |]; [|done..]. cbn in Hrun. injection Hrun as <-.
  constructor; [|by apply IH].
  apply Rmult_le_pos; [by apply (sum_nonneg (v :: vs))|].
  apply Rlt_le, Rinv_0_lt_compat. apply (lt_0_INR (S (length vs))). lia.
Qed.

(** The magnitude of a difference does not depend on the order of the
    operands. *)
Lemma sub_abs_sym (x y : value) :
  match sub x y, sub y x with
  | Ok d, Ok d' =>
      size (TorchTensor.abs d) = size (TorchTensor.abs d')
      ∧ ∀ idx, item (TorchTensor.abs d) idx = item (TorchTensor.abs d') idx
  | Raise e, Raise e' => e = e'
  | _, _ => False
  end.
Proof.
  assert (∀ a b c d : R, sqrt ((a - b) ^ 2 + (c - d) ^ 2) = sqrt ((b - a) ^ 2 + (d - c) ^ 2))
    as Hsqrt by (intros; f_equal; ring).
  destruct x as [a|a], y as [b|b]; unfold sub, zip_tensors; unfold complex in *;
    pose proof (broadcast_comm (size a) (size b)) as Hcomm;
    destruct (broadcast (size a) (size b)) as [s|],
             (broadcast (size b) (size a)) as [s'|]; try done;
    cbn; try done; injection Hcomm as <-;
    (split; [done|]); intros idx; unfold cabs; cbn.
  - apply Rabs_minus_sym.
  - f_equal. ring.
  - f_equal. ring.
  - apply Hsqrt.
Qed.

Lemma abs_nonneg (x : value) idx : (0 <= item (TorchTensor.abs x) idx)%R.
Proof. destruct x as [a|a]; cbn; [apply Rabs_pos|apply sqrt_pos]. Qed.

End TensorFacts.

Section CriteriaProofs.
Import TorchComplex TorchTensor EnhancementCriteria.
Context (repr : value → string).

Lemma criteria_eps_pos : (0 < EnhancementCriteria.eps)%R.
Proof.
  unfold EnhancementCriteria.eps. apply Rdiv_lt_0_compat; [lra|]. apply pow_lt. lra.
Qed.

Lemma squared_magnitude_mean_sym (x y : value) :
  (d ← sub x y; mean_tail (map_tensor (λ u, u ^ 2)%R (TorchTensor.abs d)))
  = (d ← sub y x; mean_tail (map_tensor (λ u, u ^ 2)%R (TorchTensor.abs d))).
Proof.
  pose proof (sub_abs_sym x y) as Hsym.
  destruct (sub x y) as [d|e|], (sub y x) as [d'|e'|]; cbn; try done.
  - destruct Hsym as [Hsize Hitem]. apply mean_tail_ext; [done|].
    intros idx. cbn. by rewrite Hitem.
  - by rewrite Hsym.
Qed.

(** X25: [tf_mse_loss] checks the ranks first: different ranks fail
    the assertion, equal ranks other than 3 and 4 raise the ValueError.
    Every loss it returns is at least 0, and for ranks 3 and 4 the two
    arguments can be exchanged without changing the outcome. *)
Theorem tf_mse_loss_is_a_symmetric_distance (ref inf : value) :
  (value_dim ref ≠ value_dim inf → tf_mse_loss repr ref inf = Raise AssertionError)
  ∧ (value_dim ref = value_dim inf → value_dim ref ≠ 3 → value_dim ref ≠ 4 →
     tf_mse_loss repr ref inf = Raise (invalid_input_shape repr ref inf))
  ∧ (∀ losses, tf_mse_loss repr ref inf = Ok losses → Forall (λ l, 0 <= l)%R losses)
  ∧ (value_dim ref = 3 ∨ value_dim ref = 4 →
     tf_mse_loss repr ref inf = tf_mse_loss repr inf ref).
Proof.
  split; [|split; [|split]].
  - intros Hne. unfold tf_mse_loss. by rewrite bool_decide_false.
  - intros Heq H3 H4. unfold tf_mse_loss.
    rewrite bool_decide_true by done. cbn [negb].
    by rewrite !bool_decide_false by done.
  - intros losses. unfold tf_mse_loss.
    case_bool_decide as Heq; [|done]. cbn [negb].
    assert (∀ r, (d ← sub ref inf; mean_tail (map_tensor (λ u, u ^ 2)%R (TorchTensor.abs d)))
                 = Ok r → Forall (λ l, 0 <= l)%R r) as Hpos.
    { intros r Hrun. destruct (sub ref inf) as [d| |]; [|done..]. cbn in Hrun.
      eapply mean_tail_nonneg; [|exact Hrun]. intros idx. cbn. apply pow2_ge_0. }
    repeat case_bool_decide; try done; apply Hpos.
  - intros Hdim. unfold tf_mse_loss.
    destruct (decide (value_dim ref = value_dim inf)) as [Heq|Hne].
    + rewrite <- Heq. rewrite (bool_decide_true (value_dim ref = value_dim ref)) by done.
      cbn [negb]. destruct Hdim as [H3|H4].
      * rewrite !(bool_decide_true (value_dim ref = 3)) by done.
        apply squared_magnitude_mean_sym.
      * rewrite !(bool_decide_false (value_dim ref = 3)) by lia.
        rewrite !(bool_decide_true (value_dim ref = 4)) by done.
        apply squared_magnitude_mean_sym.
    + rewrite (bool_decide_false (value_dim ref = value_dim inf)) by done.
      by rewrite (bool_decide_false (value_dim inf = value_dim ref)) by congruence.
Qed.

Lemma sub_self (x : value) :
  ∃ d, sub x x = Ok d ∧ value_size d = value_size x
       ∧ isinstance_ComplexTensor d = isinstance_ComplexTensor x
       ∧ match d with
         | RealTensor t => ∀ idx, item t idx = 0%R
         | ComplexTensor t => ∀ idx, item t idx = (0%R, 0%R)
         end.
Proof.
  destruct x as [a|a]; unfold sub, zip_tensors; rewrite broadcast_diag; cbn;
    eexists; (split; [reflexivity|]); cbn; (split; [done|]); (split; [done|]);
    intros idx; [|f_equal]; ring.
Qed.

(** X26: on two equal tensors of rank 3 or 4 with no empty axis after
    the first, [tf_mse_loss] is 0 for every batch element.
    [tf_l1_loss] is 0 there only for real tensors: for a ComplexTensor
    the eps added to the difference makes it 1e-8. *)
Theorem tf_losses_of_equal_tensors (x : value) (B : nat) (tail : list nat) :
  value_size x = B :: tail →
  length tail = 2 ∨ length tail = 3 →
  Forall (λ d, 1 ≤ d) tail →
  tf_mse_loss repr x x = Ok (replicate B 0%R)
  ∧ tf_l1_loss repr x x
    = Ok (replicate B (if isinstance_ComplexTensor x then EnhancementCriteria.eps else 0%R)).
Proof.
  intros Hsize Hrank Htail.
  assert (value_dim x = 3 ∨ value_dim x = 4) as Hdim.
  { assert (value_dim x = length (value_size x)) as -> by (by destruct x).
    rewrite Hsize. simpl. lia. }
  destruct (sub_self x) as (d & Hsub & Hdsize & Hkind & Hzero).
  rewrite Hsize in Hdsize.
  pose proof criteria_eps_pos as Heps.
  split.
  - unfold tf_mse_loss. rewrite bool_decide_true by done. cbn [negb].
    assert ((d ← sub x x; mean_tail (map_tensor (λ u, u ^ 2)%R (TorchTensor.abs d)))
            = Ok (replicate B 0%R)) as Hrun.
    { rewrite Hsub. cbn.
      apply (mean_tail_const _ B tail); [by destruct d|done|].
      intros idx. destruct d as [t|t]; cbn; rewrite Hzero.
      - rewrite Rabs_R0. ring.
      - unfold cabs. cbn [fst snd]. replace (0 ^ 2 + 0 ^ 2)%R with 0%R by ring.
        rewrite sqrt_0. ring. }
    destruct Hdim as [-> | ->]; cbn; exact Hrun.
  - unfold tf_l1_loss. rewrite bool_decide_true by done. cbn [negb].
    assert ((d ← sub x x;
             mean_tail (TorchTensor.abs
               (add_scalar d (if isinstance_ComplexTensor x
                              then EnhancementCriteria.eps else 0%R))))
            = Ok (replicate B (if isinstance_ComplexTensor x
                               then EnhancementCriteria.eps else 0%R))) as Hrun.
    { rewrite Hsub. cbn.
      apply (mean_tail_const _ B tail); [by destruct d|done|].
      intros idx. rewrite <- Hkind. destruct d as [t|t]; cbn; rewrite Hzero.
      - rewrite Rplus_0_l. apply Rabs_R0.
      - unfold cabs, cadd_real. cbn [fst snd].
        replace ((0 + EnhancementCriteria.eps) ^ 2 + 0 ^ 2)%R
          with (EnhancementCriteria.eps ^ 2)%R by ring.
        apply sqrt_pow2. lra. }
    destruct Hdim as [-> | ->]; cbn; exact Hrun.
Qed.

End CriteriaProofs.

Lemma tf_losses_of_equal_tensors_witness :
  EnhancementCriteria.tf_l1_loss (λ _, "tensor")
    (TorchTensor.ComplexTensor (TorchTensor.Tensor [2; 1; 1] (λ _, (3%R, 4%R))))
    (TorchTensor.ComplexTensor (TorchTensor.Tensor [2; 1; 1] (λ _, (3%R, 4%R))))
  = Ok [EnhancementCriteria.eps; EnhancementCriteria.eps].
Proof.
  apply (tf_losses_of_equal_tensors (λ _, "tensor")
    (TorchTensor.ComplexTensor (TorchTensor.Tensor [2; 1; 1] (λ _, (3%R, 4%R)))) 2 [1; 1]).
  - reflexivity.
  - by left.
  - repeat constructor.
Defined.

(** ** The criteria: the zero-mean SI-SNR *)

Section SiSnr.
Import TorchTensor EnhancementCriteria SpecSiSnr.

Lemma result_bind_Ok {A C} (a : A) (f : A → result C) : Ok a ≫= f = f a.
Proof. reflexivity. Qed.

Lemma fdiv_nonzero (x y : R) : y ≠ 0%R → fdiv x y = Ok (x / y)%R.
Proof. intros Hy. unfold fdiv. by destruct (Req_EM_T y 0). Qed.

Lemma squares_nonneg (xs : list R) : (0 <= TorchTensor.sum ((λ x, x ^ 2)%R <$> xs))%R.
Proof.
  apply sum_nonneg, Forall_fmap, Forall_forall. intros x _. apply pow2_ge_0.
Qed.

Lemma zero_mean_run (T : nat) (xs : list R) :
  length xs = T →
  mapM (λ x, m ← fdiv (TorchTensor.sum xs) (INR T); Ok (x - m)%R) xs
  = Ok (zero_mean T xs).
Proof.
  intros Hlen. destruct (decide (T = 0)) as [->|HT].
  { by destruct xs. }
  apply mapM_Ok_fmap. intros x _.
  by rewrite fdiv_nonzero by (by apply not_0_INR).
Qed.

Lemma ratio_nonneg (s_target s_estimate : list R) : (0 <= ratio s_target s_estimate)%R.
Proof.
  unfold ratio. pose proof criteria_eps_pos.
  pose proof (squares_nonneg (projection s_target s_estimate)).
  pose proof (squares_nonneg (zip_with Rminus s_estimate (projection s_target s_estimate))).
  apply Rmult_le_pos; [done|]. apply Rlt_le, Rinv_0_lt_compat. lra.
Qed.

(** One batch element: no division is by zero and no logarithm is of a
    non-positive number, thanks to the eps in each denominator and in
    the argument of the logarithm. *)
Lemma si_snr_row_run (T : nat) (r e : list R) :
  length r = T → length e = T → si_snr_row T r e = Ok (loss T r e).
Proof.
  intros Hr He. unfold si_snr_row.
  rewrite (zero_mean_run T r Hr), (zero_mean_run T e He). rewrite !result_bind_Ok.
  pose proof criteria_eps_pos as Heps.
  pose proof (squares_nonneg (zero_mean T r)) as Henergy.
  rewrite (mapM_Ok_fmap _
    (λ x, TorchTensor.sum (zip_with Rmult (zero_mean T e) (zero_mean T r)) * x
          / (TorchTensor.sum ((λ x, x ^ 2) <$> zero_mean T r) + EnhancementCriteria.eps))%R).
  2:{ intros x _. apply fdiv_nonzero. lra. }
  rewrite result_bind_Ok. fold (projection (zero_mean T r) (zero_mean T e)).
  pose proof (squares_nonneg
    (zip_with Rminus (zero_mean T e) (projection (zero_mean T r) (zero_mean T e)))) as Hnoise.
  rewrite fdiv_nonzero by lra. rewrite result_bind_Ok.
  fold (ratio (zero_mean T r) (zero_mean T e)).
  pose proof (ratio_nonneg (zero_mean T r) (zero_mean T e)) as Hratio.
  unfold log10. destruct (Rlt_dec 0 _) as [_|Hn]; [done|]. lra.
Qed.

Lemma row_length (x : tensor R) (T b : nat) : length (row x T b) = T.
Proof. unfold row. by rewrite length_fmap, length_seq. Qed.

Lemma ln_eps : (ln EnhancementCriteria.eps = - (8 * ln 10))%R.
Proof.
  unfold EnhancementCriteria.eps. unfold Rdiv. rewrite Rmult_1_l.
  rewrite ln_Rinv by (apply pow_lt; lra).
  rewrite ln_pow by lra. simpl. lra.
Qed.

Lemma ln_10_pos : (0 < ln 10)%R.
Proof. rewrite <- ln_1. apply ln_increasing; lra. Qed.

Lemma loss_le_80 (T : nat) (r e : list R) : (loss T r e <= 80)%R.
Proof.
  unfold loss. pose proof criteria_eps_pos as Heps. pose proof ln_10_pos as H10.
  pose proof (ratio_nonneg (zero_mean T r) (zero_mean T e)) as Hratio.
  set (q := ratio _ _) in *.
  assert (ln EnhancementCriteria.eps <= ln (q + EnhancementCriteria.eps))%R as Hln.
  { destruct Hratio as [Hpos|<-].
    - apply Rlt_le, ln_increasing; lra.
    - rewrite Rplus_0_l. lra. }
  rewrite ln_eps in Hln.
  assert (-8 <= ln (q + EnhancementCriteria.eps) / ln 10)%R as Hdb.
  { apply Rmult_le_reg_r with (ln 10); [done|].
    unfold Rdiv. rewrite Rmult_assoc, Rinv_l by lra. lra. }
  lra.
Qed.

Lemma loss_empty (r e : list R) : r = [] → loss 0 r e = 80%R.
Proof.
  intros ->. unfold loss.
  pose proof criteria_eps_pos as Heps. pose proof ln_10_pos as H10.
  assert (ratio (zero_mean 0 []) (zero_mean 0 e) = 0%R) as ->.
  { unfold ratio. change (zero_mean 0 []) with (@nil R).
    change (projection [] (zero_mean 0 e)) with (@nil R).
    change (TorchTensor.sum ((λ x, x ^ 2)%R <$> [])) with 0%R.
    unfold Rdiv. ring. }
  rewrite Rplus_0_l, ln_eps. field. lra.
Qed.

(** X27: [si_snr_loss_zeromean] fails the assertion when the two
    sizes differ and cannot unpack a size that is not (B, T).  On two
    tensors of size (B, T) it always returns B finite losses: the eps
    in the denominators and in the logarithm leave no division by zero
    and no logarithm of zero, also for silent or equal signals.  No loss
    exceeds 80 dB, and with T = 0 every loss is 80. *)
Theorem si_snr_loss_zeromean_is_finite (ref inf : tensor R) :
  (size ref ≠ size inf → si_snr_loss_zeromean ref inf = Raise AssertionError)
  ∧ (size ref = size inf → length (size ref) ≠ 2 →
     si_snr_loss_zeromean ref inf = Raise (unpack_error (length (size ref))))
  ∧ (∀ B T, size ref = [B; T] → size inf = [B; T] →
       ∃ losses, si_snr_loss_zeromean ref inf = Ok losses
                 ∧ length losses = B
                 ∧ Forall (λ l, l <= 80)%R losses
                 ∧ (T = 0 → Forall (λ l, l = 80%R) losses)).
Proof.
  split; [|split].
  - intros Hne. unfold si_snr_loss_zeromean. by rewrite bool_decide_false.
  - intros Heq Hdim. unfold si_snr_loss_zeromean.
    rewrite bool_decide_true by done. cbn [negb].
    by destruct (size ref) as [|B [|T [|? ?]]].
  - intros B T Href Hinf.
    exists ((λ b, loss T (row ref T b) (row inf T b)) <$> seq 0 B).
    split; [|split; [|split]].
    + unfold si_snr_loss_zeromean. rewrite Href, Hinf.
      rewrite bool_decide_true by done. cbn [negb].
      apply mapM_Ok_fmap. intros b _.
      apply si_snr_row_run; apply row_length.
    + by rewrite length_fmap, length_seq.
    + apply Forall_fmap, Forall_forall. intros b _. apply loss_le_80.
    + intros ->. apply Forall_fmap, Forall_forall. intros b _. by apply loss_empty.
Qed.

End SiSnr.

(** ** [collect_feats] *)

Section CollectFeats.
Import TorchTensor EnhancementCriteria.
Context {A : Type}.

Lemma max_all_spec (lengths : list Z) :
  lengths ≠ [] →
  ∃ m, max_all lengths = Ok m ∧ m ∈ lengths ∧ ∀ l, l ∈ lengths → (l ≤ m)%Z.
Proof.
  destruct lengths as [|l ls]; [done|]. intros _. unfold max_all.
  exists (foldr Z.max l ls). split; [done|].
  induction ls as [|k ls [Hin Hmax]]; simpl.
  - split; [by left|]. intros x ->%list_elem_of_singleton. lia.
  - split.
    + destruct (Z.max_spec k (foldr Z.max l ls)) as [[_ ->]|[_ ->]].
      * apply elem_of_cons in Hin as [->|Hin]; [by left|]. by do 2 right.
      * right. by left.
    + intros x [->|[->|Hx]%elem_of_cons]%elem_of_cons.
      * specialize (Hmax l). pose proof (Hmax ltac:(by left)). lia.
      * lia.
      * pose proof (Hmax x ltac:(by right)). lia.
Qed.

(** X29: [collect_feats] cuts the mixture along its second axis to
    the longest length of the batch and never pads: with lengths that
    are not negative, the second axis shrinks to the smaller of its size
    and the longest length, no entry changes, and the lengths come back
    as given.  Without any length (an empty batch) taking the maximum
    raises RuntimeError. *)
Theorem collect_feats_cuts_to_longest_length (speech_mix : tensor A) (lengths : list Z) :
  (lengths = [] → collect_feats speech_mix lengths = Raise RuntimeError)
  ∧ (∀ B T rest,
       size speech_mix = B :: T :: rest → lengths ≠ [] →
       (∀ l, l ∈ lengths → (0 ≤ l)%Z) →
       ∃ feats m,
         collect_feats speech_mix lengths = Ok (feats, lengths)
         ∧ m ∈ lengths ∧ (∀ l, l ∈ lengths → (l ≤ m)%Z)
         ∧ size feats = B :: Nat.min T (Z.to_nat m) :: rest
         ∧ ∀ idx, item feats idx = item speech_mix idx).
Proof.
  split.
  - by intros ->.
  - intros B T rest Hsize Hne Hpos.
    destruct (max_all_spec lengths Hne) as (m & Hmax & Hin & Hle).
    unfold collect_feats, slice_axis1. rewrite Hmax, Hsize. cbn.
    eexists _, m. split; [reflexivity|]. split; [done|]. split; [done|]. split; [|done].
    cbn. do 2 f_equal. unfold slice_stop.
    specialize (Hpos m Hin). rewrite bool_decide_false by lia. lia.
Qed.

End CollectFeats.

(** ** Segmentation of long sequences: split, then merge *)

Section Segments.
Import TorchTensor RNN_base.

Lemma slice_index_inside (n i : nat) : i ≤ n → slice_index n (Z.of_nat i) = i.
Proof. intros Hi. unfold slice_index. rewrite bool_decide_false by lia. lia. Qed.

Lemma slice_index_from_end (n i : nat) :
  1 ≤ i → i ≤ n → slice_index n (- Z.of_nat i) = n - i.
Proof. intros H1 Hi. unfold slice_index. rewrite bool_decide_true by lia. lia. Qed.

(** The padded sequence for an even segment size [2 * k]: [k] zeros,
    the input, zeros up to a length that is a multiple of [k]. *)
Lemma pad_segment_even (input : tensor R) (B N T k : nat) :
  size input = [B; N; T] → 1 ≤ k →
  ∃ (padded : tensor R) (r j : nat),
    pad_segment input (Z.of_nat (2 * k)) = Ok (padded, Z.of_nat r)
    ∧ size padded = [B; N; j * k]
    ∧ 2 ≤ j ∧ j * k = T + r + 2 * k ∧ r ≤ 2 * k
    ∧ ∀ b n t,
        item padded [b; n; t]
        = if bool_decide (t < k) then 0%R
          else if bool_decide (t - k < T) then item input [b; n; t - k]
          else 0%R.
Proof.
  intros Hsize Hk.
  assert (Z.of_nat (2 * k) / 2 = Z.of_nat k)%Z as Hstride.
  { replace (Z.of_nat (2 * k)) with (Z.of_nat k * 2)%Z by lia. by apply Z.div_mul. }
  set (S := Z.of_nat (2 * k)) in *.
  assert (0 < S)%Z as HS by (unfold S; lia).
  pose proof (Z.mod_pos_bound (Z.of_nat T) S HS) as Hr.
  pose proof (Z.mod_pos_bound (Z.of_nat k + Z.of_nat T `mod` S) S HS) as Hr'.
  set (pad_aux := zeros [B; N; k]).
  destruct (decide (Z.of_nat T `mod` S ≠ 0)%Z) as [Hmod|Hmod].
  - set (rest := (S - (Z.of_nat k + Z.of_nat T `mod` S) `mod` S)%Z).
    assert (pad_segment input S
            = Ok (cat_last (cat_last pad_aux (cat_last input (zeros [B; N; Z.to_nat rest])))
                           pad_aux, rest)) as Hrun.
    { unfold pad_segment. rewrite Hsize, Hstride.
      rewrite (bool_decide_false (S = 0)%Z) by lia.
      rewrite (bool_decide_true _ Hmod). fold rest.
      rewrite (bool_decide_true (rest > 0)%Z) by (unfold rest; lia).
      rewrite result_bind_Ok. rewrite (bool_decide_false (Z.of_nat k < 0)%Z) by lia.
      by rewrite Nat2Z.id. }
    assert (∃ m, (Z.of_nat k + Z.of_nat T + rest = m * S)%Z ∧ (1 ≤ m)%Z) as [m [Hm Hm1]].
    { pose proof (Z.div_mod (Z.of_nat T) S ltac:(lia)) as HT.
      pose proof (Z.div_mod (Z.of_nat k + Z.of_nat T `mod` S) S ltac:(lia)) as Hkr.
      exists (Z.of_nat T / S + (Z.of_nat k + Z.of_nat T `mod` S) / S + 1)%Z. split.
      - unfold rest. nia.
      - assert (0 ≤ Z.of_nat T / S)%Z by (apply Z.div_pos; lia).
        assert (0 ≤ (Z.of_nat k + Z.of_nat T `mod` S) / S)%Z by (apply Z.div_pos; lia).
        lia. }
    assert (0 < rest ≤ S)%Z as Hrest by (unfold rest; lia).
    clearbody rest.
    eexists _, (Z.to_nat rest), (Z.to_nat (2 * m + 1)).
    split; [by rewrite Z2Nat.id by lia|].
    assert (Z.to_nat (2 * m + 1) * k = T + Z.to_nat rest + 2 * k) as Hlen.
    { apply Nat2Z.inj. rewrite Nat2Z.inj_mul, !Nat2Z.inj_add, !Z2Nat.id by lia.
      unfold S in Hm. nia. }
    split; [|split; [lia|split; [exact Hlen|split; [unfold S in Hrest; lia|]]]].
    + cbn. rewrite Hsize. cbn. do 3 f_equal. lia.
    + intros b n t. cbn. rewrite Hsize. cbn.
      repeat case_bool_decide; try done; try lia.
  - assert (pad_segment input S = Ok (cat_last (cat_last pad_aux input) pad_aux, 0%Z)) as Hrun.
    { unfold pad_segment. rewrite Hsize, Hstride.
      rewrite (bool_decide_false (S = 0)%Z) by lia.
      rewrite (bool_decide_false _ Hmod).
      rewrite result_bind_Ok. rewrite (bool_decide_false (Z.of_nat k < 0)%Z) by lia.
      by rewrite Nat2Z.id. }
    assert (∃ q, (Z.of_nat T = q * S)%Z ∧ (0 ≤ q)%Z) as [q [Hq Hq0]].
    { apply dec_stable in Hmod. exists (Z.of_nat T / S)%Z. split.
      - pose proof (Z.div_mod (Z.of_nat T) S ltac:(lia)). lia.
      - apply Z.div_pos; lia. }
    eexists _, 0, (Z.to_nat (2 * q + 2)).
    split; [exact Hrun|].
    assert (Z.to_nat (2 * q + 2) * k = T + 0 + 2 * k) as Hlen.
    { apply Nat2Z.inj. rewrite Nat2Z.inj_mul, !Nat2Z.inj_add, !Z2Nat.id by lia.
      unfold S in Hq. nia. }
    split; [|split; [lia|split; [exact Hlen|split; [lia|]]]].
    + cbn. rewrite Hsize. cbn. do 3 f_equal. lia.
    + intros b n t. cbn. rewrite Hsize. cbn.
      repeat case_bool_decide; try done; try lia.
Qed.

Lemma forallb_replicate_eqb (n l : nat) : forallb (Nat.eqb l) (replicate n l) = true.
Proof. induction n as [|n IH]; [done|]. simpl. by rewrite Nat.eqb_refl. Qed.

(** The segments of the padded sequence: [j - 1] of them, each of
    length [2 * k], segment [i] starting at [i * k]. *)
Lemma split_segment_even (input : tensor R) (B N T k : nat) :
  size input = [B; N; T] → 1 ≤ k →
  ∃ (segments padded : tensor R) (r j : nat),
    split_segment input (Z.of_nat (2 * k)) = Ok (segments, Z.of_nat r)
    ∧ size segments = [B; N; 2 * k; j - 1]
    ∧ 2 ≤ j ∧ j * k = T + r + 2 * k ∧ r ≤ 2 * k
    ∧ (∀ b n s i, i < j - 1 → item segments [b; n; s; i] = item padded [b; n; i * k + s])
    ∧ ∀ b n t,
        item padded [b; n; t]
        = if bool_decide (t < k) then 0%R
          else if bool_decide (t - k < T) then item input [b; n; t - k]
          else 0%R.
Proof.
  intros Hsize Hk.
  destruct (pad_segment_even input B N T k Hsize Hk)
    as (padded & r & j & Hpad & Hpsize & Hj & Hlen & Hrest & Hitem).
  assert (Z.of_nat (2 * k) / 2 = Z.of_nat k)%Z as Hstride.
  { replace (Z.of_nat (2 * k)) with (Z.of_nat k * 2)%Z by lia. by apply Z.div_mul. }
  assert ((Z.of_nat (j * k) - Z.of_nat (2 * k)) / Z.of_nat k + 1 = Z.of_nat (j - 1))%Z as Hnum.
  { replace (Z.of_nat (j * k) - Z.of_nat (2 * k))%Z with (Z.of_nat (j - 2) * Z.of_nat k)%Z by nia.
    rewrite Z.div_mul by lia. lia. }
  assert ((λ i : nat,
             slice_index (j * k) (Z.of_nat i * Z.of_nat k + Z.of_nat (2 * k))
             - slice_index (j * k) (Z.of_nat i * Z.of_nat k)) <$> seq 0 (j - 1)
          = replicate (j - 1) (2 * k)) as Hlens.
  { rewrite <- (length_seq (j - 1) 0) at 2. apply const_fmap.
    intros i' i [-> Hi]%lookup_seq. cbn [Nat.add]. set (i := i').
    replace (Z.of_nat i * Z.of_nat k + Z.of_nat (2 * k))%Z with (Z.of_nat (i * k + 2 * k)) by lia.
    replace (Z.of_nat i * Z.of_nat k)%Z with (Z.of_nat (i * k)) by lia.
    rewrite !slice_index_inside by nia. lia. }
  eexists _, padded, r, j.
  split; [|split; [|split; [done|split; [done|split; [done|split; [|done]]]]]].
  - unfold split_segment. rewrite Hpad, result_bind_Ok. cbn beta iota. rewrite Hpsize, Hstride.
    rewrite (bool_decide_false (Z.of_nat k = 0)%Z) by lia.
    rewrite Hnum, Nat2Z.id, Hlens.
    assert (replicate (j - 1) (2 * k) = 2 * k :: replicate (j - 2) (2 * k)) as ->.
    { by replace (j - 1) with (S (j - 2)) by lia. }
    rewrite forallb_replicate_eqb. cbn [negb]. reflexivity.
  - reflexivity.
  - intros b n s i Hi. cbn.
    replace (Z.of_nat i * Z.of_nat k)%Z with (Z.of_nat (i * k)) by lia.
    by rewrite slice_index_inside by nia.
Qed.

(** The overlap-add loop after [i] segments: the first and the last
    half segment have been added once, everything between them twice. *)
Lemma merge_loop (segments padded : tensor R) (k num L B N : nat) :
  1 ≤ k →
  (∀ b n s i, i < num → item segments [b; n; s; i] = item padded [b; n; i * k + s]) →
  ∀ i, i ≤ num →
    size (foldl (add_segment segments (2 * k) k) (zeros [B; N; L]) (seq 0 i)) = [B; N; L]
    ∧ ∀ b n t,
        item (foldl (add_segment segments (2 * k) k) (zeros [B; N; L]) (seq 0 i)) [b; n; t]
        = ((if bool_decide (i = 0)%nat then 0
            else if bool_decide (t < k)%nat then 1
            else if bool_decide (t < i * k)%nat then 2
            else if bool_decide (t < (i + 1) * k)%nat then 1
            else 0) * item padded [b; n; t])%R.
Proof.
  intros Hk Hsegs. induction i as [|i IH]; intros Hi.
  { split; [done|]. intros b n t. rewrite (bool_decide_true (0 = 0)) by done. cbn. lra. }
  destruct IH as [IHsize IHitem]; [lia|].
  rewrite seq_S, foldl_app. cbn [foldl Nat.add]. split; [done|].
  intros b n t. cbn [add_segment item]. rewrite IHitem.
  assert ((i + 1) * k = i * k + k) as E1 by lia.
  assert (S i * k = i * k + k) as E2 by lia.
  assert (S (i + 1) * k = i * k + 2 * k) as E3 by lia.
  rewrite E3, E1, E2.
  rewrite (bool_decide_false (S i = 0)) by lia.
  destruct (decide (i * k ≤ t ∧ t < i * k + 2 * k)) as [Hin|Hout].
  - rewrite (bool_decide_true _ Hin). rewrite Hsegs by lia.
    replace (i * k + (t - i * k)) with t by lia.
    destruct i as [|i].
    + rewrite (bool_decide_true (0 = 0)) by done.
      repeat case_bool_decide; try lia; lra.
    + rewrite (bool_decide_false (S i = 0)) by lia.
      repeat case_bool_decide; try lia; lra.
  - rewrite (bool_decide_false _ Hout).
    destruct i as [|i].
    + rewrite (bool_decide_true (0 = 0)) by done.
      repeat case_bool_decide; try lia; lra.
    + rewrite (bool_decide_false (S i = 0)) by lia.
      repeat case_bool_decide; try lia; lra.
Qed.

(** X30: for an even segment size [2 * k], merging what
    [split_segment] returned gives back a tensor of the size of the
    input in which every entry is twice the entry of the input: each
    sample lies in exactly two of the overlapping segments, and the
    padding of both ends and up to a whole number of half segments is
    cut off again. *)
Theorem merge_of_split_doubles_the_input (input : tensor R) (B N T k : nat) :
  size input = [B; N; T] → 1 ≤ k →
  ∃ (segments : tensor R) (rest : Z) (num_segment : nat) (output : tensor R),
    split_segment input (Z.of_nat (2 * k)) = Ok (segments, rest)
    ∧ size segments = [B; N; 2 * k; num_segment]
    ∧ (0 ≤ rest ≤ Z.of_nat (2 * k))%Z
    ∧ ((Z.of_nat num_segment + 1) * Z.of_nat k = Z.of_nat T + rest + 2 * Z.of_nat k)%Z
    ∧ merge_segment segments rest = Ok output
    ∧ size output = [B; N; T]
    ∧ ∀ b n t, t < T → item output [b; n; t] = (2 * item input [b; n; t])%R.
Proof.
  intros Hsize Hk.
  destruct (split_segment_even input B N T k Hsize Hk)
    as (segments & padded & r & j & Hsplit & Hssize & Hj & Hlen & Hrest & Hsegs & Hpad).
  destruct (merge_loop segments padded k (j - 1) (j * k) B N Hk Hsegs (j - 1))
    as [Hosize Hoitem]; [lia|].
  assert ((2 * k) `div` 2 = k) as Hstride.
  { rewrite Nat.mul_comm. by apply Nat.div_mul. }
  assert (Z.to_nat ((Z.of_nat (j - 1) - 1) * Z.of_nat k + Z.of_nat (2 * k)) = j * k) as HL.
  { apply Nat2Z.inj. rewrite Z2Nat.id by nia. nia. }
  assert (merge_segment segments (Z.of_nat r)
          = Ok (slice_last
                  (foldl (add_segment segments (2 * k) k) (zeros [B; N; j * k]) (seq 0 (j - 1)))
                  (Z.of_nat k) (- Z.of_nat r - Z.of_nat k))) as Hmerge.
  { unfold merge_segment. rewrite Hssize. cbn beta iota zeta. by rewrite Hstride, HL. }
  set (out := foldl (add_segment segments (2 * k) k) (zeros [B; N; j * k]) (seq 0 (j - 1))) in *.
  assert (slice_index (j * k) (Z.of_nat k) = k) as Ha by (apply slice_index_inside; nia).
  assert (slice_index (j * k) (- Z.of_nat r - Z.of_nat k) = T + k) as Hb.
  { replace (- Z.of_nat r - Z.of_nat k)%Z with (- Z.of_nat (r + k))%Z by lia.
    rewrite slice_index_from_end by nia. nia. }
  exists segments, (Z.of_nat r), (j - 1), (slice_last out (Z.of_nat k) (- Z.of_nat r - Z.of_nat k)).
  split; [done|]. split; [done|]. split; [lia|].
  split; [nia|]. split; [done|]. split.
  - unfold slice_last. rewrite Hosize. cbn [last length take app default from_option size Nat.sub]. unfold Datatypes.id.
    rewrite Ha, Hb. do 3 f_equal. lia.
  - intros b n t Ht. unfold slice_last. rewrite Hosize.
    cbn [last length take app default from_option item Nat.sub]. unfold Datatypes.id.
    rewrite Ha. fold out. unfold out at 1. rewrite Hoitem, Hpad.
    rewrite (bool_decide_false (j - 1 = 0)) by lia.
    rewrite !(bool_decide_false (k + t < k)) by lia.
    rewrite (bool_decide_true (k + t < (j - 1) * k)) by nia.
    rewrite (bool_decide_true (k + t - k < T)) by lia.
    by replace (k + t - k) with t by lia.
Qed.

End Segments.

Lemma merge_of_split_doubles_the_input_witness :
  ∃ (segments : TorchTensor.tensor R) (rest : Z) (output : TorchTensor.tensor R),
    RNN_base.split_segment (TorchTensor.Tensor [1; 1; 3] (λ _, 1%R)) 4 = Ok (segments, rest)
    ∧ RNN_base.merge_segment segments rest = Ok output
    ∧ TorchTensor.size output = [1; 1; 3]
    ∧ TorchTensor.item output [0; 0; 2] = (2 * 1)%R.
Proof.
  destruct (merge_of_split_doubles_the_input (TorchTensor.Tensor [1; 1; 3] (λ _, 1%R)) 1 1 3 2)
    as (segments & rest & num & output & Hsplit & _ & _ & _ & Hmerge & Hsize & Hitem);
    [reflexivity|lia|].
  exists segments, rest, output. split; [exact Hsplit|]. split; [done|]. split; [done|].
  apply (Hitem 0 0 2). lia.
Defined.
